(** * insta-video: the resolution engine of the download route

    A shallow embedding of the route handler that turns an Instagram or
    Facebook post URL into a direct video URL: the rate limiter, the URL
    classifiers, the base-62 decoder, the Facebook share-link resolver, the
    extraction strategies of both platforms, the two orchestrators and the
    [POST] handler, followed by the properties proved of them.

    Conventions of the embedding.
    - A JavaScript string is a [string]: a sequence of code units below
      256.
    - [null] and [undefined] are kept apart ([val]); truthiness is [truthy].
    - An [async] function is a computation in the monad [M]: it threads the
      log of the HTTP requests issued so far and either returns or throws.
    - The network is a parameter ([World]): it answers every request, and
      its answer may depend on how many requests were issued before.
    - [console.log] is not modelled. *)

From Stdlib Require Import ZArith QArith Qround Lqa String Ascii DecimalString List Bool Lia.
From stdpp Require Import gmap strings.
Import ListNotations.

Local Open Scope Z_scope.
Local Open Scope string_scope.
Local Open Scope list_scope.

(* ===================================================================== *)
(** ** Strings *)
(* ===================================================================== *)

(** The double quote and the backslash, which a string literal cannot
    hold conveniently. *)
Definition dq : string := String (ascii_of_nat 34) EmptyString.
Definition bsl : string := String (ascii_of_nat 92) EmptyString.

Definition slen (s : string) : nat := String.length s.

(** [s.substring(0, n)] for [n <= s.length]. *)
Fixpoint take_str (n : nat) (s : string) : string :=
  match n, s with
  | S n', String c s' => String c (take_str n' s')
  | _, _ => EmptyString
  end.

(** [s.startsWith(p)], returning what follows [p]. *)
Fixpoint strip_prefix (p s : string) : option string :=
  match p, s with
  | EmptyString, _ => Some s
  | String a p', String b s' => if Ascii.eqb a b then strip_prefix p' s' else None
  | String _ _, EmptyString => None
  end.

(** [s.includes(p)]. *)
Fixpoint includes (p s : string) : bool :=
  match strip_prefix p s with
  | Some _ => true
  | None => match s with
            | EmptyString => false
            | String _ s' => includes p s'
            end
  end.

(** [s.replace(/p/g, by)] for a pattern [p] that is a non-empty literal:
    every occurrence, left to right, without overlap. For an empty [p]
    the string is returned unchanged (no such call occurs in the source). *)
Fixpoint replace_all_fuel (fuel : nat) (p by_ s : string) : string :=
  match fuel with
  | O => s
  | S fuel' =>
      match p with
      | EmptyString => s
      | String _ _ =>
          match strip_prefix p s with
          | Some rest => by_ +:+ replace_all_fuel fuel' p by_ rest
          | None => match s with
                    | EmptyString => EmptyString
                    | String c s' => String c (replace_all_fuel fuel' p by_ s')
                    end
          end
      end
  end.

Definition replace_all (p by_ s : string) : string :=
  replace_all_fuel (S (slen s)) p by_ s.

(** [alphabet.indexOf(c)] for a one-character [c]: [None] stands for -1. *)
Fixpoint indexOf_from (i : nat) (c : ascii) (s : string) : option nat :=
  match s with
  | EmptyString => None
  | String a s' => if Ascii.eqb a c then Some i else indexOf_from (S i) c s'
  end.

Definition indexOf (c : ascii) (s : string) : option nat := indexOf_from 0 c s.

(** [s.split(',')[0]]: the text before the first comma. *)
Fixpoint before_comma (s : string) : string :=
  match s with
  | EmptyString => EmptyString
  | String c s' => if Ascii.eqb c ","%char then EmptyString
                   else String c (before_comma s')
  end.

(** [BigInt.prototype.toString()] and [String(n)] for an integer [n]. *)
Definition string_of_N (n : N) : string :=
  NilZero.string_of_uint (N.to_uint n).

Definition string_of_Z (z : Z) : string :=
  match z with
  | Zneg p => "-" +:+ string_of_N (Npos p)
  | _ => string_of_N (Z.to_N z)
  end.

(** [s.padStart(2, '0')]. *)
Definition padStart2 (s : string) : string :=
  match slen s with
  | O => "00"
  | S O => "0" +:+ s
  | _ => s
  end.

(* ===================================================================== *)
(** ** Regular expressions

    The subset of JavaScript regular expressions the source uses:
    character classes, concatenation, the greedy and lazy quantifiers,
    capture groups, the start anchor and the [i] flag, matched by
    backtracking in the order JavaScript tries the alternatives. *)
(* ===================================================================== *)

Inductive regex : Type :=
| Eps                                        (* the empty pattern *)
| Bol                                        (* ^ *)
| Cls (neg : bool) (rs : list (ascii * ascii)) (* [a-z], [^...], one character *)
| Seq (r1 r2 : regex)
| Alt (r1 r2 : regex)                        (* r1|r2, r1 preferred *)
| Star (greedy : bool) (r : regex)           (* r* and r*? *)
| Group (n : nat) (r : regex).               (* the n-th capture group *)

Definition captures : Type := list (nat * string).

Fixpoint get_capture (n : nat) (c : captures) : option string :=
  match c with
  | [] => None
  | (m, s) :: c' => if Nat.eqb m n then Some s else get_capture n c'
  end.

Definition in_range (c : ascii) (r : ascii * ascii) : bool :=
  (nat_of_ascii (fst r) <=? nat_of_ascii c)%nat && (nat_of_ascii c <=? nat_of_ascii (snd r))%nat.

Definition in_ranges (c : ascii) (rs : list (ascii * ascii)) : bool :=
  existsb (in_range c) rs.

Definition to_upper (c : ascii) : ascii :=
  let n := nat_of_ascii c in
  if ((97 <=? n) && (n <=? 122))%nat then ascii_of_nat (n - 32) else c.

Definition to_lower (c : ascii) : ascii :=
  let n := nat_of_ascii c in
  if ((65 <=? n) && (n <=? 90))%nat then ascii_of_nat (n + 32) else c.

(** Membership of [c] in a class; with the [i] flag a character matches
    when it equals a member up to ASCII case (the classes of the source
    have ASCII members only, and JavaScript folds no character from 128 on
    to an ASCII one). *)
Definition cls_matches (icase neg : bool) (rs : list (ascii * ascii)) (c : ascii) : bool :=
  let m := if icase
           then in_ranges c rs || in_ranges (to_upper c) rs || in_ranges (to_lower c) rs
           else in_ranges c rs in
  xorb neg m.

Section Matcher.
Variable icase : bool.      (* the i flag *)
Variable total : nat.       (* length of the whole input, for ^ *)

(** [rx r s caps k]: match [r] at the front of [s], then continue with [k]
    on what remains; [None] makes the matcher backtrack. *)
Fixpoint rx (r : regex) (s : string) (caps : captures)
    (k : string -> captures -> option (string * captures)) {struct r}
    : option (string * captures) :=
  match r with
  | Eps => k s caps
  | Bol => if Nat.eqb (slen s) total then k s caps else None
  | Cls neg rs =>
      match s with
      | String c s' => if cls_matches icase neg rs c then k s' caps else None
      | EmptyString => None
      end
  | Seq r1 r2 => rx r1 s caps (fun s1 c1 => rx r2 s1 c1 k)
  | Alt r1 r2 =>
      match rx r1 s caps k with
      | Some x => Some x
      | None => rx r2 s caps k
      end
  | Star greedy r' =>
      (fix loop (fuel : nat) (s : string) (caps : captures) {struct fuel} :=
         match fuel with
         | O => k s caps
         | S fuel' =>
             let again :=
               rx r' s caps (fun s1 c1 =>
                 if (slen s1 <? slen s)%nat then loop fuel' s1 c1 else None) in
             if greedy
             then match again with Some x => Some x | None => k s caps end
             else match k s caps with Some x => Some x | None => again end
         end) (slen s) s caps
  | Group n r' =>
      rx r' s caps (fun s1 c1 =>
        k s1 ((n, take_str (slen s - slen s1) s) :: c1))
  end.
End Matcher.

(** The result of [RegExp.prototype.exec]: the matched text, the capture
    groups, and the input that follows the match. *)
Record rmatch : Type := mkMatch {
  m_text : string;
  m_caps : captures;
  m_rest : string
}.

(** [m[1]]. *)
Definition group1 (m : rmatch) : string :=
  match get_capture 1 (m_caps m) with
  | Some s => s
  | None => EmptyString
  end.

Fixpoint search (icase : bool) (total : nat) (r : regex) (s : string) : option rmatch :=
  match rx icase total r s [] (fun s1 c1 => Some (s1, c1)) with
  | Some (rest, caps) => Some (mkMatch (take_str (slen s - slen rest) s) caps rest)
  | None => match s with
            | EmptyString => None
            | String _ s' => search icase total r s'
            end
  end.

(** A pattern with its flags, as written between slashes in the source. *)
Record pattern : Type := mkPattern { p_icase : bool; p_re : regex }.

(** [s.match(p)] for a pattern without the [g] flag. *)
Definition re_match (p : pattern) (s : string) : option rmatch :=
  search (p_icase p) (slen s) (p_re p) s.

(** [p.test(s)]. *)
Definition re_test (p : pattern) (s : string) : bool :=
  match re_match p s with Some _ => true | None => false end.

(** [s.match(p)] for a pattern with the [g] flag: the matched texts, left
    to right ([None] stands for [null], no match at all). *)
Fixpoint match_all_fuel (fuel : nat) (p : pattern) (total : nat) (s : string) : list string :=
  match fuel with
  | O => []
  | S fuel' =>
      match search (p_icase p) total (p_re p) s with
      | None => []
      | Some m =>
          m_text m ::
          (if (slen (m_rest m) <? slen s)%nat
           then match_all_fuel fuel' p total (m_rest m)
           else match m_rest m with
                | EmptyString => []
                | String _ s' => match_all_fuel fuel' p total s'
                end)
      end
  end.

Definition match_all (p : pattern) (s : string) : option (list string) :=
  match match_all_fuel (S (slen s)) p (slen s) s with
  | [] => None
  | l => Some l
  end.

(** *** Pattern syntax *)

Definition chr (c : ascii) : regex := Cls false [(c, c)].
Definition not_chars (cs : string) : regex :=
  Cls true (map (fun c => (c, c)) (list_ascii_of_string cs)).
Definition one_of (cs : string) : regex :=
  Cls false (map (fun c => (c, c)) (list_ascii_of_string cs)).

Fixpoint lit (s : string) : regex :=
  match s with
  | EmptyString => Eps
  | String c EmptyString => chr c
  | String c s' => Seq (chr c) (lit s')
  end.

Definition plus (r : regex) : regex := Seq r (Star true r).
Definition star (r : regex) : regex := Star true r.
Definition lazy_star (r : regex) : regex := Star false r.
Definition opt (r : regex) : regex := Alt r Eps.

Fixpoint seqs (rs : list regex) : regex :=
  match rs with
  | [] => Eps
  | [r] => r
  | r :: rs' => Seq r (seqs rs')
  end.

(** [.] : any character but a line terminator. *)
Definition dot : regex := Cls true [("010"%char, "010"%char); ("013"%char, "013"%char)].
(** [\d], [\w], [\s], [[\w-]], [[A-Za-z0-9]]. *)
Definition digit : regex := Cls false [("0"%char, "9"%char)].
Definition word_ranges : list (ascii * ascii) :=
  [("a"%char, "z"%char); ("A"%char, "Z"%char); ("0"%char, "9"%char); ("_"%char, "_"%char)].
Definition word : regex := Cls false word_ranges.
Definition word_or_dash : regex := Cls false (word_ranges ++ [("-"%char, "-"%char)]).
Definition alnum : regex :=
  Cls false [("A"%char, "Z"%char); ("a"%char, "z"%char); ("0"%char, "9"%char)].
Definition space : regex :=
  Cls false [("009"%char, "013"%char); (" "%char, " "%char); ("160"%char, "160"%char)].

(** Any character but a double quote; any but [>]; a double or single
    quote; any character but a quote. *)
Definition not_dq : regex := not_chars dq.
Definition not_gt : regex := not_chars ">".
Definition quote : regex := one_of (dq +:+ "'").
Definition not_quote : regex := not_chars (dq +:+ "'").

Definition cap (r : regex) : regex := Group 1 r.

Definition re (rs : list regex) : pattern := mkPattern false (seqs rs).
Definition re_i (rs : list regex) : pattern := mkPattern true (seqs rs).

(** The most frequent shape: a quoted key, a colon and a quoted value
    that is captured, as in a serialized JSON object. *)
Definition json_field (key : string) : pattern :=
  re [lit (dq +:+ key +:+ dq +:+ ":" +:+ dq); cap (plus not_dq); lit dq].

(* ===================================================================== *)
(** ** Values *)
(* ===================================================================== *)

(** What a field of a result or of a JSON answer holds: nothing, null, a
    boolean or a string. Numbers, arrays and objects in such a field are
    outside the embedding. *)
Inductive val : Type :=
| undefined
| null
| vbool (b : bool)
| str (s : string).

(** JavaScript truthiness. *)
Definition truthy (v : val) : bool :=
  match v with
  | undefined | null => false
  | vbool b => b
  | str s => negb (String.eqb s EmptyString)
  end.

(** [v === s] for a string literal [s]. *)
Definition is_str (v : val) (s : string) : bool :=
  match v with
  | str t => String.eqb t s
  | _ => false
  end.

(** [a || b]. *)
Definition or_else (a b : val) : val := if truthy a then a else b.

(** A computation either returns or throws an [Error] with a message. *)
Inductive outcome (A : Type) : Type :=
| Ok (a : A)
| Throw (message : string).
Arguments Ok {A} a.
Arguments Throw {A} message.

(* ===================================================================== *)
(** ** The base-62 decoder *)
(* ===================================================================== *)

Definition alphabet : string :=
  "0123456789abcdefghijklmnopqrstuvwxyzABCDEFGHIJKLMNOPQRSTUVWXYZ".

(** The loop of [base62ToDecimal], from character [i] on, with the
    accumulator [decimal]. *)
Fixpoint base62_loop (decimal : N) (base62 : string) : outcome N :=
  match base62 with
  | EmptyString => Ok decimal
  | String char rest =>
      match indexOf char alphabet with
      | None => Throw ("Invalid base62 character: " +:+ String char EmptyString)
      | Some value => base62_loop (decimal * 62 + N.of_nat value)%N rest
      end
  end.

Definition base62ToDecimal (base62 : string) : outcome string :=
  match base62_loop 0%N base62 with
  | Ok decimal => Ok (string_of_N decimal)
  | Throw e => Throw e
  end.

(* ===================================================================== *)
(** ** The rate limiter *)
(* ===================================================================== *)

(** A value of [rateLimitMap]. *)
Record RateRecord : Type := mkRate { count : Z; lastReset : Z }.

Definition RATE_LIMIT : Z := 10.
Definition RATE_LIMIT_WINDOW : Z := 60 * 1000.

(** [checkRateLimit(ip)], with [Date.now()] and the map made explicit.
    [record.count++] updates the record stored in the map. *)
Definition checkRateLimit (now : Z) (ip : string) (rateLimitMap : gmap string RateRecord)
    : bool * gmap string RateRecord :=
  match rateLimitMap !! ip with
  | None => (true, <[ip := mkRate 1 now]> rateLimitMap)
  | Some record =>
      if (RATE_LIMIT_WINDOW <? now - lastReset record)%Z
      then (true, <[ip := mkRate 1 now]> rateLimitMap)
      else if (RATE_LIMIT <=? count record)%Z
      then (false, rateLimitMap)
      else (true, <[ip := mkRate (count record + 1)%Z (lastReset record)]> rateLimitMap)
  end.

(** A run of calls, each with its clock reading and its client key;
    the answers are collected in order. *)
Fixpoint run_checks (calls : list (Z * string)) (m : gmap string RateRecord)
    : list bool * gmap string RateRecord :=
  match calls with
  | [] => ([], m)
  | (now, ip) :: rest =>
      let (b, m1) := checkRateLimit now ip m in
      let (bs, m2) := run_checks rest m1 in
      (b :: bs, m2)
  end.

(* ===================================================================== *)
(** ** The network and the monad of asynchronous computations *)
(* ===================================================================== *)

(** The arguments of a [fetch] call. *)
Record Request : Type := mkRequest {
  r_url : string;
  r_method : string;
  r_redirect : string;                     (* empty: the default *)
  r_headers : list (string * string);
  r_body : list (string * string);         (* fields of the JSON or form body *)
  r_timeout : option Z                     (* AbortSignal.timeout, ms *)
}.

(** A parsed JSON answer, as far as the code reads it: the top-level
    fields that hold a string, a boolean or null. A field that is absent
    reads as [undefined]. *)
Definition jobject : Type := list (string * val).

Fixpoint field (k : string) (o : jobject) : val :=
  match o with
  | [] => undefined
  | (k', v) :: o' => if String.eqb k' k then v else field k o'
  end.

(** What [fetch] resolves to. [resp_text] and [resp_json] are the two
    readings of the body; either may throw. An answer whose fields
    cannot be read (JSON [null]) is a [resp_json] that throws: the field
    access that follows throws inside the same [try]. *)
Record Response : Type := mkResponse {
  resp_ok : bool;
  resp_status : Z;
  resp_url : string;                       (* the final URL, after redirects *)
  resp_location : val;                     (* headers.get('location') *)
  resp_text : outcome string;
  resp_json : outcome jobject
}.

Inductive FetchResult : Type :=
| NetError (message : string)              (* fetch rejects: network failure, timeout *)
| Responded (r : Response).

Record World : Type := mkWorld {
  (** the answer to the [n]-th request of the run *)
  net : nat -> Request -> FetchResult;
  (** [process.env.BACKEND_URL] *)
  BACKEND_URL : val
}.

(** The requests issued so far, oldest first. *)
Definition trace : Type := list Request.

Definition M (A : Type) : Type := trace -> outcome A * trace.

Definition ret {A} (a : A) : M A := fun tr => (Ok a, tr).

Definition throw {A} (message : string) : M A := fun tr => (Throw message, tr).

Definition bind {A B} (m : M A) (f : A -> M B) : M B :=
  fun tr => match m tr with
            | (Ok a, tr') => f a tr'
            | (Throw e, tr') => (Throw e, tr')
            end.

(** [try { body } catch (e) { handler }]. *)
Definition try_catch {A} (body : M A) (handler : string -> M A) : M A :=
  fun tr => match body tr with
            | (Ok a, tr') => (Ok a, tr')
            | (Throw e, tr') => handler e tr'
            end.

(** Lifting of a value that may have thrown. *)
Definition lift {A} (o : outcome A) : M A := fun tr => (o, tr).

Declare Scope async_scope.
Delimit Scope async_scope with async.
Notation "x <- c1 ;; c2" := (bind c1 (fun x => c2))
  (at level 100, c1 at next level, right associativity) : async_scope.
Local Open Scope async_scope.

(** [await fetch(...)]. *)
Definition fetch (w : World) (req : Request) : M Response :=
  fun tr => match net w (List.length tr) req with
            | NetError e => (Throw e, tr ++ [req])
            | Responded r => (Ok r, tr ++ [req])
            end.

(** [String(v)], as a template literal and [RegExp.test] apply it. *)
Definition to_string (v : val) : string :=
  match v with
  | undefined => "undefined"
  | null => "null"
  | vbool true => "true"
  | vbool false => "false"
  | str s => s
  end.

(** [encodeURIComponent]. *)
Definition hex_digit (n : nat) : ascii :=
  match String.get n "0123456789ABCDEF" with
  | Some c => c
  | None => "0"%char
  end.

Definition unreserved (c : ascii) : bool :=
  in_ranges c [("A"%char, "Z"%char); ("a"%char, "z"%char); ("0"%char, "9"%char);
               ("-"%char, "-"%char); ("_"%char, "_"%char); ("."%char, "."%char);
               ("!"%char, "!"%char); ("~"%char, "~"%char); ("*"%char, "*"%char);
               ("'"%char, "'"%char); ("("%char, "("%char); (")"%char, ")"%char)].

(** A byte, percent-encoded. *)
Definition pct (n : nat) : string :=
  String "%"%char (String (hex_digit (n / 16)) (String (hex_digit (n mod 16)) EmptyString)).

(** A code unit from 128 on is encoded as the two bytes of its UTF-8
    form. *)
Fixpoint encodeURIComponent (s : string) : string :=
  match s with
  | EmptyString => EmptyString
  | String c s' =>
      let n := nat_of_ascii c in
      (if unreserved c then String c EmptyString
       else if (n <? 128)%nat then pct n
       else pct (192 + n / 64) +:+ pct (128 + n mod 64))
      +:+ encodeURIComponent s'
  end.

(* ===================================================================== *)
(** ** URL classification *)
(* ===================================================================== *)

(** A string between double quotes. *)
Definition q (s : string) : string := dq +:+ s +:+ dq.

Definition shortcode_patterns : list pattern :=
  [ re [lit "instagram.com/p/"; cap (plus word_or_dash)];
    re [lit "instagram.com/reel/"; cap (plus word_or_dash)];
    re [lit "instagram.com/reels/"; cap (plus word_or_dash)];
    re [lit "instagram.com/tv/"; cap (plus word_or_dash)] ].

(** [for (const pattern of patterns) { const match = s.match(pattern);
    if (match) ... }]: the first pattern of the list that matches. *)
Fixpoint first_match (ps : list pattern) (s : string) : option rmatch :=
  match ps with
  | [] => None
  | p :: ps' => match re_match p s with
                | Some m => Some m
                | None => first_match ps' s
                end
  end.

Definition extractShortcode (url : string) : val :=
  match first_match shortcode_patterns url with
  | Some m => str (group1 m)
  | None => null
  end.

Definition fbPatterns : list pattern :=
  [ re [lit "facebook.com/reel/"];
    re [lit "facebook.com/"; star dot; lit "/videos/"];
    re [lit "fb.watch/"];
    re [lit "facebook.com/watch/"];
    re [lit "facebook.com/share/"];
    re [lit "m.facebook.com/share/"] ].

Definition isFacebookURL (url : string) : bool :=
  existsb (fun pattern => re_test pattern url) fbPatterns.

Definition sharePatterns : list pattern :=
  [ re [lit "facebook.com/share/r/"];
    re [lit "facebook.com/share/v/"];
    re [lit "facebook.com/share/reel/"];
    re [lit "facebook.com/share/"];
    re [lit "m.facebook.com/share/r/"] ].

Definition isFacebookShareURL (url : string) : bool :=
  existsb (fun pattern => re_test pattern url) sharePatterns.

(* ===================================================================== *)
(** ** Results *)
(* ===================================================================== *)

(** The object an extraction strategy returns; a key the object literal
    omits is [undefined]. *)
Record Result : Type := mkResult {
  video_url : val;
  thumbnail : val;
  quality : val;
  duration : val;
  method : val
}.

(** [result.thumbnail = t]. *)
Definition set_thumbnail (result : Result) (t : val) : Result :=
  mkResult (video_url result) t (quality result) (duration result) (method result).

Definition HD : val := str "HD".
Definition SD : val := str "SD".

(** Captures a quoted attribute value: [name=] followed by the value
    between double quotes. *)
Definition attr_cap (name : string) : list regex :=
  [lit (name +:+ "=" +:+ dq); cap (plus not_dq); lit dq].

Definition amp (s : string) : string := replace_all "&amp;" "&" s.
Definition strip_bsl (s : string) : string := replace_all bsl "" s.

(** [.replace(/\\u0025/g, '%').replace(/\\u0026/g, '&')
     .replace(/\\u002F/g, '/').replace(/\\/g, '')] *)
Definition unescape_fb (s : string) : string :=
  strip_bsl (replace_all (bsl +:+ "u002F") "/"
              (replace_all (bsl +:+ "u0026") "&"
                (replace_all (bsl +:+ "u0025") "%" s))).

(** [.replace(/\\u0026/g, '&').replace(/\\u002F/g, '/').replace(/\\/g, '')] *)
Definition unescape_ig (s : string) : string :=
  strip_bsl (replace_all (bsl +:+ "u002F") "/" (replace_all (bsl +:+ "u0026") "&" s)).

(** [s.replace(p, by)] for a string [p]: the first occurrence only. *)
Fixpoint replace_first (p by_ s : string) : string :=
  match strip_prefix p s with
  | Some rest => by_ +:+ rest
  | None => match s with
            | EmptyString => EmptyString
            | String c s' => String c (replace_first p by_ s')
            end
  end.

Definition UA_CHROME_WIN : string :=
  "Mozilla/5.0 (Windows NT 10.0; Win64; x64) AppleWebKit/537.36 (KHTML, like Gecko) Chrome/120.0.0.0 Safari/537.36".
Definition UA_IPHONE : string :=
  "Mozilla/5.0 (iPhone; CPU iPhone OS 16_0 like Mac OS X) AppleWebKit/605.1.15 (KHTML, like Gecko) Version/16.0 Mobile/15E148 Safari/604.1".
Definition UA_ANDROID : string :=
  "Mozilla/5.0 (Linux; Android 10; SM-G973F) AppleWebKit/537.36 (KHTML, like Gecko) Chrome/120.0.0.0 Mobile Safari/537.36".
Definition ACCEPT_HTML : string :=
  "text/html,application/xhtml+xml,application/xml;q=0.9,*/*;q=0.8".
Definition ACCEPT_HTML_WEBP : string :=
  "text/html,application/xhtml+xml,application/xml;q=0.9,image/webp,*/*;q=0.8".

Definition COBALT_API : string := "https://api.cobalt.tools/api/json".

Definition json_headers : list (string * string) :=
  [("Accept", "application/json"); ("Content-Type", "application/json")].

(** The probe the share-link resolver sends to the external resolver. *)
Definition cobalt_probe (url : string) : Request :=
  mkRequest COBALT_API "POST" "" json_headers
    [("url", url); ("vCodec", "h264"); ("vQuality", "max")] (Some 8000).

(** [data.status] is redirect, stream or tunnel. *)
Definition cobalt_status_ok (data : jobject) : bool :=
  is_str (field "status" data) "redirect"
  || is_str (field "status" data) "stream"
  || is_str (field "status" data) "tunnel".

(** [!isFacebookShareURL(u) && isFacebookURL(u)] *)
Definition canonical_fb (u : string) : bool :=
  negb (isFacebookShareURL u) && isFacebookURL u.

Definition shareIdPattern : pattern :=
  re_i [lit "/share/"; one_of "rv"; lit "/"; cap (plus alnum)].

Definition metaRefreshPattern : pattern :=
  re_i [lit "<meta"; star not_gt; lit "http-equiv="; quote; lit "refresh"; quote;
        star not_gt; lit "content="; quote; star not_quote; lit "url=";
        cap (plus not_quote); quote].

Definition ogUrlPatterns : list pattern :=
  [ re_i ([lit ("property=" +:+ q "og:url"); star not_gt] ++ attr_cap "content");
    re_i ([lit "meta"; star not_gt] ++ attr_cap "content"
            ++ [star not_gt; lit ("property=" +:+ q "og:url")]);
    re_i ([lit "<link"; star not_gt; lit ("rel=" +:+ q "canonical"); star not_gt]
            ++ attr_cap "href") ].

Definition json_digits (key : string) : pattern :=
  re [lit (q key +:+ ":" +:+ dq); cap (plus digit); lit dq].

Definition reelIdPatterns : list pattern :=
  [ json_digits "video_id";
    json_digits "videoID";
    re [lit "/reel/"; cap (plus digit)];
    json_digits "fbid" ].

(** The loop over [ogUrlPatterns]: the first pattern whose capture, with
    [&amp;] decoded, is a canonical Facebook URL. *)
Fixpoint og_url_loop (ps : list pattern) (html : string) : option string :=
  match ps with
  | [] => None
  | pattern :: ps' =>
      match re_match pattern html with
      | Some m =>
          if truthy (str (group1 m)) && canonical_fb (amp (group1 m))
          then Some (amp (group1 m))
          else og_url_loop ps' html
      | None => og_url_loop ps' html
      end
  end.

(** The loop over [reelIdPatterns]. *)
Fixpoint reel_id_loop (ps : list pattern) (html : string) : option string :=
  match ps with
  | [] => None
  | pattern :: ps' =>
      match re_match pattern html with
      | Some m =>
          if truthy (str (group1 m))
          then Some ("https://www.facebook.com/reel/" +:+ group1 m)
          else reel_id_loop ps' html
      | None => reel_id_loop ps' html
      end
  end.

(** What strategy 3 of the resolver reads from the markup of the page:
    the meta refresh target, then the Open Graph and canonical tags, then
    an embedded identifier. *)
Definition url_from_markup (html : string) : option string :=
  let refresh :=
    match re_match metaRefreshPattern html with
    | Some m =>
        if truthy (str (group1 m)) && canonical_fb (amp (group1 m))
        then Some (amp (group1 m)) else None
    | None => None
    end in
  match refresh with
  | Some u => Some u
  | None => match og_url_loop ogUrlPatterns html with
            | Some u => Some u
            | None => reel_id_loop reelIdPatterns html
            end
  end.

Definition NOT_FOUND_FB : string :=
  "Unable to fetch Facebook video. The post may be private or unavailable.".
Definition NOT_FOUND_IG : string :=
  "Unable to fetch video. The post may be private or unavailable.".

(** [shareIdMatch ? shareIdMatch[1] : null] *)
Definition shareId_of (url : string) : val :=
  match re_match shareIdPattern url with
  | Some shareIdMatch => str (group1 shareIdMatch)
  | None => null
  end.

Section Resolution.
Variable w : World.

(* =================================================================== *)
(** ** The Facebook share-link resolver *)
(* =================================================================== *)

(** Each strategy is a [try] block of [resolveFacebookShareURL_Improved];
    it yields [Some u] where the source executes [return u], and [None]
    where control reaches the next strategy. *)

(** Strategy 1: the external resolver, on the share URL itself. *)
Definition share_strategy1 (url : string) : M (option string) :=
  try_catch
    (cobaltResponse <- fetch w (cobalt_probe url);;
     if resp_ok cobaltResponse then
       data <- lift (resp_json cobaltResponse);;
       if cobalt_status_ok data && truthy (field "url" data)
       then ret (Some url)
       else ret None
     else ret None)
    (fun _ => ret None).

(** Strategy 2: the share identifier, decoded from base 62. *)
Definition share_strategy2 (shareId : val) : M (option string) :=
  if truthy shareId then
    try_catch
      (decimalId <- lift (base62ToDecimal (to_string shareId));;
       let constructedUrl := "https://www.facebook.com/reel/" +:+ decimalId in
       testResponse <- fetch w (cobalt_probe constructedUrl);;
       if resp_ok testResponse then
         data <- lift (resp_json testResponse);;
         if cobalt_status_ok data && truthy (field "url" data)
         then ret (Some constructedUrl)
         else ret None
       else ret None)
      (fun _ => ret None)
  else ret None.

(** Strategy 3: redirects, then the markup of the page. *)
Definition share_strategy3 (url : string) : M (option string) :=
  try_catch
    (manualResponse <- fetch w
       (mkRequest url "GET" "manual"
          [("User-Agent", UA_IPHONE); ("Accept", ACCEPT_HTML)] [] (Some 8000));;
     let location := resp_location manualResponse in
     if truthy location && canonical_fb (to_string location)
     then ret (Some (to_string location))
     else
       followResponse <- fetch w
         (mkRequest url "GET" "follow"
            [("User-Agent", UA_CHROME_WIN); ("Accept", ACCEPT_HTML)] [] (Some 8000));;
       if resp_ok followResponse then
         let finalUrl := resp_url followResponse in
         if truthy (str finalUrl) && canonical_fb finalUrl
         then ret (Some finalUrl)
         else
           html <- lift (resp_text followResponse);;
           ret (url_from_markup html)
       else ret None)
    (fun _ => ret None).

(** Strategy 4: the headless-browser backend, when one is configured. *)
Definition share_strategy4 (url : string) : M (option string) :=
  let backendUrl := BACKEND_URL w in
  if truthy backendUrl then
    try_catch
      (backendResponse <- fetch w
         (mkRequest (to_string backendUrl +:+ "/api/facebook-resolve") "POST" ""
            [("Content-Type", "application/json")] [("url", url)] (Some 15000));;
       if resp_ok backendResponse then
         data <- lift (resp_json backendResponse);;
         let resolved_url := field "resolved_url" data in
         if truthy resolved_url && canonical_fb (to_string resolved_url)
         then ret (Some (to_string resolved_url))
         else ret None
       else ret None)
      (fun _ => ret None)
  else ret None.

(** [return u] when the strategy found [u], the rest of the function
    otherwise. *)
Definition or_else_next (strategy : M (option string)) (next : M string) : M string :=
  found <- strategy;;
  match found with
  | Some u => ret u
  | None => next
  end.

Definition resolveFacebookShareURL_Improved (url : string) : M string :=
  let shareId := shareId_of url in
  or_else_next (share_strategy1 url)
    (or_else_next (share_strategy2 shareId)
      (or_else_next (share_strategy3 url)
        (or_else_next (share_strategy4 url)
          (ret url)))).
End Resolution.

(* ===================================================================== *)
(** ** Facebook extraction strategies: the markup parsers *)
(* ===================================================================== *)

Definition json_field_i (key : string) : pattern :=
  re_i [lit (q key +:+ ":" +:+ dq); cap (plus not_dq); lit dq].

(** A bare key, a colon and a quoted value, as in a script literal. *)
Definition js_field (key : string) : pattern :=
  re [lit (key +:+ ":" +:+ dq); cap (plus not_dq); lit dq].

(** A key whose value is the object that holds the quoted [uri]. *)
Definition uri_of (prefix : string) : pattern :=
  re [lit (prefix +:+ q "uri" +:+ ":" +:+ dq); cap (plus not_dq); lit dq].

Definition preferred_thumbnail : pattern :=
  uri_of (q "preferred_thumbnail" +:+ ":{" +:+ q "image" +:+ ":{").
Definition thumbnailImage : pattern :=
  uri_of (q "thumbnailImage" +:+ ":{").

(** *** [fetchViaFacebookAPI] *)

Definition api_hdPatterns : list pattern :=
  [ json_field "playable_url_quality_hd";
    json_field "browser_native_hd_url";
    json_field "hd_src";
    js_field "hd_src";
    json_field "playable_url" ].

Definition api_thumbnailPatterns : list pattern :=
  [ preferred_thumbnail;
    thumbnailImage;
    re ([lit (q "og:image"); star not_gt] ++ attr_cap "content");
    json_field "thumbnail_url";
    re ([lit ("property=" +:+ q "og:image"); star not_gt] ++ attr_cap "content") ].

Definition api_sdPatterns : list pattern :=
  [ json_field "browser_native_sd_url";
    json_field "sd_src";
    js_field "sd_src";
    json_field "video_url" ].

Definition parse_FacebookAPI (html : string) : option Result :=
  let thumbnail :=
    match first_match api_thumbnailPatterns html with
    | Some m => str (amp (strip_bsl (group1 m)))
    | None => undefined
    end in
  match first_match api_hdPatterns html with
  | Some m => Some (mkResult (str (unescape_fb (group1 m))) thumbnail HD undefined undefined)
  | None =>
      match first_match api_sdPatterns html with
      | Some m => Some (mkResult (str (unescape_fb (group1 m))) thumbnail SD undefined undefined)
      | None => None
      end
  end.

(** *** [fetchViaSnapSave] *)

Definition snap_hdPatterns : list pattern :=
  [ re_i (attr_cap "href"
          ++ [plus space; lit ("download=" +:+ dq); star not_dq; lit "hd"; star not_dq;
              lit ".mp4"; lit dq]);
    re_i (attr_cap "href"
          ++ [plus space; star not_gt; lit ">"; lazy_star dot; lit "HD"; lazy_star dot;
              lit "</a>"]);
    re_i ([lit "<a"; plus not_gt] ++ attr_cap "href"
          ++ [star not_gt; lit ("class=" +:+ dq); star not_dq; lit "hd"; star not_dq;
              lit dq]) ].

Definition snap_thumbnailPatterns : list pattern :=
  [ re_i (attr_cap "poster");
    json_field_i "thumbnail";
    re_i (attr_cap "data-thumb") ].

Definition snap_fallbackPatterns : list pattern :=
  [ re_i (attr_cap "href"
          ++ [plus space; lit ("download=" +:+ dq); star not_dq; lit ".mp4"; lit dq]);
    re_i ([lit "<a"; plus not_gt] ++ attr_cap "href"
          ++ [star not_gt; lit ("class=" +:+ dq); star not_dq; lit "download";
              star not_dq; lit dq]);
    re_i [lit ("href=" +:+ dq);
          cap (seqs [lit "https://"; plus not_dq; lit ".mp4"; star not_dq]); lit dq];
    json_field_i "downloadUrl" ].

Definition snap_url (s : string) : string :=
  replace_all (bsl +:+ "u002F") "/" (amp s).

Definition snap_thumbnail (html : string) : val :=
  match first_match snap_thumbnailPatterns html with
  | Some thumbnailMatch => str (group1 thumbnailMatch)
  | None => undefined
  end.

Definition parse_SnapSave (html : string) : option Result :=
  match first_match snap_hdPatterns html with
  | Some m =>
      Some (mkResult (str (snap_url (group1 m))) (snap_thumbnail html) HD undefined undefined)
  | None =>
      match first_match snap_fallbackPatterns html with
      | Some m =>
          Some (mkResult (str (snap_url (group1 m))) (snap_thumbnail html) SD
                  undefined undefined)
      | None => None
      end
  end.

(** *** [fetchViaFacebookDirect] *)

Definition direct_hdPatterns : list pattern :=
  [ json_field "playable_url_quality_hd";
    json_field "browser_native_hd_url";
    js_field "hd_src";
    json_field "hd_src" ].

Definition direct_thumbnailPatterns : list pattern :=
  [ preferred_thumbnail;
    thumbnailImage;
    re ([lit ("og:image" +:+ dq); star not_gt] ++ attr_cap "content") ].

Definition direct_fallbackPatterns : list pattern :=
  [ json_field "playable_url";
    json_field "browser_native_sd_url";
    js_field "sd_src";
    json_field "video_url";
    re [lit ("src=" +:+ dq);
        cap (seqs [lit "https://"; plus not_dq; lit ".mp4"; star not_dq]); lit dq];
    re [lit ("href=" +:+ dq); cap (seqs [lit "https://video"; plus not_dq]); lit dq] ].

Definition direct_thumbnail (html : string) : val :=
  match first_match direct_thumbnailPatterns html with
  | Some thumbnailMatch => str (amp (strip_bsl (group1 thumbnailMatch)))
  | None => undefined
  end.

Definition parse_FacebookDirect (html : string) : option Result :=
  match first_match direct_hdPatterns html with
  | Some m =>
      Some (mkResult (str (amp (unescape_fb (group1 m)))) (direct_thumbnail html) HD
              undefined undefined)
  | None =>
      match first_match direct_fallbackPatterns html with
      | Some m =>
          Some (mkResult (str (amp (unescape_fb (group1 m)))) (direct_thumbnail html) SD
                  undefined undefined)
      | None => None
      end
  end.

(** *** [extractFacebookThumbnail] *)

Definition ogImagePatterns : list pattern :=
  [ re ([lit ("property=" +:+ q "og:image"); star not_gt] ++ attr_cap "content");
    re ([lit "meta"; star not_gt] ++ attr_cap "content"
          ++ [star not_gt; lit ("property=" +:+ q "og:image")]) ].

Definition parse_og_image (html : string) : val :=
  match first_match ogImagePatterns html with
  | Some ogImageMatch => str (amp (group1 ogImageMatch))
  | None => null
  end.

Section Facebook.
Variable w : World.

Definition thumbnail_probe (url : string) : Request :=
  mkRequest url "GET" "follow"
    [("User-Agent", UA_CHROME_WIN); ("Accept", ACCEPT_HTML)] [] None.

Definition extractFacebookThumbnail (url : string) : M val :=
  try_catch
    (response <- fetch w (thumbnail_probe url);;
     if negb (resp_ok response) then ret null
     else
       html <- lift (resp_text response);;
       ret (parse_og_image html))
    (fun _ => ret null).

Definition plugin_request (url : string) : Request :=
  let apiUrl :=
    "https://www.facebook.com/plugins/video.php?href=" +:+ encodeURIComponent url in
  mkRequest apiUrl "GET" "follow"
    [("User-Agent", UA_CHROME_WIN); ("Accept", ACCEPT_HTML)] [] None.

Definition fetchViaFacebookAPI (url : string) : M (option Result) :=
  try_catch
    (response <- fetch w (plugin_request url);;
     if negb (resp_ok response) then ret None
     else
       html <- lift (resp_text response);;
       ret (parse_FacebookAPI html))
    (fun _ => ret None).

Definition cobalt_request (url : string) : Request :=
  mkRequest COBALT_API "POST" "" json_headers
    [("url", url); ("vCodec", "h264"); ("vQuality", "max"); ("aFormat", "best");
     ("filenamePattern", "basic"); ("isAudioOnly", "false");
     ("disableMetadata", "false")] None.

Definition fetchViaCobalAPI (url : string) : M (option Result) :=
  try_catch
    (response <- fetch w (cobalt_request url);;
     if negb (resp_ok response) then
       errorText <- lift (resp_text response);;
       ret None
     else
       data <- lift (resp_json response);;
       if is_str (field "status" data) "error" then ret None
       else if cobalt_status_ok data then
         ret (Some (mkResult (field "url" data) (or_else (field "thumb" data) undefined)
                      HD undefined undefined))
       else if truthy (field "url" data) then
         ret (Some (mkResult (field "url" data) (or_else (field "thumb" data) undefined)
                      HD undefined undefined))
       else ret None)
    (fun _ => ret None).

Definition snapsave_request (url : string) : Request :=
  let apiUrl := "https://www.getfvid.com/downloader" in
  mkRequest apiUrl "POST" ""
    [("User-Agent", UA_CHROME_WIN);
     ("Content-Type", "application/x-www-form-urlencoded");
     ("Accept", ACCEPT_HTML);
     ("Origin", "https://www.getfvid.com");
     ("Referer", "https://www.getfvid.com/")]
    [("url", url)] None.

Definition fetchViaSnapSave (url : string) : M (option Result) :=
  try_catch
    (response <- fetch w (snapsave_request url);;
     if negb (resp_ok response) then ret None
     else
       html <- lift (resp_text response);;
       ret (parse_SnapSave html))
    (fun _ => ret None).

Definition mobile_request (url : string) : Request :=
  let mobileUrl :=
    replace_first "m.facebook.com" "mbasic.facebook.com"
      (replace_first "www.facebook.com" "mbasic.facebook.com" url) in
  mkRequest mobileUrl "GET" "follow"
    [("User-Agent", UA_ANDROID); ("Accept", ACCEPT_HTML);
     ("Accept-Language", "en-US,en;q=0.9")] [] None.

Definition fetchViaFacebookDirect (url : string) : M (option Result) :=
  try_catch
    (response <- fetch w (mobile_request url);;
     if negb (resp_ok response) then ret None
     else
       html <- lift (resp_text response);;
       ret (parse_FacebookDirect html))
    (fun _ => ret None).

(* =================================================================== *)
(** ** The Facebook orchestrator *)
(* =================================================================== *)

(** The thumbnail backfill of a winning result. *)
Definition backfill_thumbnail (originalUrl : string) (result : Result) : M Result :=
  if negb (truthy (thumbnail result)) then
    thumbnailResult <- extractFacebookThumbnail originalUrl;;
    if truthy thumbnailResult
    then ret (set_thumbnail result thumbnailResult)
    else ret result
  else ret result.

(** One turn of the loop over the methods: [Some r] where the source
    executes [return r], [None] where the loop goes on. *)
Definition attempt_method (originalUrl : string) (method : M (option Result))
    : M (option Result) :=
  try_catch
    (result <- method;;
     match result with
     | Some result =>
         if truthy (video_url result) then
           result' <- backfill_thumbnail originalUrl result;;
           ret (Some result')
         else ret None
     | None => ret None
     end)
    (fun _ => ret None).

(** [for (const method of methods) { ... }]; both passes of
    [fetchFacebookVideo] run this loop. *)
Fixpoint try_methods (originalUrl : string) (methods : list (M (option Result)))
    : M (option Result) :=
  match methods with
  | [] => ret None
  | method :: rest =>
      won <- attempt_method originalUrl method;;
      match won with
      | Some result => ret (Some result)
      | None => try_methods originalUrl rest
      end
  end.

(** The first block of [fetchFacebookVideo]: the URL the methods are
    tried on, [resolvedUrl]. *)
Definition resolve_if_share (url : string) : M string :=
  if isFacebookShareURL url then
    resolved <- resolveFacebookShareURL_Improved w url;;
    if negb (String.eqb resolved url) then ret resolved else ret url
  else ret url.

(** [methods], and the methods of the second pass. *)
Definition facebook_methods (url : string) : list (M (option Result)) :=
  [ fetchViaFacebookAPI url;
    fetchViaCobalAPI url;
    fetchViaFacebookDirect url;
    fetchViaSnapSave url ].

Definition fallback_methods (originalUrl : string) : list (M (option Result)) :=
  [ fetchViaCobalAPI originalUrl; fetchViaSnapSave originalUrl ].

Definition fetchFacebookVideo (url : string) : M Result :=
  let originalUrl := url in
  resolvedUrl <- resolve_if_share url;;
  let url := resolvedUrl in
  first_pass <- try_methods originalUrl (facebook_methods url);;
  match first_pass with
  | Some result => ret result
  | None =>
      if isFacebookShareURL originalUrl && negb (String.eqb originalUrl resolvedUrl) then
        second_pass <- try_methods originalUrl (fallback_methods originalUrl);;
        match second_pass with
        | Some result => ret result
        | None => throw NOT_FOUND_FB
        end
      else throw NOT_FOUND_FB
  end.
End Facebook.

(* ===================================================================== *)
(** ** Instagram: the markup parsers *)
(* ===================================================================== *)

(** A quoted key whose quoted value contains [.mp4]. *)
Definition json_mp4 (key : string) : pattern :=
  re [lit (q key +:+ ":" +:+ dq); cap (seqs [plus not_dq; lit ".mp4"; star not_dq]); lit dq].

(** A key followed by a quote, a colon between optional blanks, and a
    value between quotes of either kind. *)
Definition loose_field (key : string) : pattern :=
  re [lit key; quote; star space; lit ":"; star space; quote; cap (plus not_quote); quote].

Definition src_mp4 : pattern :=
  re [lit ("src=" +:+ dq); cap (seqs [plus not_dq; lit ".mp4"; star not_dq]); lit dq].

Definition embed_videoPatterns : list pattern :=
  [ json_field "video_url"; json_mp4 "src"; loose_field "videoUrl" ].

Definition embed_thumbnailPatterns : list pattern :=
  [ json_field "display_url"; json_field "thumbnail_url"; loose_field "thumbnailUrl" ].

(** The parsing part of [fetchViaInstagramAPI]. *)
Definition parse_InstagramAPI (html : string) : option Result :=
  match first_match embed_videoPatterns html with
  | Some videoMatch =>
      let videoUrl := unescape_ig (group1 videoMatch) in
      let thumbnail :=
        match first_match embed_thumbnailPatterns html with
        | Some thumbnailMatch => str (unescape_ig (group1 thumbnailMatch))
        | None => undefined
        end in
      Some (mkResult (str videoUrl) thumbnail HD undefined undefined)
  | None => None
  end.

Definition alt_videoPatterns : list pattern :=
  [ json_field "video_url"; loose_field "videoUrl"; json_mp4 "src" ].

Definition alt_thumbnailPatterns : list pattern :=
  [ json_field "display_url"; json_field "thumbnail_url" ].

(** The parsing part of [fetchViaAlternativeService]. *)
Definition parse_AlternativeService (html : string) : option Result :=
  match first_match alt_videoPatterns html with
  | Some videoMatch =>
      let videoUrl := unescape_ig (group1 videoMatch) in
      let thumbnail :=
        match first_match alt_thumbnailPatterns html with
        | Some thumbnailMatch => str (unescape_ig (group1 thumbnailMatch))
        | None => undefined
        end in
      Some (mkResult (str videoUrl) thumbnail HD undefined undefined)
  | None => None
  end.

Definition oembed_videoPatterns : list pattern :=
  [ src_mp4; json_field "video_url" ].

(** *** [extractVideoFromHTML] *)

Definition videoPatterns : list pattern :=
  [ json_field "video_url";
    json_field "playback_url";
    json_mp4 "src";
    json_field "videoUrl";
    re ([lit ("property=" +:+ q "og:video:secure_url"); star not_gt] ++ attr_cap "content");
    re ([lit ("property=" +:+ q "og:video"); star not_gt] ++ attr_cap "content");
    re ([lit "meta"; star not_gt; lit ("property=" +:+ q "og:video"); star not_gt]
          ++ attr_cap "content");
    re [lit (q "video_versions" +:+ ":[{" +:+ q "url" +:+ ":" +:+ dq); cap (plus not_dq);
        lit dq];
    re [lit (q "video_dash_manifest" +:+ ":" +:+ dq); star not_dq;
        lit (dq +:+ "," +:+ q "video_url" +:+ ":" +:+ dq); cap (plus not_dq); lit dq];
    loose_field "videoUrl";
    json_mp4 "contentUrl";
    src_mp4;
    json_mp4 "url" ].

Definition thumbnailPatterns : list pattern :=
  [ json_field "display_url";
    json_field "thumbnail_src";
    json_field "thumbnail_url";
    re ([lit ("property=" +:+ q "og:image"); star not_gt] ++ attr_cap "content");
    re ([lit "meta"; star not_gt; lit ("property=" +:+ q "og:image"); star not_gt]
          ++ attr_cap "content");
    re [lit (q "image_versions2" +:+ ":{" +:+ q "candidates" +:+ ":[{" +:+ q "url" +:+ ":"
             +:+ dq); cap (plus not_dq); lit dq];
    loose_field "thumbnailUrl" ].

Definition scriptPattern : pattern :=
  re [lit "<script"; star not_gt; lit ">"; cap (lazy_star dot); lit "</script>"].

(** [url.includes('.mp4') || url.includes('video') || url.includes('scontent')] *)
Definition looks_like_video (url : string) : bool :=
  includes ".mp4" url || includes "video" url || includes "scontent" url.

(** The loop over [videoPatterns]: the first capture that is non-empty
    and looks like a video URL. *)
Fixpoint find_video (ps : list pattern) (text : string) : option string :=
  match ps with
  | [] => None
  | pattern :: ps' =>
      match re_match pattern text with
      | Some m =>
          if truthy (str (group1 m)) && looks_like_video (group1 m)
          then Some (group1 m)
          else find_video ps' text
      | None => find_video ps' text
      end
  end.

(** The loop over [thumbnailPatterns]: the first non-empty capture. *)
Fixpoint find_thumbnail (ps : list pattern) (text : string) : val :=
  match ps with
  | [] => null
  | pattern :: ps' =>
      match re_match pattern text with
      | Some m => if truthy (str (group1 m)) then str (group1 m)
                  else find_thumbnail ps' text
      | None => find_thumbnail ps' text
      end
  end.

(** The loop over the script elements. *)
Fixpoint find_video_in_scripts (scripts : list string) : option string :=
  match scripts with
  | [] => None
  | script :: rest =>
      match find_video videoPatterns script with
      | Some url => Some url
      | None => find_video_in_scripts rest
      end
  end.

Definition extractVideoFromHTML (html : string) : option Result :=
  let cleanHtml := unescape_ig html in
  let thumbnail := find_thumbnail thumbnailPatterns cleanHtml in
  let videoUrl :=
    match find_video videoPatterns cleanHtml with
    | Some url => Some url
    | None =>
        match match_all scriptPattern cleanHtml with
        | Some scriptMatches => find_video_in_scripts scriptMatches
        | None => None
        end
    end in
  match videoUrl with
  | None => None
  | Some videoUrl => Some (mkResult (str videoUrl) thumbnail HD undefined undefined)
  end.

(** *** [extractVideoFromJSON]

    The function takes [any]; the embedding fixes the shape it reads. A
    media item carries the URLs of its [video_versions] and of its
    [image_versions2.candidates] (when those arrays are present), and its
    [video_duration] when that is a number. *)

Record MediaItem : Type := mkItem {
  video_versions : option (list val);
  image_candidates : option (list val);
  display_url : val;
  thumbnail_src : val;
  item_video_url : val;
  video_duration : option Q
}.

(** The value found at [items] or at [shortcode_media]. *)
Inductive Media : Type :=
| NoMedia                          (* undefined or null *)
| MediaArray (l : list MediaItem)
| MediaObject (m : MediaItem).

Record MediaData : Type := mkData {
  data_items : Media;                      (* data?.items *)
  data_graphql_shortcode_media : Media;    (* data?.graphql?.shortcode_media *)
  data_data_shortcode_media : Media        (* data?.data?.shortcode_media *)
}.

(** [a || b] on these values: arrays and objects are truthy. *)
Definition media_or (a b : Media) : Media :=
  match a with
  | NoMedia => b
  | _ => a
  end.

(** [Math.trunc] and the remainder [a % b] of JavaScript, whose sign is
    that of [a]. *)
Definition Qtrunc (x : Q) : Z :=
  if Qle_bool 0 x then Qfloor x else Qceiling x.

Definition js_rem (a b : Q) : Q := (a - b * inject_Z (Qtrunc (a / b)))%Q.

(** [`${Math.floor(d / 60)}:${String(Math.floor(d % 60)).padStart(2, '0')}`] *)
Definition format_duration (d : Q) : string :=
  string_of_Z (Qfloor (d / 60)) +:+ ":" +:+ padStart2 (string_of_Z (Qfloor (js_rem d 60))).

(** [d ? format(d) : undefined] *)
Definition duration_field (video_duration : option Q) : val :=
  match video_duration with
  | Some d => if Qeq_bool d 0 then undefined else str (format_duration d)
  | None => undefined
  end.

Definition first_url (l : option (list val)) : val :=
  match l with
  | Some (u :: _) => u
  | _ => undefined
  end.

Definition extractVideoFromJSON (data : MediaData) : option Result :=
  let items :=
    media_or (data_items data)
      (media_or (data_graphql_shortcode_media data) (data_data_shortcode_media data)) in
  match items with
  | MediaArray (item :: _) =>
      match video_versions item with
      | Some (version :: _) =>
          Some (mkResult version
                  (or_else (first_url (image_candidates item)) (display_url item))
                  HD (duration_field (video_duration item)) undefined)
      | _ => None
      end
  | MediaArray [] => None
  | MediaObject items =>
      let videoUrl := item_video_url items in
      let thumbnail := or_else (display_url items) (thumbnail_src items) in
      if truthy videoUrl
      then Some (mkResult videoUrl thumbnail HD (duration_field (video_duration items))
                   undefined)
      else None
  | NoMedia => None
  end.

(* ===================================================================== *)
(** ** Instagram strategies and orchestrator *)
(* ===================================================================== *)

Definition UA_GOOGLEBOT : string :=
  "Mozilla/5.0 (compatible; Googlebot/2.1; +http://www.google.com/bot.html)".
Definition UA_INSTAGRAM_APP : string :=
  "Instagram 76.0.0.15.395 Android (24/7.0; 640dpi; 1440x2560; samsung; SM-G930F; herolte; samsungexynos8890; en_US; 138226743)".

Definition userAgents : list string :=
  [ UA_GOOGLEBOT;
    "Mozilla/5.0 (compatible; facebookexternalhit/1.1; +http://www.facebook.com/externalhit_uatext.php)";
    "Mozilla/5.0 (X11; Linux x86_64) AppleWebKit/537.36 (KHTML, like Gecko) Chrome/120.0.0.0 Safari/537.36";
    "Mozilla/5.0 (iPhone; CPU iPhone OS 16_0 like Mac OS X) AppleWebKit/605.1.15" ].

(** [result && result.video_url] *)
Definition has_video (result : option Result) : bool :=
  match result with
  | Some r => truthy (video_url r)
  | None => false
  end.

Section Instagram.
Variable w : World.

Definition fetchViaInstagramAPI (shortcode : string) : M (option Result) :=
  try_catch
    (let embedUrl := "https://www.instagram.com/p/" +:+ shortcode +:+ "/embed/captioned/" in
     response <- fetch w
       (mkRequest embedUrl "GET" ""
          [("User-Agent", UA_GOOGLEBOT); ("Accept", ACCEPT_HTML);
           ("Accept-Language", "en-US,en;q=0.9")] [] None);;
     if negb (resp_ok response) then ret None
     else
       html <- lift (resp_text response);;
       ret (parse_InstagramAPI html))
    (fun _ => ret None).

Definition fetchViaAlternativeService (url : string) : M (option Result) :=
  try_catch
    (let shortcode := extractShortcode url in
     if negb (truthy shortcode) then ret None
     else
       let mobileUrl := "https://www.instagram.com/p/" +:+ to_string shortcode +:+ "/" in
       response <- fetch w
         (mkRequest mobileUrl "GET" ""
            [("User-Agent", UA_INSTAGRAM_APP); ("Accept", "*/*");
             ("Accept-Language", "en-US,en;q=0.9")] [] None);;
       if negb (resp_ok response) then ret None
       else
         html <- lift (resp_text response);;
         ret (parse_AlternativeService html))
    (fun _ => ret None).

(** [data.html.match(...)]: calling [match] on a value that is not a
    string throws a [TypeError]. *)
Definition html_of (v : val) : M string :=
  match v with
  | str s => ret s
  | _ => throw "data.html.match is not a function"
  end.

Definition fetchViaOEmbed (url : string) : M (option Result) :=
  try_catch
    (let oembedUrl := "https://api.instagram.com/oembed/?url=" +:+ encodeURIComponent url in
     response <- fetch w
       (mkRequest oembedUrl "GET" ""
          [("User-Agent", "Mozilla/5.0 (Windows NT 10.0; Win64; x64) AppleWebKit/537.36")]
          [] None);;
     found <-
       (if resp_ok response then
          data <- lift (resp_json response);;
          from_html <-
            (if truthy (field "html" data) then
               html <- html_of (field "html" data);;
               match first_match oembed_videoPatterns html with
               | Some videoMatch =>
                   ret (Some (mkResult (str (group1 videoMatch))
                                (field "thumbnail_url" data) HD undefined undefined))
               | None => ret None
               end
             else ret None);;
          match from_html with
          | Some result => ret (Some result)
          | None =>
              if truthy (field "thumbnail_url" data)
              then ret (Some (mkResult undefined (field "thumbnail_url" data)
                                undefined undefined undefined))
              else ret None
          end
        else ret None);;
     match found with
     | Some result => ret (Some result)
     | None => fetchViaAlternativeService url
     end)
    (fun _ => ret None).

Definition tryFetchWithUserAgent (url userAgent : string) : M (option Result) :=
  response <- fetch w
    (mkRequest url "GET" "follow"
       [("User-Agent", userAgent); ("Accept", ACCEPT_HTML_WEBP);
        ("Accept-Language", "en-US,en;q=0.9"); ("Cache-Control", "no-cache");
        ("Pragma", "no-cache")] [] None);;
  if negb (resp_ok response) then ret None
  else
    html <- lift (resp_text response);;
    ret (extractVideoFromHTML html).

Definition tryEmbedApproach (shortcode : string) : M (option Result) :=
  let embedUrl := "https://www.instagram.com/p/" +:+ shortcode +:+ "/embed/" in
  response <- fetch w
    (mkRequest embedUrl "GET" ""
       [("User-Agent", "Mozilla/5.0 (compatible; facebookexternalhit/1.1)");
        ("Accept", ACCEPT_HTML)] [] None);;
  if negb (resp_ok response) then ret None
  else
    html <- lift (resp_text response);;
    ret (extractVideoFromHTML html).

(** The loop over [userAgents] of [fetchViaPageScrape]. *)
Fixpoint try_user_agents (url : string) (agents : list string) : M (option Result) :=
  match agents with
  | [] => ret None
  | userAgent :: rest =>
      won <- try_catch
               (result <- tryFetchWithUserAgent url userAgent;;
                if has_video result then ret result else ret None)
               (fun _ => ret None);;
      match won with
      | Some result => ret (Some result)
      | None => try_user_agents url rest
      end
  end.

Definition fetchViaPageScrape (url : string) : M (option Result) :=
  try_catch
    (scraped <- try_user_agents url userAgents;;
     match scraped with
     | Some result => ret (Some result)
     | None =>
         let shortcode := extractShortcode url in
         if truthy shortcode then
           embedResult <- tryEmbedApproach (to_string shortcode);;
           if has_video embedResult then ret embedResult else ret None
         else ret None
     end)
    (fun _ => ret None).

(** [for (const approach of approaches) { ... }] *)
Fixpoint try_approaches (approaches : list (M (option Result))) : M (option Result) :=
  match approaches with
  | [] => ret None
  | approach :: rest =>
      won <- try_catch
               (result <- approach;;
                if has_video result then ret result else ret None)
               (fun _ => ret None);;
      match won with
      | Some result => ret (Some result)
      | None => try_approaches rest
      end
  end.

(** The first attempt of [fetchInstagramData]: the Puppeteer backend. *)
Definition fetchViaBackend (url : string) : M (option Result) :=
  try_catch
    (let backendUrl := to_string (or_else (BACKEND_URL w) (str "http://localhost:3001")) in
     response <- fetch w
       (mkRequest (backendUrl +:+ "/api/reel?url=" +:+ encodeURIComponent url) "GET" ""
          [("Accept", "application/json");
           ("User-Agent", "Instagram-Downloader-Frontend/1.0")] [] None);;
     if resp_ok response then
       data <- lift (resp_json response);;
       if truthy (field "success" data) && truthy (field "videoUrl" data)
       then ret (Some (mkResult (field "videoUrl" data) null HD undefined
                         (str ("puppeteer-" +:+ to_string (field "method" data)))))
       else ret None
     else ret None)
    (fun _ => ret None).

(** [approaches] *)
Definition instagram_approaches (shortcode url : string) : list (M (option Result)) :=
  [ fetchViaInstagramAPI shortcode;
    fetchViaPageScrape url;
    fetchViaOEmbed url ].

Definition fetchInstagramData (url : string) : M Result :=
  from_backend <- fetchViaBackend url;;
  match from_backend with
  | Some result => ret result
  | None =>
      let shortcode := extractShortcode url in
      if negb (truthy shortcode) then throw "Invalid Instagram URL"
      else
        found <- try_approaches (instagram_approaches (to_string shortcode) url);;
        match found with
        | Some result => ret result
        | None => throw NOT_FOUND_IG
        end
  end.
End Instagram.

(* ===================================================================== *)
(** ** The handler *)
(* ===================================================================== *)

(** The incoming request: the two headers read, and the parsed body
    (reading it throws when it is not JSON). *)
Record NextRequest : Type := mkNextRequest {
  x_forwarded_for : val;                   (* null when the header is absent *)
  x_real_ip : val;
  request_json : outcome jobject
}.

(** [NextResponse.json(body, { status })]; [payload] holds the fields
    spread from the result on success. *)
Record HttpResponse : Type := mkHttp {
  status : Z;
  success : bool;
  error : val;
  payload : option Result
}.

Definition failure (code : Z) (message : string) : HttpResponse :=
  mkHttp code false (str message) None.

Definition validPatterns : list pattern :=
  map (fun kind =>
         re [Bol; lit "http"; opt (chr "s"); lit "://"; opt (Group 1 (lit "www."));
             lit ("instagram.com/" +:+ kind +:+ "/"); plus word_or_dash])
      ["p"; "reel"; "reels"; "tv"].

(** [headers.get('x-forwarded-for')?.split(',')[0]
     || headers.get('x-real-ip') || 'unknown'] *)
Definition client_ip (request : NextRequest) : string :=
  let first_hop :=
    match x_forwarded_for request with
    | str s => str (before_comma s)
    | _ => undefined
    end in
  to_string (or_else (or_else first_hop (x_real_ip request)) (str "unknown")).

Section Handler.
Variable w : World.

(** The part of [POST] after the rate limit check, inside the outer
    [try]. *)
Definition handle (request : NextRequest) : M HttpResponse :=
  body <- lift (request_json request);;
  let url := field "url" body in
  if negb (truthy url) then ret (failure 400 "URL is required")
  else
    let url := to_string url in
    if isFacebookURL url then
      try_catch
        (videoData <- fetchFacebookVideo w url;;
         if negb (truthy (video_url videoData))
         then ret (failure 404 NOT_FOUND_FB)
         else ret (mkHttp 200 true undefined (Some videoData)))
        (fun fbError => ret (failure 500 fbError))
    else if negb (existsb (fun p => re_test p url) validPatterns)
    then ret (failure 400 "Invalid Instagram or Facebook URL format")
    else
      videoData <- fetchInstagramData w url;;
      if negb (truthy (video_url videoData))
      then ret (failure 404 NOT_FOUND_IG)
      else ret (mkHttp 200 true undefined (Some videoData)).

(** [POST(request)], with the clock, the rate limit map and the request
    log made explicit. *)
Definition POST (now : Z) (request : NextRequest)
    (rateLimitMap : gmap string RateRecord) (tr : trace)
    : HttpResponse * gmap string RateRecord * trace :=
  let ip := client_ip request in
  let (allowed, rateLimitMap') := checkRateLimit now ip rateLimitMap in
  if negb allowed then
    (failure 429 "Too many requests. Please wait a moment and try again.",
     rateLimitMap', tr)
  else
    match try_catch (handle request) (fun message => ret (failure 500 message)) tr with
    | (Ok response, tr') => (response, rateLimitMap', tr')
    | (Throw message, tr') => (failure 500 message, rateLimitMap', tr')
    end.
End Handler.

(* ===================================================================== *)
(** ** The validators of the client and of the backend

    The page checks a URL before it posts it to the route, and the
    Puppeteer backend checks the URL the route forwards to it. *)
(* ===================================================================== *)

(** [^https?:\/\/(www\.)?], the common head of the anchored patterns. *)
Definition url_head : list regex :=
  [Bol; lit "http"; opt (chr "s"); lit "://"; opt (Group 1 (lit "www."))].

(** An Instagram pattern of the page and of the backend: the head, the
    host and the kind, a shortcode, and an optional slash. *)
Definition instagram_link (kind : string) : pattern :=
  re (url_head ++ [lit ("instagram.com/" +:+ kind +:+ "/"); plus word_or_dash;
                   opt (chr "/")]).

Module Client.
Definition validateInstagramUrl (url : string) : bool :=
  existsb (fun pattern => re_test pattern url)
    [ instagram_link "p"; instagram_link "reel"; instagram_link "tv";
      instagram_link "reels" ].

Definition validateFacebookUrl (url : string) : bool :=
  existsb (fun pattern => re_test pattern url)
    [ re (url_head ++ [lit "facebook.com/"; star dot; lit "/videos/"]);
      re (url_head ++ [lit "facebook.com/reel/"]);
      re (url_head ++ [lit "facebook.com/watch/"]);
      re [Bol; lit "http"; opt (chr "s"); lit "://"; lit "fb.watch/"] ].

Definition validateUrl (url : string) : bool :=
  validateInstagramUrl url || validateFacebookUrl url.
End Client.

Module Backend.
(** [validateInstagramUrl(url)] of the backend, applied to a query
    parameter. *)
Definition validateInstagramUrl (url : val) : bool :=
  match url with
  | str s =>
      if negb (truthy url) then false
      else existsb (fun pattern => re_test pattern s)
             [ instagram_link "reel"; instagram_link "p"; instagram_link "reels";
               instagram_link "tv" ]
  | _ => false
  end.
End Backend.

(* ===================================================================== *)
(** ** The page: what a submission shows

    [handleSubmit] of the page, from the URL typed to what the page
    shows next. The call of the route is a parameter: it answers, or the
    request is aborted after thirty seconds, or it fails. *)
(* ===================================================================== *)

Module Page.
(** What [fetch] and [response.json()] give the page. *)
Inductive Reply : Type :=
| Answered (response : HttpResponse)
| Aborted                                  (* an Error named AbortError *)
| Failed                                   (* any other Error *)
| Rejected.                                (* a rejection that is no Error *)

(** [setError(message)], or [setVideoData(data)]. *)
Inductive View : Type :=
| ErrorView (message : string)
| VideoView (data : HttpResponse).

(** [!url.trim()] *)
Definition blank (url : string) : bool :=
  forallb (cls_matches false false
             [("009"%char, "013"%char); (" "%char, " "%char); ("160"%char, "160"%char)])
          (list_ascii_of_string url).

(** [response.ok] *)
Definition response_ok (response : HttpResponse) : bool :=
  ((200 <=? status response) && (status response <=? 299))%Z.

(** [data.video_url], a field spread from the result. *)
Definition data_video_url (data : HttpResponse) : val :=
  match payload data with
  | Some r => video_url r
  | None => undefined
  end.

Definition handleSubmit (api_download : jobject -> Reply) (url : string) : View :=
  if blank url then ErrorView "Please enter an Instagram or Facebook URL"
  else if negb (Client.validateUrl url)
  then ErrorView "Invalid URL. Please enter a valid Instagram or Facebook video/reel link."
  else
    match api_download [("url", str url)] with
    | Answered response =>
        if negb (response_ok response) then
          ErrorView (to_string (or_else (error response)
                       (str ("Server error: " +:+ string_of_Z (status response)))))
        else
          let data := response in
          if negb (success data) then
            ErrorView (to_string (or_else (error data)
                         (str "Failed to fetch video. Please try again.")))
          else if negb (truthy (data_video_url data)) then
            ErrorView "No video found. This might be an image post or the video is unavailable."
          else VideoView data
    | Aborted => ErrorView "Request timed out. Please try again."
    | Failed => ErrorView "Network error. Please check your connection and try again."
    | Rejected => ErrorView "Unable to connect to server. Please try again later."
    end.
End Page.

(* ===================================================================== *)
(** ** The vocabulary of the properties *)
(* ===================================================================== *)

(** The digit a character stands for, read off its character code:
    [0-9] are 0..9, [a-z] are 10..35, [A-Z] are 36..61. *)
Definition digit_value (c : ascii) : option nat :=
  let n := nat_of_ascii c in
  if ((48 <=? n) && (n <=? 57))%nat then Some (n - 48)%nat
  else if ((97 <=? n) && (n <=? 122))%nat then Some (n - 97 + 10)%nat
  else if ((65 <=? n) && (n <=? 90))%nat then Some (n - 65 + 36)%nat
  else None.

(** The number a digit string denotes, most significant digit first. *)
Fixpoint base62_value (s : string) : N :=
  match s with
  | EmptyString => 0%N
  | String c rest =>
      (N.of_nat (default 0%nat (digit_value c)) * 62 ^ N.of_nat (slen rest)
       + base62_value rest)%N
  end.

Definition in_alphabet (c : ascii) : Prop := digit_value c <> None.

Definition invalid_message (c : ascii) : string :=
  "Invalid base62 character: " +:+ String c EmptyString.

(** A call with key [ip] at time [t0] opens a window when the key has no
    record yet or the window of its record has elapsed. *)
Definition opens_window (m : gmap string RateRecord) (ip : string) (t0 : Z) : Prop :=
  match m !! ip with
  | None => True
  | Some record => (RATE_LIMIT_WINDOW < t0 - lastReset record)%Z
  end.

(** The calls of a run that carry the key [ip]. *)
Definition calls_of (ip : string) (calls : list (Z * string)) : nat :=
  List.length (List.filter (fun call => String.eqb (snd call) ip) calls).

(** A call with key [ip] falls in the window opened at [t0]. *)
Definition in_window (ip : string) (t0 : Z) (call : Z * string) : Prop :=
  snd call = ip -> (fst call - t0 <= RATE_LIMIT_WINDOW)%Z.

(** Every call with key [ip] was answered [true]. *)
Definition all_allowed (ip : string) (calls : list (Z * string)) (answers : list bool) : Prop :=
  Forall2 (fun call answer => snd call = ip -> answer = true) calls answers.

(** The counter of every record stays within the limit. *)
Definition within_limit (m : gmap string RateRecord) : Prop :=
  forall ip record, m !! ip = Some record -> (1 <= count record <= RATE_LIMIT)%Z.





(** A computation that cannot throw. *)
Definition never_throws {A} (m : M A) : Prop :=
  forall tr, exists a tr', m tr = (Ok a, tr').

(** Some pattern of the list matches the markup. *)
Definition matches_some (ps : list pattern) (html : string) : Prop :=
  exists p, In p ps /\ re_match p html <> None.

(** A parser with an HD tier and an SD tier: a match in the HD tier wins
    and is tagged HD, whatever the SD tier would find; the SD tier is
    consulted only when the HD tier finds nothing, and is tagged SD; with
    no match in either tier there is no result. [clean] is the unescaping
    the parser applies to the captured URL. *)
Definition tiered (parse : string -> option Result) (hd sd : list pattern)
    (clean : string -> string) : Prop :=
  forall html,
    (matches_some hd html ->
       exists m r, first_match hd html = Some m /\ parse html = Some r
                   /\ video_url r = str (clean (group1 m)) /\ quality r = HD)
    /\ (~ matches_some hd html -> matches_some sd html ->
          exists m r, first_match sd html = Some m /\ parse html = Some r
                      /\ video_url r = str (clean (group1 m)) /\ quality r = SD)
    /\ (~ matches_some hd html -> ~ matches_some sd html -> parse html = None).

(** A strategy that fetches one page and hands its markup to a parser:
    it issues the request, and returns what the parser makes of the body
    when the answer is a success whose body can be read, null otherwise. *)
Definition runs_parser (strategy : World -> string -> M (option Result))
    (request : string -> Request) (parse : string -> option Result) : Prop :=
  forall w url tr,
    strategy w url tr
    = (match net w (List.length tr) (request url) with
       | Responded response =>
           if resp_ok response
           then match resp_text response with
                | Ok html => Ok (parse html)
                | Throw _ => Ok None
                end
           else Ok None
       | NetError _ => Ok None
       end, tr ++ [request url]).

(** What an Instagram strategy may hand to the orchestrator: a result
    tagged HD, or an object without a video URL and without a tag (the
    thumbnail-only answer of the oEmbed strategy). *)
Definition HD_or_no_video (r : Result) : Prop :=
  quality r = HD \/ (video_url r = undefined /\ quality r = undefined).

Definition always_HD (strategy : M (option Result)) : Prop :=
  forall tr r tr', strategy tr = (Ok (Some r), tr') -> quality r = HD.

(** A strategy that makes the loop go on: it throws, it returns [null],
    or it returns an object without a video URL. *)
Definition advances (strategy : M (option Result)) (tr tr' : trace) : Prop :=
  (exists e, strategy tr = (Throw e, tr'))
  \/ strategy tr = (Ok None, tr')
  \/ (exists r, strategy tr = (Ok (Some r), tr') /\ truthy (video_url r) = false).

(** A strategy that wins: it returns an object with a video URL. *)
Definition wins (strategy : M (option Result)) (tr : trace) (r : Result) (tr' : trace) : Prop :=
  strategy tr = (Ok (Some r), tr') /\ truthy (video_url r) = true.

(** Every strategy of the list, run in order from [tr], advances; the
    last one leaves the log at [tr']. *)
Inductive all_advance : list (M (option Result)) -> trace -> trace -> Prop :=
| all_advance_nil tr : all_advance [] tr tr
| all_advance_cons strategy rest tr tr1 tr2 :
    advances strategy tr tr1 -> all_advance rest tr1 tr2 ->
    all_advance (strategy :: rest) tr tr2.

(** The winner [r], left at log [tr2], after the thumbnail backfill: the
    same object up to its thumbnail, and the very same, with nothing
    requested, when it has a thumbnail. *)
Definition backfilled (w : World) (originalUrl : string) (r : Result) (tr2 : trace)
    (r' : Result) (tr3 : trace) : Prop :=
  backfill_thumbnail w originalUrl r tr2 = (Ok r', tr3)
  /\ video_url r' = video_url r /\ quality r' = quality r
  /\ duration r' = duration r /\ method r' = method r
  /\ (truthy (thumbnail r) = true -> r' = r /\ tr3 = tr2).

(** The network of a world in which every request fails. *)
Definition unreachable (w : World) : Prop :=
  forall n req, exists e, net w n req = NetError e.

(** Exhaustion: every method of the first pass advances, and so does
    every method of the second pass when there is one. *)
Definition exhausted (w : World) (url : string) (tr tr' : trace) : Prop :=
  exists resolvedUrl tr0 tr1,
    resolve_if_share w url tr = (Ok resolvedUrl, tr0)
    /\ all_advance (facebook_methods w resolvedUrl) tr0 tr1
    /\ if isFacebookShareURL url && negb (String.eqb url resolvedUrl)
       then all_advance (fallback_methods w url) tr1 tr'
       else tr' = tr1.

(* ===================================================================== *)
(** ** What a pattern matches

    The matches of a pattern, stated without the search order: [mtc r s c
    s1 c1] says that [r] can consume a prefix of [s] and leave [s1],
    turning the captures [c] into [c1]. An iteration of a quantifier
    consumes at least one character, as in JavaScript. *)
(* ===================================================================== *)

Section Matches.
Variable icase : bool.
Variable total : nat.

Inductive mtc : regex -> string -> captures -> string -> captures -> Prop :=
| mtc_eps s c : mtc Eps s c s c
| mtc_bol s c : slen s = total -> mtc Bol s c s c
| mtc_cls neg rs ch s c :
    cls_matches icase neg rs ch = true -> mtc (Cls neg rs) (String ch s) c s c
| mtc_seq r1 r2 s c s1 c1 s2 c2 :
    mtc r1 s c s1 c1 -> mtc r2 s1 c1 s2 c2 -> mtc (Seq r1 r2) s c s2 c2
| mtc_alt_l r1 r2 s c s1 c1 : mtc r1 s c s1 c1 -> mtc (Alt r1 r2) s c s1 c1
| mtc_alt_r r1 r2 s c s1 c1 : mtc r2 s c s1 c1 -> mtc (Alt r1 r2) s c s1 c1
| mtc_star_done g r s c : mtc (Star g r) s c s c
| mtc_star_more g r s c s1 c1 s2 c2 :
    mtc r s c s1 c1 -> (slen s1 < slen s)%nat -> mtc (Star g r) s1 c1 s2 c2 ->
    mtc (Star g r) s c s2 c2
| mtc_group n r s c s1 c1 :
    mtc r s c s1 c1 ->
    mtc (Group n r) s c s1 ((n, take_str (slen s - slen s1) s) :: c1).

End Matches.

(** The loop of a quantifier in [rx], on its own. *)
Section StarLoop.
Variable step : string -> captures ->
                (string -> captures -> option (string * captures)) ->
                option (string * captures).
Variable greedy : bool.
Variable k : string -> captures -> option (string * captures).

Fixpoint star_loop (fuel : nat) (s : string) (caps : captures) {struct fuel}
    : option (string * captures) :=
  match fuel with
  | O => k s caps
  | S fuel' =>
      let again :=
        step s caps (fun s1 c1 =>
          if (slen s1 <? slen s)%nat then star_loop fuel' s1 c1 else None) in
      if greedy
      then match again with Some x => Some x | None => k s caps end
      else match k s caps with Some x => Some x | None => again end
  end.
End StarLoop.

(** A pattern without capture groups. *)
Fixpoint no_group (r : regex) : bool :=
  match r with
  | Eps | Bol | Cls _ _ => true
  | Seq r1 r2 | Alt r1 r2 => no_group r1 && no_group r2
  | Star _ r' => no_group r'
  | Group _ _ => false
  end.

(** Membership in a character class, as a predicate. *)
Definition in_cls (icase neg : bool) (rs : list (ascii * ascii)) (ch : ascii) : Prop :=
  cls_matches icase neg rs ch = true.

(** Two patterns that match at the same places. *)
Definition same_matches (icase : bool) (total : nat) (r r' : regex) : Prop :=
  forall s c,
    (exists s1 c1, mtc icase total r s c s1 c1)
    <-> (exists s1 c1, mtc icase total r' s c s1 c1).

(** [t] occurs in [s]. *)
Definition occurs_in (t s : string) : Prop := exists a b, s = a +:+ t +:+ b.

(** The characters of a string all satisfy [P]. *)
Definition all_chars (P : ascii -> Prop) (s : string) : Prop :=
  Forall P (list_ascii_of_string s).

(** The characters of [[\w-]], of [\d], and the Instagram link kinds. *)
Definition shortcode_char (ch : ascii) : Prop :=
  in_cls false false (word_ranges ++ [("-"%char, "-"%char)]) ch.

Definition digit_char (ch : ascii) : Prop :=
  in_cls false false [("0"%char, "9"%char)] ch.

Definition link_kinds : list string := ["p"; "reel"; "reels"; "tv"].

(* ===================================================================== *)
(** ** The requests a computation sends *)
(* ===================================================================== *)

(** [sends P n m]: whatever the log holds and however the network
    answers, [m] keeps the log and appends at most [n] requests to it,
    each of which satisfies [P]. *)
Definition sends {A} (P : Request -> Prop) (n : nat) (m : M A) : Prop :=
  forall tr, exists extra,
    snd (m tr) = tr ++ extra /\ (List.length extra <= n)%nat /\ Forall P extra.

Definition any_request (req : Request) : Prop := True.

Definition starts_with (p s : string) : Prop := exists rest, s = p +:+ rest.

(** Where the Instagram extraction sends its requests for [url]: to
    [url] itself, to a post page on [www.instagram.com], to the oEmbed
    endpoint, or to the reel endpoint of the backend. *)
Definition instagram_target (w : World) (url : string) (req : Request) : Prop :=
  r_url req = url
  \/ starts_with "https://www.instagram.com/p/" (r_url req)
  \/ starts_with "https://api.instagram.com/oembed/?url=" (r_url req)
  \/ starts_with (to_string (or_else (BACKEND_URL w) (str "http://localhost:3001"))
                    +:+ "/api/reel?url=") (r_url req).

(** The two shapes of an answer of the route: a video, or an error. *)
Definition answers_video (response : HttpResponse) : Prop :=
  status response = 200 /\ success response = true
  /\ exists r, payload response = Some r /\ truthy (video_url r) = true.

Definition answers_error (response : HttpResponse) : Prop :=
  In (status response) [400; 429; 500] /\ success response = false
  /\ payload response = None.

(** A request that is aborted after at most [limit] milliseconds. *)
Definition times_out_within (limit : Z) (req : Request) : Prop :=
  exists t, r_timeout req = Some t /\ (0 < t <= limit)%Z.

Definition backslash : ascii := ascii_of_nat 92.

(** The answers a run of calls gave to the calls with key [ip]. *)
Definition answers_to (ip : string) (calls : list (Z * string)) (answers : list bool)
    : list bool :=
  map snd (List.filter (fun ca => String.eqb (snd (fst ca)) ip) (combine calls answers)).

(** The calls of a run that carry the key [ip]. *)
Definition calls_with (ip : string) (calls : list (Z * string)) : list (Z * string) :=
  List.filter (fun call => String.eqb (snd call) ip) calls.

Definition no_backslash (s : string) : Prop :=
  all_chars (fun ch => ch <> backslash) s.

(** The shape of an Instagram URL: a scheme, an optional [www.], the
    host, one of the four kinds, a shortcode, and anything after it. *)
Definition instagram_url_shape (url : string) : Prop :=
  exists scheme www kind code rest,
    url = scheme +:+ "://" +:+ www +:+ "instagram.com/" +:+ kind +:+ "/" +:+ code +:+ rest
    /\ (scheme = "http" \/ scheme = "https")
    /\ (www = "" \/ www = "www.")
    /\ In kind link_kinds
    /\ code <> "" /\ all_chars shortcode_char code.

(** The messages the page can show when the route has answered. *)
Definition page_messages : list string :=
  [ "Please enter an Instagram or Facebook URL";
    "Invalid URL. Please enter a valid Instagram or Facebook video/reel link.";
    "Too many requests. Please wait a moment and try again.";
    NOT_FOUND_FB;
    NOT_FOUND_IG ].

(* ===================================================================== *)
(** ** Sample inputs *)
(* ===================================================================== *)



(** A page that carries an SD source before an HD source: the embed
    player strategy reports the HD one. *)
Definition sample_fb_markup : string :=
  "{" +:+ q "sd_src" +:+ ":" +:+ q "https://v.fb/sd.mp4" +:+ ","
      +:+ q "hd_src" +:+ ":" +:+ q ("https:" +:+ bsl +:+ "/" +:+ bsl +:+ "/v.fb"
                                      +:+ bsl +:+ "/hd.mp4") +:+ "}".

Definition plugin_world : World :=
  mkWorld
    (fun _ req =>
       Responded (mkResponse true 200 (r_url req) null (Ok sample_fb_markup)
                    (Throw "Unexpected token")))
    undefined.

(** The end-to-end example of the specification: the backend is down and
    the embed endpoint answers with markup that holds a [video_url]. *)
Definition embed_markup : string :=
  "{" +:+ q "video_url" +:+ ":" +:+ q "https://x.cdn/video.mp4" +:+ "}".

Definition embed_world : World :=
  mkWorld
    (fun _ req =>
       if String.eqb (r_url req) "https://www.instagram.com/p/ABC123/embed/captioned/"
       then Responded (mkResponse true 200 (r_url req) null (Ok embed_markup)
                         (Throw "Unexpected token"))
       else NetError "fetch failed")
    undefined.

(** The scenario of the specification: the embed player fails, the
    external resolver answers, and the two strategies after it are
    never asked. *)
Definition cobalt_world : World :=
  mkWorld
    (fun _ req =>
       if String.eqb (r_url req) COBALT_API
       then Responded (mkResponse true 200 (r_url req) null (Throw "body used")
                         (Ok [("status", str "redirect");
                              ("url", str "https://cdn.example/v.mp4");
                              ("thumb", str "https://cdn.example/t.jpg")]))
       else NetError "fetch failed")
    undefined.

Definition cobalt_result : Result :=
  mkResult (str "https://cdn.example/v.mp4") (str "https://cdn.example/t.jpg") HD
           undefined undefined.




(** A world in which no request gets through, and the share link of the
    specification's example. *)
Definition dead_world : World := mkWorld (fun _ _ => NetError "fetch failed") undefined.

Definition share_link : string := "https://facebook.com/share/r/XyZ9/".

(** The share link of the specification's example, sent by a client when
    no request of the server gets through. *)
Definition share_request : NextRequest :=
  mkNextRequest (str "203.0.113.7, 10.0.0.1") null (Ok [("url", str share_link)]).

(** An Instagram reel, requested by a client without proxy headers. *)
Definition reel_request : NextRequest :=
  mkNextRequest null null (Ok [("url", str "https://www.instagram.com/reel/ABC123/")]).

(* ===================================================================== *)
(** * Properties *)
(* ===================================================================== *)

(* ===================================================================== *)
(** ** The matcher on sample inputs *)
(* ===================================================================== *)

(** The leftmost match wins, and a greedy class stops at the closing
    quote. *)
Example match_json_field :
  option_map group1
    (re_match (json_field "video_url")
       ("{" +:+ q "id" +:+ ":" +:+ q "7" +:+ "," +:+ q "video_url" +:+ ":"
            +:+ q "https://x.cdn/a.mp4" +:+ "," +:+ q "video_url" +:+ ":" +:+ q "b" +:+ "}"))
  = Some "https://x.cdn/a.mp4".
Proof. vm_compute. reflexivity. Qed.

(** The [i] flag: the share pattern accepts an upper-case kind. *)
Example match_share_id_ignores_case :
  shareId_of "https://facebook.com/share/R/XyZ9/" = str "XyZ9"
  /\ shareId_of "https://facebook.com/share/p/XyZ9/" = null.
Proof. split; vm_compute; reflexivity. Qed.

(** Lazy quantifiers and the [g] flag: each script element is matched on
    its own. *)
Example match_all_scripts :
  match_all scriptPattern "<script>a</script>x<script type=t>b</script>"
  = Some ["<script>a</script>"; "<script type=t>b</script>"].
Proof. vm_compute. reflexivity. Qed.

(** The start anchor of [validPatterns]. *)
Example valid_instagram_urls :
  map (fun u => existsb (fun p => re_test p u) validPatterns)
      [ "https://www.instagram.com/reel/ABC123/";
        "http://instagram.com/p/a-b_c";
        "see https://www.instagram.com/reel/ABC123/";
        "https://www.instagram.com/stories/abc" ]
  = [true; true; false; false].
Proof. vm_compute. reflexivity. Qed.

(** Classification of Facebook URLs. *)
Example facebook_urls :
  map (fun u => (isFacebookURL u, isFacebookShareURL u))
      [ "https://www.facebook.com/reel/123";
        "https://www.facebook.com/someone/videos/123";
        "https://fb.watch/abc/";
        "https://facebook.com/share/r/XyZ9/";
        "https://www.facebook.com/someone/posts/1" ]
  = [(true, false); (true, false); (true, false); (true, true); (false, false)].
Proof. vm_compute. reflexivity. Qed.

(** The unescaping of a captured URL. *)
Example unescape_sample :
  unescape_fb ("https:" +:+ bsl +:+ "/" +:+ bsl +:+ "/v.fb" +:+ bsl +:+ "/a.mp4?x=1"
                 +:+ bsl +:+ "u0026y=2")
  = "https://v.fb/a.mp4?x=1&y=2".
Proof. vm_compute. reflexivity. Qed.

(* ===================================================================== *)
(** ** The base-62 decoder *)
(* ===================================================================== *)

Lemma indexOf_alphabet (c : ascii) : indexOf c alphabet = digit_value c.
Proof. destruct c as [[] [] [] [] [] [] [] []]; vm_compute; reflexivity. Qed.

Lemma base62_loop_valid (s : string) : forall decimal : N,
  Forall in_alphabet (list_ascii_of_string s) ->
  base62_loop decimal s = Ok (decimal * 62 ^ N.of_nat (slen s) + base62_value s)%N.
Proof.
  induction s as [|c rest IH]; intros decimal Hall; cbn [base62_loop].
  - f_equal. cbn [slen String.length base62_value]. change (N.of_nat 0) with 0%N.
    rewrite N.pow_0_r. clear Hall. lia.
  - cbn [list_ascii_of_string] in Hall. inversion Hall as [|? ? Hc Hrest]; subst.
    rewrite indexOf_alphabet. unfold in_alphabet in Hc.
    destruct (digit_value c) as [value|] eqn:Hd; [|congruence].
    rewrite IH by assumption. f_equal.
    cbn [base62_value slen String.length]. rewrite Hd. cbn [default].
    fold (slen rest).
    replace (N.of_nat (S (slen rest))) with (N.succ (N.of_nat (slen rest))) by lia.
    rewrite N.pow_succ_r'. unfold id. ring.
Qed.

Lemma base62_loop_invalid (s : string) : forall decimal : N,
  Exists (fun c => ~ in_alphabet c) (list_ascii_of_string s) ->
  exists c, digit_value c = None /\ base62_loop decimal s = Throw (invalid_message c).
Proof.
  induction s as [|c rest IH]; intros decimal Hex; cbn [list_ascii_of_string] in Hex.
  - inversion Hex.
  - cbn [base62_loop]. rewrite indexOf_alphabet.
    destruct (digit_value c) as [value|] eqn:Hd.
    + apply IH. inversion Hex as [? ? Hc|? ? Hrest]; subst; [|assumption].
      exfalso. apply Hc. unfold in_alphabet. congruence.
    + exists c. split; [assumption | reflexivity].
Qed.

(** C3. [base62ToDecimal] decodes 0 to 0; on a string of alphabet
    characters it returns the decimal numeral of the number the string
    denotes in base 62, most significant digit first, whatever its size;
    it is a function of its argument alone, so two calls agree; and on any
    string that holds a character outside [0-9a-zA-Z] it throws the
    decoding error and returns no numeral. *)
Theorem base62ToDecimal_decodes :
  base62ToDecimal "0" = Ok "0"
  /\ (forall s, Forall in_alphabet (list_ascii_of_string s) ->
        base62ToDecimal s = Ok (string_of_N (base62_value s)))
  /\ (forall s r1 r2, base62ToDecimal s = r1 -> base62ToDecimal s = r2 -> r1 = r2)
  /\ (forall s, Exists (fun c => ~ in_alphabet c) (list_ascii_of_string s) ->
        exists c, digit_value c = None
                  /\ base62ToDecimal s = Throw (invalid_message c)).
Proof.
  split; [reflexivity|]. split; [|split].
  - intros s Hall. unfold base62ToDecimal.
    rewrite (base62_loop_valid s 0%N Hall). reflexivity.
  - intros s r1 r2 H1 H2. congruence.
  - intros s Hex. unfold base62ToDecimal.
    destruct (base62_loop_invalid s 0%N Hex) as (c & Hc & Hloop).
    exists c. rewrite Hloop. split; [assumption | reflexivity].
Qed.

(** The share identifier of the specification's example, and an
    identifier with an underscore. *)
Lemma base62ToDecimal_decodes_witness :
  base62ToDecimal "XyZ9" = Ok "14195839"
  /\ exists c, digit_value c = None
               /\ base62ToDecimal "Xy_Z9" = Throw (invalid_message c).
Proof.
  destruct base62ToDecimal_decodes as (_ & Hvalid & _ & Hinvalid).
  split.
  - rewrite (Hvalid "XyZ9").
    + reflexivity.
    + repeat constructor; unfold in_alphabet; vm_compute; discriminate.
  - apply (Hinvalid "Xy_Z9").
    do 2 apply Exists_cons_tl. apply Exists_cons_hd.
    unfold in_alphabet. vm_compute. intros H; apply H; reflexivity.
Defined.

(* ===================================================================== *)
(** ** The rate limiter *)
(* ===================================================================== *)

Lemma checkRateLimit_opens m ip t0 :
  opens_window m ip t0 ->
  checkRateLimit t0 ip m = (true, <[ip := mkRate 1 t0]> m).
Proof.
  unfold opens_window, checkRateLimit. intros H.
  destruct (m !! ip) as [record|]; [|reflexivity].
  destruct (Z.ltb_spec RATE_LIMIT_WINDOW (t0 - lastReset record)); [reflexivity | lia].
Qed.

Lemma checkRateLimit_counts m ip now c t0 :
  m !! ip = Some (mkRate c t0) ->
  (now - t0 <= RATE_LIMIT_WINDOW)%Z -> (c < RATE_LIMIT)%Z ->
  checkRateLimit now ip m = (true, <[ip := mkRate (c + 1) t0]> m).
Proof.
  unfold checkRateLimit. intros -> Hin Hc. cbn [lastReset count].
  destruct (Z.ltb_spec RATE_LIMIT_WINDOW (now - t0)); [lia|].
  destruct (Z.leb_spec RATE_LIMIT c); [lia | reflexivity].
Qed.

Lemma checkRateLimit_rejects m ip now c t0 :
  m !! ip = Some (mkRate c t0) ->
  (now - t0 <= RATE_LIMIT_WINDOW)%Z -> (RATE_LIMIT <= c)%Z ->
  checkRateLimit now ip m = (false, m).
Proof.
  unfold checkRateLimit. intros -> Hin Hc. cbn [lastReset count].
  destruct (Z.ltb_spec RATE_LIMIT_WINDOW (now - t0)); [lia|].
  destruct (Z.leb_spec RATE_LIMIT c); [reflexivity | lia].
Qed.

(** A call with another key leaves the record of [ip] alone. *)
Lemma checkRateLimit_other m ip ip' now :
  ip' <> ip -> snd (checkRateLimit now ip' m) !! ip = m !! ip.
Proof.
  intros Hne. unfold checkRateLimit.
  destruct (m !! ip') as [record|]; [|by cbn [snd]; rewrite lookup_insert_ne].
  destruct (_ <? _)%Z; [by cbn [snd]; rewrite lookup_insert_ne|].
  destruct (_ <=? _)%Z; [done | by cbn [snd]; rewrite lookup_insert_ne].
Qed.

Lemma run_checks_in_window ip t0 (rest : list (Z * string)) :
  forall (m : gmap string RateRecord) c,
    m !! ip = Some (mkRate c t0) ->
    (c + Z.of_nat (calls_of ip rest) <= RATE_LIMIT)%Z ->
    Forall (in_window ip t0) rest ->
    all_allowed ip rest (fst (run_checks rest m))
    /\ snd (run_checks rest m) !! ip = Some (mkRate (c + Z.of_nat (calls_of ip rest)) t0).
Proof.
  induction rest as [|[now ip'] rest IH]; intros m c Hm Hc Hwin.
  - cbn. split; [constructor|]. rewrite Hm. do 2 f_equal. unfold calls_of. cbn. lia.
  - inversion Hwin as [|? ? Hnow Hrest]; subst.
    cbn [run_checks].
    destruct (checkRateLimit now ip' m) as [b m1] eqn:Hcall.
    destruct (run_checks rest m1) as [bs m2] eqn:Hrun. cbn [fst snd].
    unfold calls_of in *. cbn [List.filter snd] in *.
    destruct (String.eqb_spec ip' ip) as [->|Hne].
    + cbn [List.length] in Hc.
      rewrite (checkRateLimit_counts m ip now c t0 Hm) in Hcall
        by (first [apply Hnow; reflexivity | lia]).
      injection Hcall as <- <-.
      destruct (IH (<[ip := mkRate (c + 1) t0]> m) (c + 1)%Z) as [Hall Hfin];
        [apply lookup_insert_eq | lia | assumption |].
      rewrite Hrun in Hall, Hfin. cbn [fst snd] in Hall, Hfin.
      split; [constructor; [reflexivity | assumption]|].
      rewrite Hfin. do 2 f_equal. cbn [List.length]. lia.
    + pose proof (checkRateLimit_other m ip ip' now Hne) as Hother.
      rewrite Hcall in Hother. cbn [snd] in Hother.
      destruct (IH m1 c) as [Hall Hfin]; [congruence | assumption | assumption |].
      rewrite Hrun in Hall, Hfin. cbn [fst snd] in Hall, Hfin.
      split; [constructor; [intros; contradiction | assumption] | assumption].
Qed.

(** C2. Take any client key and a call with that key that opens a window
    at [t0] (no record yet, or the previous window elapsed). Let the run go
    on with further calls, among them exactly 9 with the same key, each at
    most [RATE_LIMIT_WINDOW] after [t0], interleaved with calls of other
    clients. Then the 10 calls of the key all return true and leave the
    counter at 10; the next call of the key within the window returns false
    and changes nothing, and [POST] answers a request of that client with
    429 without issuing any request of its own; and a call of the key made
    more than [RATE_LIMIT_WINDOW] after [t0] returns true and stores a
    record with count 1 that starts at that call. *)
Theorem rate_limit_window (m : gmap string RateRecord) (ip : string) (t0 : Z)
    (rest : list (Z * string)) (t_next t_later : Z) :
  opens_window m ip t0 ->
  calls_of ip rest = 9%nat ->
  Forall (in_window ip t0) rest ->
  (t_next - t0 <= RATE_LIMIT_WINDOW)%Z ->
  (RATE_LIMIT_WINDOW < t_later - t0)%Z ->
  let (answers, m') := run_checks ((t0, ip) :: rest) m in
  all_allowed ip ((t0, ip) :: rest) answers
  /\ m' !! ip = Some (mkRate RATE_LIMIT t0)
  /\ checkRateLimit t_next ip m' = (false, m')
  /\ (forall w request tr,
        client_ip request = ip ->
        POST w t_next request m' tr
        = (failure 429 "Too many requests. Please wait a moment and try again.", m', tr))
  /\ checkRateLimit t_later ip m' = (true, <[ip := mkRate 1 t_later]> m').
Proof.
  intros Hopen Hnine Hwin Hnext Hlater.
  cbn [run_checks]. rewrite (checkRateLimit_opens m ip t0 Hopen).
  destruct (run_checks_in_window ip t0 rest (<[ip := mkRate 1 t0]> m) 1) as [Hall Hfin];
    [apply lookup_insert_eq | rewrite Hnine; unfold RATE_LIMIT; lia | assumption |].
  destruct (run_checks rest (<[ip := mkRate 1 t0]> m)) as [bs m2].
  cbn [fst snd] in Hall, Hfin. rewrite Hnine in Hfin.
  change (1 + Z.of_nat 9)%Z with RATE_LIMIT in Hfin.
  assert (checkRateLimit t_next ip m2 = (false, m2)) as Hreject.
  { apply (checkRateLimit_rejects m2 ip t_next RATE_LIMIT t0 Hfin Hnext). lia. }
  split; [constructor; [reflexivity | assumption]|].
  split; [assumption|]. split; [exact Hreject|]. split.
  - intros w request tr Hip. unfold POST. rewrite Hip, Hreject. reflexivity.
  - apply checkRateLimit_opens. unfold opens_window. rewrite Hfin. cbn. assumption.
Qed.

(** Ten calls of one client spread over a minute, with two calls of
    another client in between, then one more in the window and one a
    millisecond after it. *)
Lemma rate_limit_window_witness :
  let calls := [(1000, "a"); (2000, "b"); (3000, "a"); (4000, "a"); (5000, "a");
                (6000, "b"); (7000, "a"); (8000, "a"); (9000, "a"); (10000, "a");
                (60000, "a")]%Z in
  let (answers, m') := run_checks ((0%Z, "a") :: calls) ∅ in
  all_allowed "a" ((0%Z, "a") :: calls) answers
  /\ m' !! "a" = Some (mkRate RATE_LIMIT 0)
  /\ checkRateLimit 60000 "a" m' = (false, m')
  /\ (forall w request tr,
        client_ip request = "a" ->
        POST w 60000 request m' tr
        = (failure 429 "Too many requests. Please wait a moment and try again.", m', tr))
  /\ checkRateLimit 60001 "a" m' = (true, <[ "a" := mkRate 1 60001]> m').
Proof.
  apply (rate_limit_window ∅ "a" 0).
  - exact I.
  - reflexivity.
  - repeat constructor; unfold in_window, RATE_LIMIT_WINDOW; cbn; intros; lia.
  - unfold RATE_LIMIT_WINDOW; lia.
  - unfold RATE_LIMIT_WINDOW; lia.
Defined.

Lemma checkRateLimit_within_limit now ip m :
  within_limit m -> within_limit (snd (checkRateLimit now ip m)).
Proof.
  intros Hm ip' record'. unfold checkRateLimit.
  destruct (m !! ip) as [record|] eqn:Hrec.
  - destruct (_ <? _)%Z.
    + cbn [snd]. rewrite lookup_insert. case_decide; [|by apply Hm].
      intros [= <-]. cbn. unfold RATE_LIMIT. lia.
    + destruct (Z.leb_spec RATE_LIMIT (count record)); cbn [snd]; [by apply Hm|].
      rewrite lookup_insert. case_decide; [|by apply Hm].
      intros [= <-]. cbn. specialize (Hm ip record Hrec). lia.
  - cbn [snd]. rewrite lookup_insert. case_decide; [|by apply Hm].
    intros [= <-]. cbn. unfold RATE_LIMIT. lia.
Qed.

Lemma run_checks_within_limit calls : forall m,
  within_limit m -> within_limit (snd (run_checks calls m)).
Proof.
  induction calls as [|[now ip] calls IH]; intros m Hm; [assumption|].
  cbn [run_checks].
  pose proof (checkRateLimit_within_limit now ip m Hm) as H1.
  destruct (checkRateLimit now ip m) as [b m1]. cbn [snd] in H1.
  specialize (IH m1 H1). destruct (run_checks calls m1) as [bs m2]. assumption.
Qed.

(** C9. Starting from the empty map of a fresh process, after any run of
    [checkRateLimit] calls the counter of every stored record is at most
    [RATE_LIMIT] (and at least 1); and a call that returns false leaves the
    whole map, hence the record of its key, as it was. *)
Theorem rate_limit_invariant :
  (forall calls ip record,
      snd (run_checks calls ∅) !! ip = Some record ->
      (1 <= count record <= RATE_LIMIT)%Z)
  /\ (forall now ip (m : gmap string RateRecord),
        fst (checkRateLimit now ip m) = false ->
        snd (checkRateLimit now ip m) = m
        /\ snd (checkRateLimit now ip m) !! ip = m !! ip).
Proof.
  split.
  - intros calls. apply (run_checks_within_limit calls ∅).
    intros ip record H. rewrite lookup_empty in H. discriminate.
  - intros now ip m Hfalse.
    assert (snd (checkRateLimit now ip m) = m) as Hsame.
    { revert Hfalse. unfold checkRateLimit.
      destruct (m !! ip) as [record|]; [|discriminate].
      destruct (_ <? _)%Z; [discriminate|].
      destruct (_ <=? _)%Z; [reflexivity | discriminate]. }
    split; [exact Hsame | rewrite Hsame; reflexivity].
Qed.

(** Eleven calls of one client within a second: the eleventh is refused
    and the record still reads 10. *)
Lemma rate_limit_invariant_witness :
  let calls := map (fun t => (t, "a")) [0; 1; 2; 3; 4; 5; 6; 7; 8; 9]%Z in
  (1 <= count (mkRate 10 0) <= RATE_LIMIT)%Z
  /\ snd (checkRateLimit 10 "a" (snd (run_checks calls ∅))) = snd (run_checks calls ∅).
Proof.
  destruct rate_limit_invariant as [Hbound Hreject].
  split.
  - apply (Hbound (map (fun t => (t, "a")) [0; 1; 2; 3; 4; 5; 6; 7; 8; 9]%Z
                     ++ [(10%Z, "a")]) "a").
    vm_compute. reflexivity.
  - apply Hreject. vm_compute. reflexivity.
Defined.

(* ===================================================================== *)
(** ** The duration field *)
(* ===================================================================== *)






(* ===================================================================== *)
(** ** Reasoning about asynchronous computations *)
(* ===================================================================== *)

Lemma bind_ok {A B} (m : M A) (f : A -> M B) tr a tr' :
  m tr = (Ok a, tr') -> bind m f tr = f a tr'.
Proof. unfold bind. intros ->. reflexivity. Qed.

Lemma bind_inv {A B} (m : M A) (f : A -> M B) tr b tr2 :
  bind m f tr = (Ok b, tr2) ->
  exists a tr1, m tr = (Ok a, tr1) /\ f a tr1 = (Ok b, tr2).
Proof.
  unfold bind. destruct (m tr) as [[a|e] tr1]; [eauto | discriminate].
Qed.

(** A [try] whose handler returns does not throw. *)
Lemma try_catch_never_throws {A} (body : M A) (a0 : A) :
  never_throws (try_catch body (fun _ => ret a0)).
Proof.
  intros tr. unfold try_catch, ret.
  destruct (body tr) as [[a|e] tr']; eauto.
Qed.

(** Case analysis on every test of a computation that is known to have
    returned. *)
Ltac innermost_case H :=
  match type of H with
  | context [match ?x with _ => _ end] =>
      lazymatch x with
      | context [match _ with _ => _ end] => fail
      | _ => destruct x eqn:?
      end
  end.

Ltac run_cases H :=
  unfold try_catch, bind, fetch, lift, ret, throw in H;
  repeat innermost_case H;
  try discriminate H.

(* ===================================================================== *)
(** ** Quality tagging of the Facebook strategies *)
(* ===================================================================== *)

Lemma first_match_some (ps : list pattern) (html : string) :
  matches_some ps html <-> first_match ps html <> None.
Proof.
  unfold matches_some. induction ps as [|p ps IH]; cbn [first_match].
  - split; [intros (p & [] & _) | congruence].
  - destruct (re_match p html) as [m|] eqn:Hp.
    + split; [discriminate|]. intros _. exists p. split; [left; reflexivity | congruence].
    + rewrite <- IH. split.
      * intros (p' & [<-|Hin] & Hm); [congruence | eauto].
      * intros (p' & Hin & Hm). exists p'. split; [right; assumption | assumption].
Qed.

Ltac tiered_cases hd sd :=
  intros html; rewrite !first_match_some;
  destruct (first_match hd html) as [m|] eqn:Hhd;
  [| destruct (first_match sd html) as [m|] eqn:Hsd ];
  (split; [|split]); intros;
  try match goal with
      | H : ~ (Some _ <> None) |- _ => exfalso; apply H; discriminate
      end;
  try congruence; eauto 10.

Lemma parse_FacebookAPI_tiered :
  tiered parse_FacebookAPI api_hdPatterns api_sdPatterns unescape_fb.
Proof.
  unfold tiered, parse_FacebookAPI. tiered_cases api_hdPatterns api_sdPatterns.
Qed.

Lemma parse_SnapSave_tiered :
  tiered parse_SnapSave snap_hdPatterns snap_fallbackPatterns snap_url.
Proof.
  unfold tiered, parse_SnapSave. tiered_cases snap_hdPatterns snap_fallbackPatterns.
Qed.

Lemma parse_FacebookDirect_tiered :
  tiered parse_FacebookDirect direct_hdPatterns direct_fallbackPatterns
    (fun s => amp (unescape_fb s)).
Proof.
  unfold tiered, parse_FacebookDirect.
  tiered_cases direct_hdPatterns direct_fallbackPatterns.
Qed.

Lemma fetchViaCobalAPI_HD w url tr r tr' :
  fetchViaCobalAPI w url tr = (Ok (Some r), tr') -> quality r = HD.
Proof.
  unfold fetchViaCobalAPI. intros H. run_cases H; simplify_eq; reflexivity.
Qed.

Ltac runs_parser_cases :=
  let w := fresh "w" in
  let url := fresh "url" in
  let tr := fresh "tr" in
  let e := fresh "e" in
  let response := fresh "response" in
  intros w url tr; unfold try_catch, bind, fetch, lift, ret;
  match goal with
  | |- context [net w ?n ?req] => destruct (net w n req) as [e|response]
  end; [reflexivity|];
  destruct (resp_ok response); [|reflexivity];
  destruct (resp_text response); reflexivity.

Lemma fetchViaFacebookAPI_runs_parser :
  runs_parser fetchViaFacebookAPI plugin_request parse_FacebookAPI.
Proof. unfold runs_parser, fetchViaFacebookAPI. runs_parser_cases. Qed.

Lemma fetchViaSnapSave_runs_parser :
  runs_parser fetchViaSnapSave snapsave_request parse_SnapSave.
Proof. unfold runs_parser, fetchViaSnapSave. runs_parser_cases. Qed.

Lemma fetchViaFacebookDirect_runs_parser :
  runs_parser fetchViaFacebookDirect mobile_request parse_FacebookDirect.
Proof. unfold runs_parser, fetchViaFacebookDirect. runs_parser_cases. Qed.

(** C7. The three Facebook strategies that parse markup -- the embed
    player, the mirror site and the mobile page -- hand the page they fetch
    to a parser that tries its HD patterns first: a match there gives the
    result, tagged HD; only when no HD pattern matches are the fallback
    patterns tried, and a match there is tagged SD. Every result of the
    Cobalt strategy is tagged HD. *)
Theorem facebook_quality_tagging :
  (runs_parser fetchViaFacebookAPI plugin_request parse_FacebookAPI
   /\ tiered parse_FacebookAPI api_hdPatterns api_sdPatterns unescape_fb)
  /\ (runs_parser fetchViaSnapSave snapsave_request parse_SnapSave
      /\ tiered parse_SnapSave snap_hdPatterns snap_fallbackPatterns snap_url)
  /\ (runs_parser fetchViaFacebookDirect mobile_request parse_FacebookDirect
      /\ tiered parse_FacebookDirect direct_hdPatterns direct_fallbackPatterns
           (fun s => amp (unescape_fb s)))
  /\ (forall w url tr r tr',
        fetchViaCobalAPI w url tr = (Ok (Some r), tr') -> quality r = HD).
Proof.
  split; [split; [exact fetchViaFacebookAPI_runs_parser | exact parse_FacebookAPI_tiered]|].
  split; [split; [exact fetchViaSnapSave_runs_parser | exact parse_SnapSave_tiered]|].
  split; [split; [exact fetchViaFacebookDirect_runs_parser
                 | exact parse_FacebookDirect_tiered]|].
  exact fetchViaCobalAPI_HD.
Qed.

Lemma facebook_quality_tagging_witness :
  exists r tr,
    fetchViaFacebookAPI plugin_world "https://www.facebook.com/reel/123" []
    = (Ok (Some r), tr)
    /\ video_url r = str "https://v.fb/hd.mp4" /\ quality r = HD.
Proof.
  destruct facebook_quality_tagging as ((Hruns & Htier) & _).
  destruct (Htier sample_fb_markup) as (Hhd & _).
  destruct Hhd as (m & r & Hm & Hparse & Hurl & Hq).
  - exists (json_field "hd_src"). split.
    + right. right. left. reflexivity.
    + vm_compute. discriminate.
  - exists r. eexists. split; [|split; [|exact Hq]].
    + rewrite Hruns. cbn [plugin_world net resp_ok resp_text]. rewrite Hparse.
      reflexivity.
    + rewrite Hurl. vm_compute in Hm. injection Hm as <-. vm_compute. reflexivity.
Defined.

(* ===================================================================== *)
(** ** Quality tagging on the Instagram path *)
(* ===================================================================== *)

Lemma extractVideoFromHTML_HD html r :
  extractVideoFromHTML html = Some r -> quality r = HD.
Proof.
  unfold extractVideoFromHTML. intros H.
  repeat innermost_case H; simplify_eq; reflexivity.
Qed.

Lemma extractVideoFromJSON_HD data r :
  extractVideoFromJSON data = Some r -> quality r = HD.
Proof.
  unfold extractVideoFromJSON. intros H.
  repeat innermost_case H; simplify_eq; reflexivity.
Qed.

Lemma parse_InstagramAPI_HD html r :
  parse_InstagramAPI html = Some r -> quality r = HD.
Proof.
  unfold parse_InstagramAPI. intros H.
  destruct (first_match embed_videoPatterns html); simplify_eq; reflexivity.
Qed.

Lemma parse_AlternativeService_HD html r :
  parse_AlternativeService html = Some r -> quality r = HD.
Proof.
  unfold parse_AlternativeService. intros H.
  destruct (first_match alt_videoPatterns html); simplify_eq; reflexivity.
Qed.

Section InstagramQuality.
Variable w : World.

Lemma fetchViaBackend_HD url tr r tr' :
  fetchViaBackend w url tr = (Ok (Some r), tr') -> quality r = HD.
Proof.
  intros H. unfold fetchViaBackend in H.
  run_cases H; simplify_eq; reflexivity.
Qed.

Lemma fetchViaInstagramAPI_HD shortcode tr r tr' :
  fetchViaInstagramAPI w shortcode tr = (Ok (Some r), tr') -> quality r = HD.
Proof.
  intros H. unfold fetchViaInstagramAPI in H.
  run_cases H; simplify_eq; eauto using parse_InstagramAPI_HD.
Qed.

Lemma fetchViaAlternativeService_HD url tr r tr' :
  fetchViaAlternativeService w url tr = (Ok (Some r), tr') -> quality r = HD.
Proof.
  intros H. unfold fetchViaAlternativeService in H.
  run_cases H; simplify_eq; eauto using parse_AlternativeService_HD.
Qed.

Lemma tryFetchWithUserAgent_HD url userAgent tr r tr' :
  tryFetchWithUserAgent w url userAgent tr = (Ok (Some r), tr') -> quality r = HD.
Proof.
  intros H. unfold tryFetchWithUserAgent in H.
  run_cases H; simplify_eq; eauto using extractVideoFromHTML_HD.
Qed.

Lemma tryEmbedApproach_HD shortcode tr r tr' :
  tryEmbedApproach w shortcode tr = (Ok (Some r), tr') -> quality r = HD.
Proof.
  intros H. unfold tryEmbedApproach in H.
  run_cases H; simplify_eq; eauto using extractVideoFromHTML_HD.
Qed.

Lemma try_user_agents_HD url agents tr r tr' :
  try_user_agents w url agents tr = (Ok (Some r), tr') -> quality r = HD.
Proof.
  revert tr r tr'.
  induction agents as [|userAgent rest IH]; intros tr r tr' H; cbn [try_user_agents] in H.
  - discriminate H.
  - apply bind_inv in H as (won & tr1 & Hwon & Hrest).
    destruct won as [result|]; [|exact (IH _ _ _ Hrest)].
    injection Hrest as -> ->.
    run_cases Hwon; simplify_eq. eauto using tryFetchWithUserAgent_HD.
Qed.

Lemma fetchViaPageScrape_HD url tr r tr' :
  fetchViaPageScrape w url tr = (Ok (Some r), tr') -> quality r = HD.
Proof.
  intros H. unfold fetchViaPageScrape in H.
  run_cases H; simplify_eq;
    eauto using try_user_agents_HD, tryEmbedApproach_HD.
Qed.

Lemma fetchViaOEmbed_HD_or_no_video url tr r tr' :
  fetchViaOEmbed w url tr = (Ok (Some r), tr') -> HD_or_no_video r.
Proof.
  unfold fetchViaOEmbed, html_of. intros H.
  run_cases H; simplify_eq;
    try (left; reflexivity);
    try (right; split; reflexivity);
    left; eauto using fetchViaAlternativeService_HD.
Qed.

(** The loop over the approaches returns a result of one of them, and
    one that has a video URL. *)
Lemma try_approaches_HD approaches :
  Forall (fun approach => forall tr r tr',
              approach tr = (Ok (Some r), tr') -> HD_or_no_video r) approaches ->
  always_HD (try_approaches approaches).
Proof.
  induction 1 as [|approach rest Happroach _ IH]; intros tr r tr' H;
    cbn [try_approaches] in H.
  - discriminate H.
  - apply bind_inv in H as (won & tr1 & Hwon & Hrest).
    destruct won as [result|]; [|exact (IH _ _ _ Hrest)].
    injection Hrest as -> ->.
    run_cases Hwon; simplify_eq.
    match goal with
    | Hv : has_video (Some ?r) = true, Ha : approach _ = _ |- _ =>
        destruct (Happroach _ _ _ Ha) as [Hq|[Hu _]]; [exact Hq|];
        cbn [has_video] in Hv; rewrite Hu in Hv; discriminate Hv
    end.
Qed.

Lemma fetchInstagramData_HD url tr r tr' :
  fetchInstagramData w url tr = (Ok r, tr') -> quality r = HD.
Proof.
  unfold fetchInstagramData. intros H.
  apply bind_inv in H as (from_backend & tr1 & Hbackend & H).
  destruct from_backend as [result|].
  - injection H as -> ->. exact (fetchViaBackend_HD _ _ _ _ Hbackend).
  - destruct (negb (truthy (extractShortcode url))); [discriminate H|].
    apply bind_inv in H as (found & tr2 & Hfound & H).
    destruct found as [result|]; [|discriminate H].
    injection H as -> ->.
    revert Hfound. apply try_approaches_HD. unfold instagram_approaches.
    constructor; [|constructor; [|constructor; [|constructor]]];
      intros tr0 r0 tr0' H0.
    + left. exact (fetchViaInstagramAPI_HD _ _ _ _ H0).
    + left. exact (fetchViaPageScrape_HD _ _ _ _ H0).
    + exact (fetchViaOEmbed_HD_or_no_video _ _ _ _ H0).
Qed.
End InstagramQuality.

(** C10. Whatever [fetchInstagramData] returns is tagged HD. So is every
    result of the backend attempt, of the embed endpoint strategy, of the
    page scrape and of the two extractors of markup and of JSON. The
    oEmbed strategy returns either a result tagged HD or a thumbnail-only
    object without a video URL and without a tag, which the orchestrator
    passes over. No strategy yields SD or Unknown. *)
Theorem instagram_quality_always_HD :
  (forall w url tr r tr',
      fetchInstagramData w url tr = (Ok r, tr') -> quality r = HD)
  /\ (forall w url, always_HD (fetchViaBackend w url))
  /\ (forall w shortcode, always_HD (fetchViaInstagramAPI w shortcode))
  /\ (forall w url, always_HD (fetchViaPageScrape w url))
  /\ (forall w url tr r tr',
        fetchViaOEmbed w url tr = (Ok (Some r), tr') ->
        (truthy (video_url r) = true -> quality r = HD)
        /\ quality r <> SD /\ quality r <> str "Unknown")
  /\ (forall html r, extractVideoFromHTML html = Some r -> quality r = HD)
  /\ (forall data r, extractVideoFromJSON data = Some r -> quality r = HD).
Proof.
  split; [exact fetchInstagramData_HD|].
  split; [exact fetchViaBackend_HD|].
  split; [exact fetchViaInstagramAPI_HD|].
  split; [exact fetchViaPageScrape_HD|].
  split; [|split; [exact extractVideoFromHTML_HD | exact extractVideoFromJSON_HD]].
  intros w url tr r tr' H.
  destruct (fetchViaOEmbed_HD_or_no_video w url tr r tr' H) as [Hq|[Hu Hq]].
  - rewrite Hq. repeat split; [discriminate | discriminate].
  - rewrite Hu, Hq. repeat split; discriminate.
Qed.

Lemma instagram_quality_always_HD_witness :
  match fetchInstagramData embed_world "https://www.instagram.com/reel/ABC123/" [] with
  | (Ok r, _) => video_url r = str "https://x.cdn/video.mp4" /\ quality r = HD
  | (Throw _, _) => False
  end.
Proof.
  destruct (fetchInstagramData embed_world "https://www.instagram.com/reel/ABC123/" [])
    as [[r|e] tr'] eqn:E.
  - split.
    + vm_compute in E. injection E as <- _. reflexivity.
    + exact (proj1 instagram_quality_always_HD _ _ _ _ _ E).
  - vm_compute in E. discriminate E.
Defined.

(* ===================================================================== *)
(** ** The strategy chains *)
(* ===================================================================== *)

Section Chains.
Variable w : World.

(** The thumbnail probe: one request, to the URL given, and no
    exception. *)
Lemma extractFacebookThumbnail_once url tr :
  exists t, extractFacebookThumbnail w url tr = (Ok t, tr ++ [thumbnail_probe url]).
Proof.
  unfold extractFacebookThumbnail, try_catch, bind, fetch, lift, ret.
  destruct (net w (List.length tr) (thumbnail_probe url)) as [e|response]; [eauto|].
  destruct (negb (resp_ok response)); [eauto|].
  destruct (resp_text response); eauto.
Qed.

Lemma backfill_thumbnail_present originalUrl r tr :
  truthy (thumbnail r) = true ->
  backfill_thumbnail w originalUrl r tr = (Ok r, tr).
Proof. unfold backfill_thumbnail. intros ->. reflexivity. Qed.

Lemma backfill_thumbnail_missing originalUrl r tr t tr' :
  truthy (thumbnail r) = false ->
  extractFacebookThumbnail w originalUrl tr = (Ok t, tr') ->
  backfill_thumbnail w originalUrl r tr
  = (Ok (if truthy t then set_thumbnail r t else r), tr').
Proof.
  unfold backfill_thumbnail. intros -> Ht. cbn [negb].
  rewrite (bind_ok _ _ _ _ _ Ht). destruct (truthy t); reflexivity.
Qed.

(** The backfill returns, and returns the result it was given, up to
    the thumbnail. *)
Lemma backfill_thumbnail_returns originalUrl r tr :
  exists r' tr',
    backfill_thumbnail w originalUrl r tr = (Ok r', tr')
    /\ video_url r' = video_url r /\ quality r' = quality r
    /\ duration r' = duration r /\ method r' = method r
    /\ (truthy (thumbnail r) = true -> r' = r /\ tr' = tr).
Proof.
  destruct (truthy (thumbnail r)) eqn:Hth.
  - exists r, tr. rewrite backfill_thumbnail_present by assumption. auto 10.
  - destruct (extractFacebookThumbnail_once originalUrl tr) as [t Ht].
    eexists _, _. rewrite (backfill_thumbnail_missing _ _ _ _ _ Hth Ht).
    split; [reflexivity|]. destruct (truthy t); cbn; auto 10; repeat split; discriminate.
Qed.

(** *** The Facebook loop *)

Lemma attempt_method_advances originalUrl method tr tr1 :
  advances method tr tr1 ->
  attempt_method w originalUrl method tr = (Ok None, tr1).
Proof.
  unfold attempt_method, try_catch, bind, ret.
  intros [[e ->]|[->|(r & -> & ->)]]; reflexivity.
Qed.

Lemma attempt_method_wins originalUrl method tr r tr1 r' tr2 :
  wins method tr r tr1 ->
  backfill_thumbnail w originalUrl r tr1 = (Ok r', tr2) ->
  attempt_method w originalUrl method tr = (Ok (Some r'), tr2).
Proof.
  unfold attempt_method, try_catch, bind, ret.
  intros [-> ->] ->. reflexivity.
Qed.

Lemma try_methods_advance originalUrl method rest tr tr1 :
  advances method tr tr1 ->
  try_methods w originalUrl (method :: rest) tr = try_methods w originalUrl rest tr1.
Proof.
  intros Hadv. cbn [try_methods].
  rewrite (bind_ok _ _ _ _ _ (attempt_method_advances originalUrl _ _ _ Hadv)).
  reflexivity.
Qed.

Lemma try_methods_all_advance originalUrl before rest tr tr1 :
  all_advance before tr tr1 ->
  try_methods w originalUrl (before ++ rest) tr = try_methods w originalUrl rest tr1.
Proof.
  induction 1 as [|method before tr tr1 tr2 Hadv _ IH]; [reflexivity|].
  cbn [app]. rewrite (try_methods_advance _ _ _ _ _ Hadv). exact IH.
Qed.

Lemma try_methods_short_circuit originalUrl before method after tr tr1 r tr2 r' tr3 :
  all_advance before tr tr1 ->
  wins method tr1 r tr2 ->
  backfill_thumbnail w originalUrl r tr2 = (Ok r', tr3) ->
  try_methods w originalUrl (before ++ method :: after) tr = (Ok (Some r'), tr3).
Proof.
  intros Hbefore Hwins Hfill.
  rewrite (try_methods_all_advance _ _ _ _ _ Hbefore). cbn [try_methods].
  rewrite (bind_ok _ _ _ _ _ (attempt_method_wins _ _ _ _ _ _ _ Hwins Hfill)).
  reflexivity.
Qed.

Lemma try_methods_exhausted originalUrl methods tr tr1 :
  all_advance methods tr tr1 ->
  try_methods w originalUrl methods tr = (Ok None, tr1).
Proof.
  intros H. rewrite <- (app_nil_r methods).
  rewrite (try_methods_all_advance _ _ _ _ _ H). reflexivity.
Qed.

(** *** The Instagram loop *)

Lemma try_approaches_advance approach rest tr tr1 :
  advances approach tr tr1 ->
  try_approaches (approach :: rest) tr = try_approaches rest tr1.
Proof.
  cbn [try_approaches]. unfold try_catch, bind, ret, has_video.
  intros [[e ->]|[->|(r & -> & ->)]]; reflexivity.
Qed.

Lemma try_approaches_all_advance before rest tr tr1 :
  all_advance before tr tr1 ->
  try_approaches (before ++ rest) tr = try_approaches rest tr1.
Proof.
  induction 1 as [|approach before tr tr1 tr2 Hadv _ IH]; [reflexivity|].
  cbn [app]. rewrite (try_approaches_advance _ _ _ _ Hadv). exact IH.
Qed.

Lemma try_approaches_short_circuit before approach after tr tr1 r tr2 :
  all_advance before tr tr1 ->
  wins approach tr1 r tr2 ->
  try_approaches (before ++ approach :: after) tr = (Ok (Some r), tr2).
Proof.
  intros Hbefore [Hret Hvideo].
  rewrite (try_approaches_all_advance _ _ _ _ Hbefore). cbn [try_approaches].
  unfold try_catch, bind, ret, has_video. rewrite Hret, Hvideo. reflexivity.
Qed.
End Chains.

(** C4. In both orchestrators the strategies run in list order. While
    strategies throw, return null or return an object without a video URL,
    the loop goes on to the next one. The first strategy that returns an
    object with a video URL ends the loop: the orchestrator returns that
    object (the Facebook one after the thumbnail backfill, which changes
    nothing but the thumbnail, and nothing at all when a thumbnail is
    present), and the request log is the one that strategy left, so no
    later strategy of the list has run, whatever the list holds after the
    winner. This holds of the two loops for any list of strategies, and of
    the orchestrators with their own lists: both passes of
    [fetchFacebookVideo], and the approaches of [fetchInstagramData], which
    are not tried at all when the backend has answered. *)
Theorem strategy_chain_short_circuit (w : World) :
  (forall originalUrl method rest tr tr1,
      advances method tr tr1 ->
      try_methods w originalUrl (method :: rest) tr
      = try_methods w originalUrl rest tr1)
  /\ (forall approach rest tr tr1,
        advances approach tr tr1 ->
        try_approaches (approach :: rest) tr = try_approaches rest tr1)
  /\ (forall originalUrl before method after tr tr1 r tr2,
        all_advance before tr tr1 ->
        wins method tr1 r tr2 ->
        exists r' tr3,
          backfilled w originalUrl r tr2 r' tr3
          /\ try_methods w originalUrl (before ++ method :: after) tr
             = (Ok (Some r'), tr3))
  /\ (forall before approach after tr tr1 r tr2,
        all_advance before tr tr1 ->
        wins approach tr1 r tr2 ->
        try_approaches (before ++ approach :: after) tr = (Ok (Some r), tr2))
  /\ (forall url tr resolvedUrl tr0 before method after tr1 r tr2,
        resolve_if_share w url tr = (Ok resolvedUrl, tr0) ->
        facebook_methods w resolvedUrl = before ++ method :: after ->
        all_advance before tr0 tr1 ->
        wins method tr1 r tr2 ->
        exists r' tr3,
          backfilled w url r tr2 r' tr3
          /\ fetchFacebookVideo w url tr = (Ok r', tr3))
  /\ (forall url tr resolvedUrl tr0 tr1 before method after tr2 r tr3,
        resolve_if_share w url tr = (Ok resolvedUrl, tr0) ->
        all_advance (facebook_methods w resolvedUrl) tr0 tr1 ->
        isFacebookShareURL url = true ->
        url <> resolvedUrl ->
        fallback_methods w url = before ++ method :: after ->
        all_advance before tr1 tr2 ->
        wins method tr2 r tr3 ->
        exists r' tr4,
          backfilled w url r tr3 r' tr4
          /\ fetchFacebookVideo w url tr = (Ok r', tr4))
  /\ (forall url tr tr0 before approach after tr1 r tr2,
        fetchViaBackend w url tr = (Ok None, tr0) ->
        truthy (extractShortcode url) = true ->
        instagram_approaches w (to_string (extractShortcode url)) url
        = before ++ approach :: after ->
        all_advance before tr0 tr1 ->
        wins approach tr1 r tr2 ->
        fetchInstagramData w url tr = (Ok r, tr2))
  /\ (forall url tr r tr',
        fetchViaBackend w url tr = (Ok (Some r), tr') ->
        fetchInstagramData w url tr = (Ok r, tr')).
Proof.
  assert (forall originalUrl before method after tr tr1 r tr2,
             all_advance before tr tr1 ->
             wins method tr1 r tr2 ->
             exists r' tr3,
               backfilled w originalUrl r tr2 r' tr3
               /\ try_methods w originalUrl (before ++ method :: after) tr
                  = (Ok (Some r'), tr3)) as Hloop.
  { intros originalUrl before method after tr tr1 r tr2 Hbefore Hwins.
    destruct (backfill_thumbnail_returns w originalUrl r tr2)
      as (r' & tr3 & Hfill & Hrest).
    exists r', tr3. split; [split; assumption|].
    exact (try_methods_short_circuit w originalUrl _ _ after _ _ _ _ _ _
             Hbefore Hwins Hfill). }
  split; [intros; apply try_methods_advance; assumption|].
  split; [intros; apply try_approaches_advance; assumption|].
  split; [exact Hloop|].
  split; [intros; eapply try_approaches_short_circuit; eassumption|].
  split; [|split; [|split]].
  - intros url tr resolvedUrl tr0 before method after tr1 r tr2
           Hresolve Hlist Hbefore Hwins.
    destruct (Hloop url before method after tr0 tr1 r tr2 Hbefore Hwins)
      as (r' & tr3 & Hfilled & Hrun).
    exists r', tr3. split; [assumption|].
    unfold fetchFacebookVideo.
    rewrite (bind_ok _ _ _ _ _ Hresolve), Hlist, (bind_ok _ _ _ _ _ Hrun).
    reflexivity.
  - intros url tr resolvedUrl tr0 tr1 before method after tr2 r tr3
           Hresolve Hfirst Hshare Hne Hlist Hbefore Hwins.
    destruct (Hloop url before method after tr1 tr2 r tr3 Hbefore Hwins)
      as (r' & tr4 & Hfilled & Hrun).
    exists r', tr4. split; [assumption|].
    unfold fetchFacebookVideo.
    rewrite (bind_ok _ _ _ _ _ Hresolve).
    rewrite (bind_ok _ _ _ _ _ (try_methods_exhausted w url _ _ _ Hfirst)).
    rewrite Hshare. apply String.eqb_neq in Hne. rewrite Hne. cbn [negb andb].
    rewrite Hlist, (bind_ok _ _ _ _ _ Hrun). reflexivity.
  - intros url tr tr0 before approach after tr1 r tr2 Hbackend Hcode Hlist Hbefore Hwins.
    unfold fetchInstagramData.
    rewrite (bind_ok _ _ _ _ _ Hbackend), Hcode. cbn [negb]. rewrite Hlist.
    rewrite (bind_ok _ _ _ _ _
               (try_approaches_short_circuit _ _ after _ _ _ _ Hbefore Hwins)).
    reflexivity.
  - intros url tr r tr' Hbackend. unfold fetchInstagramData.
    rewrite (bind_ok _ _ _ _ _ Hbackend). reflexivity.
Qed.

Lemma strategy_chain_short_circuit_witness :
  exists tr,
    fetchFacebookVideo cobalt_world "https://www.facebook.com/reel/123" []
    = (Ok cobalt_result, tr)
    /\ map r_url tr
       = [ "https://www.facebook.com/plugins/video.php?href="
             +:+ encodeURIComponent "https://www.facebook.com/reel/123";
           COBALT_API ].
Proof.
  destruct (strategy_chain_short_circuit cobalt_world) as (_ & _ & _ & _ & Hfb & _).
  set (url := "https://www.facebook.com/reel/123").
  destruct (Hfb url [] url []
              [fetchViaFacebookAPI cobalt_world url]
              (fetchViaCobalAPI cobalt_world url)
              [fetchViaFacebookDirect cobalt_world url; fetchViaSnapSave cobalt_world url]
              (snd (fetchViaFacebookAPI cobalt_world url []))
              cobalt_result
              (snd (fetchViaCobalAPI cobalt_world url
                      (snd (fetchViaFacebookAPI cobalt_world url [])))))
    as (r' & tr3 & (_ & _ & _ & _ & _ & Hsame) & Hfetch).
  - vm_compute. reflexivity.
  - reflexivity.
  - econstructor; [|constructor]. right. left. vm_compute. reflexivity.
  - split; vm_compute; reflexivity.
  - destruct Hsame as [-> ->]; [vm_compute; reflexivity|].
    eexists. split; [exact Hfetch|]. vm_compute. reflexivity.
Defined.



(* ===================================================================== *)
(** ** The share-link resolver does not throw *)
(* ===================================================================== *)

Section ResolverTotal.
Variable w : World.

Lemma ret_never_throws {A} (a : A) : never_throws (ret a).
Proof. intros tr. unfold ret. eauto. Qed.

Lemma or_else_next_never_throws strategy next :
  never_throws strategy -> never_throws next ->
  never_throws (or_else_next strategy next).
Proof.
  intros Hs Hn tr. unfold or_else_next, bind.
  destruct (Hs tr) as (found & tr1 & ->).
  destruct found as [u|]; [unfold ret; eauto | apply Hn].
Qed.

Lemma or_else_next_none strategy next tr tr1 :
  strategy tr = (Ok None, tr1) -> or_else_next strategy next tr = next tr1.
Proof. unfold or_else_next, bind. intros ->. reflexivity. Qed.

Lemma share_strategy1_never_throws url : never_throws (share_strategy1 w url).
Proof. apply try_catch_never_throws. Qed.

Lemma share_strategy2_never_throws shareId : never_throws (share_strategy2 w shareId).
Proof.
  unfold share_strategy2.
  destruct (truthy shareId); [apply try_catch_never_throws | apply ret_never_throws].
Qed.

Lemma share_strategy3_never_throws url : never_throws (share_strategy3 w url).
Proof. apply try_catch_never_throws. Qed.

Lemma share_strategy4_never_throws url : never_throws (share_strategy4 w url).
Proof.
  unfold share_strategy4.
  destruct (truthy (BACKEND_URL w)); [apply try_catch_never_throws | apply ret_never_throws].
Qed.

Lemma resolveFacebookShareURL_Improved_never_throws url :
  never_throws (resolveFacebookShareURL_Improved w url).
Proof.
  unfold resolveFacebookShareURL_Improved.
  repeat apply or_else_next_never_throws;
    auto using share_strategy1_never_throws, share_strategy2_never_throws,
               share_strategy3_never_throws, share_strategy4_never_throws,
               ret_never_throws.
Qed.

Lemma resolver_gives_up url tr tr1 tr2 tr3 tr4 :
  share_strategy1 w url tr = (Ok None, tr1) ->
  share_strategy2 w (shareId_of url) tr1 = (Ok None, tr2) ->
  share_strategy3 w url tr2 = (Ok None, tr3) ->
  share_strategy4 w url tr3 = (Ok None, tr4) ->
  resolveFacebookShareURL_Improved w url tr = (Ok url, tr4).
Proof.
  intros H1 H2 H3 H4. unfold resolveFacebookShareURL_Improved.
  rewrite (or_else_next_none _ _ _ _ H1), (or_else_next_none _ _ _ _ H2),
          (or_else_next_none _ _ _ _ H3), (or_else_next_none _ _ _ _ H4).
  reflexivity.
Qed.

(** A decoding error makes strategy 2 yield nothing, before any
    request is sent. *)
Lemma share_strategy2_decoding_error shareId e tr :
  truthy (str shareId) = true ->
  base62ToDecimal shareId = Throw e ->
  share_strategy2 w (str shareId) tr = (Ok None, tr).
Proof.
  intros Ht He. unfold share_strategy2. rewrite Ht.
  unfold try_catch, bind, lift, ret. cbn [to_string]. rewrite He. reflexivity.
Qed.

(** A probe that fails, is answered with an error status, or is
    answered with a body that is not JSON makes strategy 1 yield nothing. *)
Lemma share_strategy1_failure url tr :
  match net w (List.length tr) (cobalt_probe url) with
  | NetError _ => True
  | Responded r => resp_ok r = false \/ exists e, resp_json r = Throw e
  end ->
  share_strategy1 w url tr = (Ok None, tr ++ [cobalt_probe url]).
Proof.
  unfold share_strategy1, try_catch, bind, fetch, lift, ret.
  destruct (net w (List.length tr) (cobalt_probe url)) as [e|r]; [reflexivity|].
  intros [->|[e He]]; [reflexivity|].
  destruct (resp_ok r); [rewrite He|]; reflexivity.
Qed.

Lemma resolver_unreachable url tr :
  unreachable w ->
  exists tr', resolveFacebookShareURL_Improved w url tr = (Ok url, tr').
Proof.
  intros Hdown.
  assert (forall tr, exists tr1, share_strategy1 w url tr = (Ok None, tr1)) as H1.
  { intros tr0. unfold share_strategy1, try_catch, bind, fetch, ret.
    destruct (Hdown (List.length tr0) (cobalt_probe url)) as [e ->]. eauto. }
  assert (forall tr, exists tr1, share_strategy2 w (shareId_of url) tr = (Ok None, tr1)) as H2.
  { intros tr0. unfold share_strategy2, try_catch, bind, fetch, lift, ret.
    destruct (truthy (shareId_of url)); [|eauto].
    destruct (base62ToDecimal (to_string (shareId_of url))) as [decimalId|e]; [|eauto].
    match goal with
    | |- context [net w ?n ?req] => destruct (Hdown n req) as [e ->]
    end. eauto. }
  assert (forall tr, exists tr1, share_strategy3 w url tr = (Ok None, tr1)) as H3.
  { intros tr0. unfold share_strategy3, try_catch, bind, fetch, ret.
    match goal with
    | |- context [net w ?n ?req] => destruct (Hdown n req) as [e ->]
    end. eauto. }
  assert (forall tr, exists tr1, share_strategy4 w url tr = (Ok None, tr1)) as H4.
  { intros tr0. unfold share_strategy4, try_catch, bind, fetch, ret.
    destruct (truthy (BACKEND_URL w)); [|eauto].
    match goal with
    | |- context [net w ?n ?req] => destruct (Hdown n req) as [e ->]
    end. eauto. }
  destruct (H1 tr) as [tr1 E1]. destruct (H2 tr1) as [tr2 E2].
  destruct (H3 tr2) as [tr3 E3]. destruct (H4 tr3) as [tr4 E4].
  exists tr4. exact (resolver_gives_up url _ _ _ _ _ E1 E2 E3 E4).
Qed.

(** When the resolver hands back the share URL, the four methods are
    tried on it, and there is no second pass. *)
Lemma fetchFacebookVideo_unresolved url tr tr0 :
  isFacebookShareURL url = true ->
  resolveFacebookShareURL_Improved w url tr = (Ok url, tr0) ->
  fetchFacebookVideo w url tr
  = (first_pass <- try_methods w url (facebook_methods w url);;
     match first_pass with
     | Some result => ret result
     | None => throw NOT_FOUND_FB
     end) tr0.
Proof.
  intros Hshare Hresolve. unfold fetchFacebookVideo, resolve_if_share.
  rewrite Hshare. unfold bind at 1 2. rewrite Hresolve.
  rewrite String.eqb_refl. cbn [negb]. unfold ret at 1.
  rewrite String.eqb_refl. reflexivity.
Qed.
End ResolverTotal.

(** C6. No strategy of the share-link resolver throws, whatever the
    network does: a failed or timed-out request, an error status, a body
    that does not parse, a base-62 decoding error all end inside the
    strategy, which then yields nothing. Hence the resolver itself never
    throws. When its four strategies yield nothing it returns the URL it was
    given; this is so in particular when no request gets through. The
    orchestrator then tries its extraction methods on that URL. *)
Theorem share_resolver_never_throws (w : World) (url : string) :
  (never_throws (share_strategy1 w url)
   /\ never_throws (share_strategy2 w (shareId_of url))
   /\ never_throws (share_strategy3 w url)
   /\ never_throws (share_strategy4 w url))
  /\ never_throws (resolveFacebookShareURL_Improved w url)
  /\ (forall tr,
        match net w (List.length tr) (cobalt_probe url) with
        | NetError _ => True
        | Responded r => resp_ok r = false \/ exists e, resp_json r = Throw e
        end ->
        share_strategy1 w url tr = (Ok None, tr ++ [cobalt_probe url]))
  /\ (forall shareId e tr,
        truthy (str shareId) = true ->
        base62ToDecimal shareId = Throw e ->
        share_strategy2 w (str shareId) tr = (Ok None, tr))
  /\ (forall tr tr1 tr2 tr3 tr4,
        share_strategy1 w url tr = (Ok None, tr1) ->
        share_strategy2 w (shareId_of url) tr1 = (Ok None, tr2) ->
        share_strategy3 w url tr2 = (Ok None, tr3) ->
        share_strategy4 w url tr3 = (Ok None, tr4) ->
        resolveFacebookShareURL_Improved w url tr = (Ok url, tr4))
  /\ (unreachable w ->
      forall tr, exists tr', resolveFacebookShareURL_Improved w url tr = (Ok url, tr'))
  /\ (forall tr tr0,
        isFacebookShareURL url = true ->
        resolveFacebookShareURL_Improved w url tr = (Ok url, tr0) ->
        fetchFacebookVideo w url tr
        = (first_pass <- try_methods w url (facebook_methods w url);;
           match first_pass with
           | Some result => ret result
           | None => throw NOT_FOUND_FB
           end) tr0).
Proof.
  split; [repeat split|].
  - apply share_strategy1_never_throws.
  - apply share_strategy2_never_throws.
  - apply share_strategy3_never_throws.
  - apply share_strategy4_never_throws.
  - split; [apply resolveFacebookShareURL_Improved_never_throws|].
    split; [apply share_strategy1_failure|].
    split; [apply share_strategy2_decoding_error|].
    split; [apply resolver_gives_up|].
    split; [intros Hdown tr; apply resolver_unreachable; assumption|].
    apply fetchFacebookVideo_unresolved.
Qed.

Lemma share_resolver_never_throws_witness :
  exists tr',
    resolveFacebookShareURL_Improved dead_world share_link [] = (Ok share_link, tr')
    /\ map r_body tr'
       = [ [("url", share_link); ("vCodec", "h264"); ("vQuality", "max")];
           [("url", "https://www.facebook.com/reel/14195839"); ("vCodec", "h264");
            ("vQuality", "max")];
           [] ].
Proof.
  destruct (share_resolver_never_throws dead_world share_link)
    as (_ & _ & _ & _ & _ & Hdown & _).
  destruct (Hdown (fun _ _ => ex_intro _ "fetch failed" eq_refl) []) as [tr' Htr].
  exists tr'. split; [exact Htr|].
  vm_compute in Htr. injection Htr as <-. reflexivity.
Defined.

(* ===================================================================== *)
(** ** What the handler answers when Facebook extraction is exhausted *)
(* ===================================================================== *)

Section Exhaustion.
Variable w : World.

Lemma try_methods_never_throws originalUrl methods :
  never_throws (try_methods w originalUrl methods).
Proof.
  induction methods as [|method rest IH]; intros tr; cbn [try_methods].
  - apply ret_never_throws.
  - unfold bind.
    destruct (try_catch_never_throws
                (result <- method;;
                 match result with
                 | Some result =>
                     if truthy (video_url result) then
                       result' <- backfill_thumbnail w originalUrl result;;
                       ret (Some result')
                     else ret None
                 | None => ret None
                 end) None tr) as (won & tr1 & Hwon).
    unfold attempt_method. rewrite Hwon.
    destruct won as [result|]; [unfold ret; eauto | apply IH].
Qed.

(** A result that leaves the loop has a video URL. *)
Lemma try_methods_has_video originalUrl methods :
  forall tr r tr',
    try_methods w originalUrl methods tr = (Ok (Some r), tr') ->
    truthy (video_url r) = true.
Proof.
  induction methods as [|method rest IH]; intros tr r tr' H; cbn [try_methods] in H.
  - discriminate H.
  - apply bind_inv in H as (won & tr1 & Hwon & H).
    destruct won as [result|]; [|exact (IH _ _ _ H)].
    injection H as -> ->.
    unfold attempt_method, try_catch in Hwon.
    destruct (bind method _ tr) as [[won|e] tr2] eqn:Hbody; [|discriminate Hwon].
    injection Hwon as -> ->.
    apply bind_inv in Hbody as (found & tr3 & _ & Hbody).
    destruct found as [found|]; [|discriminate Hbody].
    destruct (truthy (video_url found)) eqn:Hvideo; [|discriminate Hbody].
    apply bind_inv in Hbody as (r' & tr4 & Hfill & Hret).
    injection Hret as -> ->.
    destruct (backfill_thumbnail_returns w originalUrl found tr3)
      as (r'' & tr5 & Hfill' & Hurl & _).
    rewrite Hfill' in Hfill. injection Hfill as -> ->. congruence.
Qed.

Lemma resolve_if_share_never_throws url : never_throws (resolve_if_share w url).
Proof.
  intros tr. unfold resolve_if_share, bind.
  destruct (isFacebookShareURL url); [|unfold ret; eauto].
  destruct (resolveFacebookShareURL_Improved_never_throws w url tr) as (u & tr1 & ->).
  destruct (negb (String.eqb u url)); unfold ret; eauto.
Qed.

(** [fetchFacebookVideo] either returns a result with a video URL or
    throws the exhaustion error; it has no third outcome. *)
Lemma fetchFacebookVideo_outcomes url tr :
  (exists r tr', fetchFacebookVideo w url tr = (Ok r, tr')
                 /\ truthy (video_url r) = true)
  \/ (exists tr', fetchFacebookVideo w url tr = (Throw NOT_FOUND_FB, tr')).
Proof.
  unfold fetchFacebookVideo.
  destruct (resolve_if_share_never_throws url tr) as (resolvedUrl & tr0 & Hres).
  rewrite (bind_ok _ _ _ _ _ Hres).
  destruct (try_methods_never_throws url (facebook_methods w resolvedUrl) tr0)
    as (first_pass & tr1 & Hfirst).
  rewrite (bind_ok _ _ _ _ _ Hfirst).
  destruct first_pass as [r|].
  - left. exists r, tr1. split; [reflexivity|].
    exact (try_methods_has_video _ _ _ _ _ Hfirst).
  - destruct (isFacebookShareURL url && negb (String.eqb url resolvedUrl));
      [|right; unfold throw; eauto].
    destruct (try_methods_never_throws url (fallback_methods w url) tr1)
      as (second_pass & tr2 & Hsecond).
    rewrite (bind_ok _ _ _ _ _ Hsecond).
    destruct second_pass as [r|].
    + left. exists r, tr2. split; [reflexivity|].
      exact (try_methods_has_video _ _ _ _ _ Hsecond).
    + right. unfold throw. eauto.
Qed.

Lemma fetchFacebookVideo_exhausted url tr tr' :
  exhausted w url tr tr' ->
  fetchFacebookVideo w url tr = (Throw NOT_FOUND_FB, tr').
Proof.
  intros (resolvedUrl & tr0 & tr1 & Hres & Hfirst & Hsecond).
  unfold fetchFacebookVideo.
  rewrite (bind_ok _ _ _ _ _ Hres).
  rewrite (bind_ok _ _ _ _ _ (try_methods_exhausted w url _ _ _ Hfirst)).
  destruct (isFacebookShareURL url && negb (String.eqb url resolvedUrl)).
  - rewrite (bind_ok _ _ _ _ _ (try_methods_exhausted w url _ _ _ Hsecond)).
    reflexivity.
  - subst tr'. reflexivity.
Qed.

(** The Facebook branch of the handler. *)
Lemma handle_facebook request body url tr :
  request_json request = Ok body ->
  field "url" body = str url ->
  truthy (str url) = true ->
  isFacebookURL url = true ->
  handle w request tr
  = try_catch
      (videoData <- fetchFacebookVideo w url;;
       if negb (truthy (video_url videoData))
       then ret (failure 404 NOT_FOUND_FB)
       else ret (mkHttp 200 true undefined (Some videoData)))
      (fun fbError => ret (failure 500 fbError)) tr.
Proof.
  intros Hbody Hurl Htruthy Hfb. unfold handle.
  rewrite Hbody. unfold lift, bind at 1. rewrite Hurl, Htruthy. cbn [negb to_string].
  rewrite Hfb. reflexivity.
Qed.
End Exhaustion.

(** C1, as the code has it. For a request that passes the rate limit and
    carries a Facebook URL, when the share-link resolver and every
    extraction method of both passes fail to produce a video URL,
    [POST] answers with status 500 and the message of the exhaustion
    error; and on no Facebook request at all does it answer 404: the
    branch of the handler that would is never taken, since
    [fetchFacebookVideo] throws instead of returning an empty result. *)
Theorem facebook_exhaustion_is_500 (w : World) (now : Z) (request : NextRequest)
    (rateLimitMap : gmap string RateRecord) (body : jobject) (url : string) (tr : trace) :
  fst (checkRateLimit now (client_ip request) rateLimitMap) = true ->
  request_json request = Ok body ->
  field "url" body = str url ->
  truthy (str url) = true ->
  isFacebookURL url = true ->
  (forall tr',
      exhausted w url tr tr' ->
      POST w now request rateLimitMap tr
      = (failure 500 NOT_FOUND_FB,
         snd (checkRateLimit now (client_ip request) rateLimitMap), tr'))
  /\ status (fst (fst (POST w now request rateLimitMap tr))) <> 404.
Proof.
  intros Hallowed Hbody Hurl Htruthy Hfb.
  unfold POST.
  destruct (checkRateLimit now (client_ip request) rateLimitMap) as [allowed m'].
  cbn [fst snd] in *. subst allowed. cbn [negb].
  pose proof (handle_facebook w request body url tr Hbody Hurl Htruthy Hfb) as Hhandle.
  unfold try_catch at 1 2. cbv beta. rewrite !Hhandle.
  split.
  - intros tr' Hex.
    unfold try_catch, bind. cbv beta.
    pose proof (fetchFacebookVideo_exhausted w url tr tr' Hex) as Hthrows.
    rewrite Hthrows. reflexivity.
  - unfold try_catch, bind. cbv beta.
    destruct (fetchFacebookVideo_outcomes w url tr)
      as [(r & tr' & Hreturns & Hvideo)|(tr' & Hthrows)].
    + rewrite Hreturns, Hvideo. cbn. discriminate.
    + rewrite Hthrows. cbn. discriminate.
Qed.

Lemma facebook_exhaustion_is_500_witness :
  fst (fst (POST dead_world 0 share_request ∅ [])) = failure 500 NOT_FOUND_FB
  /\ status (fst (fst (POST dead_world 0 share_request ∅ []))) <> 404.
Proof.
  destruct (facebook_exhaustion_is_500 dead_world 0 share_request ∅
              [("url", str share_link)] share_link [])
    as [Hexhausted Hnot404];
    [vm_compute; reflexivity | reflexivity | reflexivity
     | vm_compute; reflexivity | vm_compute; reflexivity |].
  split; [|exact Hnot404].
  rewrite (Hexhausted (snd (fetchFacebookVideo dead_world share_link []))); [reflexivity|].
  exists share_link, (snd (resolve_if_share dead_world share_link [])),
         (snd (fetchFacebookVideo dead_world share_link [])).
  split; [vm_compute; reflexivity|]. split.
  - unfold facebook_methods.
    repeat (econstructor; [right; left; vm_compute; reflexivity|]).
    vm_compute. constructor.
  - vm_compute. reflexivity.
Defined.

(* ===================================================================== *)
(** ** The matcher finds exactly the matches of a pattern *)
(* ===================================================================== *)

Lemma append_cons (x : ascii) (a b : string) : String x a +:+ b = String x (a +:+ b).
Proof. reflexivity. Qed.

Lemma append_nil_l (b : string) : "" +:+ b = b.
Proof. reflexivity. Qed.

Lemma slen_append (a b : string) : slen (a +:+ b) = (slen a + slen b)%nat.
Proof.
  unfold slen. induction a as [|c a IH]; [reflexivity|].
  rewrite append_cons. cbn [String.length Nat.add]. f_equal. exact IH.
Qed.

Lemma append_assoc (a b c : string) : (a +:+ b) +:+ c = a +:+ (b +:+ c).
Proof.
  induction a as [|x a IH]; [reflexivity|]. rewrite !append_cons. f_equal. exact IH.
Qed.

Lemma append_nil_r (a : string) : a +:+ "" = a.
Proof.
  induction a as [|x a IH]; [reflexivity|]. rewrite append_cons. f_equal. exact IH.
Qed.

Lemma take_str_append (a b : string) : take_str (slen a) (a +:+ b) = a.
Proof.
  unfold slen. induction a as [|x a IH]; [destruct b; reflexivity|].
  rewrite append_cons. cbn [String.length take_str]. f_equal. exact IH.
Qed.

Section Matcher_correct.
Variable icase : bool.
Variable total : nat.

Lemma rx_star_loop g r s caps k :
  rx icase total (Star g r) s caps k
  = star_loop (rx icase total r) g k (slen s) s caps.
Proof. reflexivity. Qed.

(** What a pattern consumes is a prefix of the input. *)
Lemma mtc_prefix r s c s1 c1 :
  mtc icase total r s c s1 c1 -> exists pre, s = pre +:+ s1.
Proof.
  induction 1 as [s c|s c _|neg rs ch s c _|r1 r2 s c s1 c1 s2 c2 _ [p1 ->] _ [p2 ->]
                 |r1 r2 s c s1 c1 _ IH|r1 r2 s c s1 c1 _ IH|g r s c
                 |g r s c s1 c1 s2 c2 _ [p1 ->] _ _ [p2 ->]|n r s c s1 c1 _ IH].
  - exists "". reflexivity.
  - exists "". reflexivity.
  - exists (String ch ""). reflexivity.
  - exists (p1 +:+ p2). rewrite append_assoc. reflexivity.
  - exact IH.
  - exact IH.
  - exists "". reflexivity.
  - exists (p1 +:+ p2). rewrite append_assoc. reflexivity.
  - exact IH.
Qed.

Lemma star_loop_sound r g k :
  (forall s caps k' x,
      rx icase total r s caps k' = Some x ->
      exists s1 c1, mtc icase total r s caps s1 c1 /\ k' s1 c1 = Some x) ->
  forall fuel s caps x,
    star_loop (rx icase total r) g k fuel s caps = Some x ->
    exists s1 c1, mtc icase total (Star g r) s caps s1 c1 /\ k s1 c1 = Some x.
Proof.
  intros IHr. induction fuel as [|fuel IH]; intros s caps x H; cbn [star_loop] in H.
  - exists s, caps. split; [constructor | exact H].
  - assert (forall y,
               rx icase total r s caps
                  (fun s1 c1 => if (slen s1 <? slen s)%nat
                                then star_loop (rx icase total r) g k fuel s1 c1
                                else None) = Some y ->
               exists s2 c2, mtc icase total (Star g r) s caps s2 c2 /\ k s2 c2 = Some y)
      as Hagain.
    { intros y Hy. apply IHr in Hy as (s1 & c1 & Hstep & Hk).
      destruct (Nat.ltb_spec (slen s1) (slen s)) as [Hlt|]; [|discriminate Hk].
      apply IH in Hk as (s2 & c2 & Hrest & Hk).
      exists s2, c2. split; [|exact Hk]. econstructor; eassumption. }
    destruct g.
    + destruct (rx icase total r s caps _) as [y|] eqn:Hy.
      * injection H as <-. apply Hagain. reflexivity.
      * exists s, caps. split; [constructor | exact H].
    + destruct (k s caps) as [y|] eqn:Hk.
      * injection H as <-. exists s, caps. split; [constructor | exact Hk].
      * apply Hagain. exact H.
Qed.

(** Soundness: a success of the matcher is a match of the pattern, and
    the continuation accepted what that match left. *)
Lemma rx_sound r : forall s caps k x,
  rx icase total r s caps k = Some x ->
  exists s1 c1, mtc icase total r s caps s1 c1 /\ k s1 c1 = Some x.
Proof.
  induction r as [| |neg rs|r1 IH1 r2 IH2|r1 IH1 r2 IH2|g r IH|n r IH];
    intros s caps k x H.
  - exists s, caps. split; [constructor | exact H].
  - cbn [rx] in H. destruct (Nat.eqb_spec (slen s) total); [|discriminate H].
    exists s, caps. split; [constructor; assumption | exact H].
  - cbn [rx] in H. destruct s as [|ch s]; [discriminate H|].
    destruct (cls_matches icase neg rs ch) eqn:Hm; [|discriminate H].
    exists s, caps. split; [constructor; assumption | exact H].
  - cbn [rx] in H. apply IH1 in H as (s1 & c1 & H1 & H).
    apply IH2 in H as (s2 & c2 & H2 & H).
    exists s2, c2. split; [econstructor; eassumption | exact H].
  - cbn [rx] in H. destruct (rx icase total r1 s caps k) as [y|] eqn:Hy.
    + injection H as <-. apply IH1 in Hy as (s1 & c1 & H1 & Hk).
      exists s1, c1. split; [apply mtc_alt_l; assumption | exact Hk].
    + apply IH2 in H as (s1 & c1 & H2 & Hk).
      exists s1, c1. split; [apply mtc_alt_r; assumption | exact Hk].
  - rewrite rx_star_loop in H. exact (star_loop_sound r g k IH _ _ _ _ H).
  - cbn [rx] in H. apply IH in H as (s1 & c1 & H1 & Hk).
    eexists s1, _. split; [apply mtc_group; eassumption | exact Hk].
Qed.

(** Completeness: when the pattern has a match that the continuation
    accepts, the matcher succeeds (with that match or with one it tries
    before). *)
Lemma rx_complete r s c s1 c1 :
  mtc icase total r s c s1 c1 ->
  forall k, k s1 c1 <> None ->
    rx icase total r s c k <> None
    /\ match r with
       | Star g r' => forall fuel, (slen s <= fuel)%nat ->
                        star_loop (rx icase total r') g k fuel s c <> None
       | _ => True
       end.
Proof.
  induction 1 as [s c|s c Hbol|neg rs ch s c Hcls|r1 r2 s c s1 c1 s2 c2 _ IH1 _ IH2
                 |r1 r2 s c s1 c1 _ IH|r1 r2 s c s1 c1 _ IH|g r s c
                 |g r s c s1 c1 s2 c2 _ IHstep Hlt _ IHrest|n r s c s1 c1 _ IH];
    intros k Hk.
  - split; [exact Hk | exact I].
  - split; [|exact I]. cbn [rx]. rewrite Hbol, Nat.eqb_refl. exact Hk.
  - split; [|exact I]. cbn [rx]. rewrite Hcls. exact Hk.
  - split; [|exact I]. cbn [rx]. apply IH1. apply IH2. exact Hk.
  - split; [|exact I]. cbn [rx].
    destruct (rx icase total r1 s c k) eqn:E; [discriminate|].
    exfalso. apply (proj1 (IH k Hk)). exact E.
  - split; [|exact I]. cbn [rx].
    destruct (rx icase total r1 s c k); [discriminate|]. apply IH. exact Hk.
  - assert (forall fuel, star_loop (rx icase total r) g k fuel s c <> None) as Hloop.
    { intros [|fuel]; cbn [star_loop]; [exact Hk|].
      destruct g.
      - destruct (rx icase total r s c _); [discriminate | exact Hk].
      - destruct (k s c); [discriminate | contradiction]. }
    split; [rewrite rx_star_loop; apply Hloop | intros fuel _; apply Hloop].
  - assert (forall fuel, (slen s <= fuel)%nat ->
                         star_loop (rx icase total r) g k fuel s c <> None) as Hloop.
    { intros [|fuel] Hfuel; [lia|]. cbn [star_loop].
      assert (rx icase total r s c
                 (fun s1 c1 => if (slen s1 <? slen s)%nat
                               then star_loop (rx icase total r) g k fuel s1 c1
                               else None) <> None) as Hagain.
      { apply IHstep. destruct (Nat.ltb_spec (slen s1) (slen s)); [|lia].
        apply (IHrest k Hk). lia. }
      destruct g.
      - destruct (rx icase total r s c _); [discriminate | contradiction].
      - destruct (k s c); [discriminate | exact Hagain]. }
    split; [rewrite rx_star_loop; apply Hloop; lia | exact Hloop].
  - split; [|exact I]. cbn [rx]. apply IH. exact Hk.
Qed.
End Matcher_correct.

(** *** Searching *)

Lemma match_here icase total r t rest caps :
  rx icase total r t [] (fun s1 c1 => Some (s1, c1)) = Some (rest, caps) ->
  t = take_str (slen t - slen rest) t +:+ rest
  /\ mtc icase total r t [] rest caps.
Proof.
  intros E. apply rx_sound in E as (s1 & c1 & Hm & [= <- <-]).
  split; [|exact Hm].
  destruct (mtc_prefix _ _ _ _ _ _ _ Hm) as [pre ->].
  rewrite slen_append, Nat.add_sub, take_str_append. reflexivity.
Qed.

Lemma search_sound icase total r s m :
  search icase total r s = Some m ->
  exists before,
    s = before +:+ m_text m +:+ m_rest m
    /\ mtc icase total r (m_text m +:+ m_rest m) [] (m_rest m) (m_caps m).
Proof.
  assert (forall t rest caps,
             rx icase total r t [] (fun s1 c1 => Some (s1, c1)) = Some (rest, caps) ->
             let m := mkMatch (take_str (slen t - slen rest) t) caps rest in
             t = "" +:+ m_text m +:+ m_rest m
             /\ mtc icase total r (m_text m +:+ m_rest m) [] (m_rest m) (m_caps m))
    as Hhere.
  { intros t rest caps E. apply match_here in E as [Ht Hm].
    cbn [m_text m_rest m_caps]. rewrite append_nil_l, <- Ht. split; [reflexivity | exact Hm]. }
  induction s as [|ch s IH]; cbn [search]; intros H.
  - destruct (rx icase total r "" [] _) as [[rest caps]|] eqn:E; [|discriminate H].
    injection H as <-. exists "". exact (Hhere _ _ _ E).
  - destruct (rx icase total r (String ch s) [] _) as [[rest caps]|] eqn:E.
    + injection H as <-. exists "". exact (Hhere _ _ _ E).
    + destruct (IH H) as (before & Hs & Hm).
      exists (String ch before). rewrite append_cons, <- Hs. split; [reflexivity | exact Hm].
Qed.

Lemma search_complete icase total r before : forall t s1 c1,
  mtc icase total r t [] s1 c1 ->
  search icase total r (before +:+ t) <> None.
Proof.
  assert (forall t s1 c1, mtc icase total r t [] s1 c1 ->
                          search icase total r t <> None) as Hhere.
  { intros t s1 c1 Hm.
    pose proof (proj1 (rx_complete icase total r t [] s1 c1 Hm
                         (fun s2 c2 => Some (s2, c2)) ltac:(discriminate))) as Hrx.
    destruct t; cbn [search];
      destruct (rx icase total r _ [] _) as [[rest caps]|]; congruence. }
  induction before as [|ch before IH]; intros t s1 c1 Hm.
  - rewrite append_nil_l. eapply Hhere; eassumption.
  - rewrite append_cons. cbn [search].
    destruct (rx icase total r _ [] _) as [[rest caps]|]; [discriminate|].
    eapply IH; eassumption.
Qed.

(** A pattern without groups leaves the captures as they are. *)
Lemma mtc_no_group icase total r s c s1 c1 :
  mtc icase total r s c s1 c1 -> no_group r = true -> c1 = c.
Proof.
  induction 1 as [s c|s c _|neg rs ch s c _|r1 r2 s c s1 c1 s2 c2 _ IH1 _ IH2
                 |r1 r2 s c s1 c1 _ IH|r1 r2 s c s1 c1 _ IH|g r s c
                 |g r s c s1 c1 s2 c2 _ IHstep _ _ IHrest|n r s c s1 c1 _ IH];
    cbn [no_group]; intros Hng; try reflexivity; try discriminate.
  - apply andb_true_iff in Hng as [H1 H2]. rewrite (IH2 H2). exact (IH1 H1).
  - apply andb_true_iff in Hng as [H1 _]. exact (IH H1).
  - apply andb_true_iff in Hng as [_ H2]. exact (IH H2).
  - rewrite (IHrest Hng). exact (IHstep Hng).
Qed.

Lemma occurs_in_empty s : occurs_in "" s.
Proof. exists "", s. reflexivity. Qed.

Lemma occurs_in_trans t u s : occurs_in t u -> occurs_in u s -> occurs_in t s.
Proof.
  intros (a & b & ->) (a' & b' & ->). exists (a' +:+ a), (b +:+ b').
  rewrite !append_assoc. reflexivity.
Qed.

Lemma occurs_in_prefix pre s1 : occurs_in pre (pre +:+ s1).
Proof. exists "", s1. reflexivity. Qed.

Lemma occurs_in_suffix pre s1 : occurs_in s1 (pre +:+ s1).
Proof. exists pre, "". rewrite append_nil_r. reflexivity. Qed.

(** Every capture a match adds is a piece of the input. *)
Lemma mtc_captures icase total r s c s1 c1 :
  mtc icase total r s c s1 c1 ->
  forall n t, In (n, t) c1 -> In (n, t) c \/ occurs_in t s.
Proof.
  induction 1 as [s c|s c _|neg rs ch s c _|r1 r2 s c s1 c1 s2 c2 H1 IH1 _ IH2
                 |r1 r2 s c s1 c1 _ IH|r1 r2 s c s1 c1 _ IH|g r s c
                 |g r s c s1 c1 s2 c2 H1 IHstep _ _ IHrest|n r s c s1 c1 H1 IH];
    intros m t Hin; auto.
  - destruct (mtc_prefix _ _ _ _ _ _ _ H1) as [pre ->].
    destruct (IH2 m t Hin) as [Hc1|Hocc]; [apply IH1 in Hc1; exact Hc1|].
    right. eapply occurs_in_trans; [exact Hocc | apply occurs_in_suffix].
  - destruct (mtc_prefix _ _ _ _ _ _ _ H1) as [pre ->].
    destruct (IHrest m t Hin) as [Hc1|Hocc]; [apply IHstep in Hc1; exact Hc1|].
    right. eapply occurs_in_trans; [exact Hocc | apply occurs_in_suffix].
  - destruct Hin as [[= <- <-]|Hin]; [|exact (IH m t Hin)].
    right. destruct (mtc_prefix _ _ _ _ _ _ _ H1) as [pre ->].
    rewrite slen_append, Nat.add_sub, take_str_append. apply occurs_in_prefix.
Qed.

Lemma get_capture_In n c t : get_capture n c = Some t -> In (n, t) c.
Proof.
  induction c as [|[m u] c IH]; cbn [get_capture]; [discriminate|].
  destruct (Nat.eqb_spec m n) as [->|]; [intros [= ->]; left; reflexivity|].
  intros H. right. exact (IH H).
Qed.

(** What [match] captures is a piece of the text it was applied to. *)
Lemma group1_occurs p s m : re_match p s = Some m -> occurs_in (group1 m) s.
Proof.
  unfold re_match. intros H. apply search_sound in H as (before & Hs & Hm).
  unfold group1. destruct (get_capture 1 (m_caps m)) as [t|] eqn:Hc;
    [|apply occurs_in_empty].
  apply get_capture_In in Hc.
  destruct (mtc_captures _ _ _ _ _ _ _ Hm 1 t Hc) as [[]|Hocc].
  rewrite Hs. eapply occurs_in_trans; [exact Hocc | apply occurs_in_suffix].
Qed.

(** *** Literals and runs of a class *)

Lemma chr_matches c ch : cls_matches false false [(c, c)] ch = true <-> ch = c.
Proof.
  unfold cls_matches, in_ranges, in_range. cbn [existsb fst snd xorb].
  rewrite orb_false_r, andb_true_iff, !Nat.leb_le. split.
  - intros [H1 H2].
    rewrite <- (ascii_nat_embedding ch), <- (ascii_nat_embedding c). f_equal. lia.
  - intros ->. lia.
Qed.

Lemma lit_cons c p : p <> "" -> lit (String c p) = Seq (chr c) (lit p).
Proof. destruct p; [congruence | reflexivity]. Qed.

Lemma mtc_lit_inv total p : forall s c s1 c1,
  mtc false total (lit p) s c s1 c1 -> s = p +:+ s1 /\ c1 = c.
Proof.
  induction p as [|ch p IH]; intros s c s1 c1 H.
  - inversion H; subst. split; reflexivity.
  - destruct p as [|ch' p].
    + inversion H as [| |neg rs x s' c' Hcls| | | | | |]; subst.
      apply chr_matches in Hcls as ->. split; reflexivity.
    + rewrite lit_cons in H by discriminate.
      inversion H as [| | |r1 r2 s' c' s2 c2 s3 c3 H1 H2| | | | |]; subst.
      inversion H1 as [| |neg rs x s' c' Hcls| | | | | |]; subst.
      apply chr_matches in Hcls as ->.
      apply IH in H2 as [-> ->]. split; reflexivity.
Qed.

Lemma mtc_lit_intro total p s c : mtc false total (lit p) (p +:+ s) c s c.
Proof.
  induction p as [|ch p IH]; [constructor|].
  destruct p as [|ch' p].
  - constructor. apply chr_matches. reflexivity.
  - rewrite lit_cons by discriminate. rewrite append_cons.
    econstructor; [apply mtc_cls; apply chr_matches; reflexivity | exact IH].
Qed.

Lemma mtc_star_cls_inv icase total g neg rs s c s1 c1 :
  mtc icase total (Star g (Cls neg rs)) s c s1 c1 ->
  c1 = c /\ exists pre, s = pre +:+ s1 /\ all_chars (in_cls icase neg rs) pre.
Proof.
  remember (Star g (Cls neg rs)) as r eqn:Hr. intros H.
  induction H as [| | | | | |g' r' s c
                 |g' r' s c s1 c1 s2 c2 Hstep _ _ _ IHrest|]; try discriminate Hr.
  - split; [reflexivity|]. exists "". split; [reflexivity | constructor].
  - injection Hr as -> ->.
    inversion Hstep as [| |neg' rs' ch s' c' Hcls| | | | | |]; subst.
    destruct (IHrest eq_refl) as (-> & pre & -> & Hall).
    split; [reflexivity|]. exists (String ch pre). split; [reflexivity|].
    constructor; assumption.
Qed.

Lemma mtc_star_cls_intro icase total g neg rs pre : forall s1 c,
  all_chars (in_cls icase neg rs) pre ->
  mtc icase total (Star g (Cls neg rs)) (pre +:+ s1) c s1 c.
Proof.
  induction pre as [|ch pre IH]; intros s1 c Hall; [constructor|].
  inversion Hall as [|? ? Hch Hrest]; subst. rewrite append_cons.
  eapply mtc_star_more; [apply mtc_cls; exact Hch | unfold slen; cbn [String.length]; lia | exact (IH s1 c Hrest)].
Qed.

(** One or more characters of a class. *)
Lemma mtc_plus_cls_inv icase total neg rs s c s1 c1 :
  mtc icase total (plus (Cls neg rs)) s c s1 c1 ->
  c1 = c /\ exists pre, s = pre +:+ s1 /\ pre <> ""
                         /\ all_chars (in_cls icase neg rs) pre.
Proof.
  unfold plus. intros H.
  inversion H as [| | |r1 r2 s' c' s2 c2 s3 c3 H1 H2| | | | |]; subst.
  inversion H1 as [| |neg' rs' ch s' c' Hcls| | | | | |]; subst.
  apply mtc_star_cls_inv in H2 as (-> & pre & -> & Hall).
  split; [reflexivity|]. exists (String ch pre).
  split; [reflexivity|]. split; [discriminate|]. constructor; assumption.
Qed.

Lemma mtc_plus_cls_intro icase total neg rs pre s1 c :
  pre <> "" -> all_chars (in_cls icase neg rs) pre ->
  mtc icase total (plus (Cls neg rs)) (pre +:+ s1) c s1 c.
Proof.
  intros Hne Hall. destruct pre as [|ch pre]; [congruence|].
  inversion Hall as [|? ? Hch Hrest]; subst. unfold plus. rewrite append_cons.
  econstructor; [apply mtc_cls; exact Hch | apply mtc_star_cls_intro; exact Hrest].
Qed.

(** *** Substrings *)

Lemma strip_prefix_iff p : forall s t, strip_prefix p s = Some t <-> s = p +:+ t.
Proof.
  induction p as [|a p IH]; intros s t; cbn [strip_prefix].
  - rewrite append_nil_l. split; [intros [= ->] | intros ->]; reflexivity.
  - destruct s as [|b s].
    + split; [discriminate | rewrite append_cons; discriminate].
    + rewrite append_cons. destruct (Ascii.eqb_spec a b) as [->|Hne].
      * rewrite IH. split; [intros ->; reflexivity | intros [= ->]; reflexivity].
      * split; [discriminate | intros [= -> _]; congruence].
Qed.

Lemma includes_iff p s : includes p s = true <-> occurs_in p s.
Proof.
  induction s as [|ch s IH]; cbn [includes].
  - destruct (strip_prefix p "") as [t|] eqn:E.
    + split; [|reflexivity]. intros _. apply strip_prefix_iff in E.
      exists "", t. exact E.
    + split; [discriminate|]. intros (a & b & Hs).
      destruct a; [|discriminate Hs]. rewrite append_nil_l in Hs.
      apply strip_prefix_iff in Hs. congruence.
  - destruct (strip_prefix p (String ch s)) as [t|] eqn:E.
    + split; [|reflexivity]. intros _. apply strip_prefix_iff in E.
      exists "", t. exact E.
    + rewrite IH. split.
      * intros (a & b & ->). exists (String ch a), b. reflexivity.
      * intros (a & b & Hs). destruct a as [|x a].
        -- rewrite append_nil_l in Hs. apply strip_prefix_iff in Hs. congruence.
        -- rewrite append_cons in Hs. injection Hs as -> ->. exists a, b. reflexivity.
Qed.

(** A pattern that is a literal is a substring test. *)
Lemma lit_test p s : re_test (re [lit p]) s = includes p s.
Proof.
  apply eq_true_iff_eq. rewrite includes_iff.
  unfold re_test, re_match, re. cbn [seqs p_icase p_re]. split.
  - destruct (search false (slen s) (lit p) s) as [m|] eqn:E; [|discriminate].
    intros _. apply search_sound in E as (before & Hs & Hm).
    apply mtc_lit_inv in Hm as [Ht _].
    exists before, (m_rest m). rewrite Hs, Ht. reflexivity.
  - intros (a & b & ->).
    pose proof (search_complete false (slen (a +:+ p +:+ b)) (lit p) a _ _ _
                  (mtc_lit_intro _ p b [])) as Hs.
    destruct (search false _ (lit p) _); [reflexivity | congruence].
Qed.

(** *** Patterns that match at the same places *)

Lemma mtc_any_captures icase total r s c s1 c1 :
  mtc icase total r s c s1 c1 -> forall c', exists c1', mtc icase total r s c' s1 c1'.
Proof.
  induction 1 as [s c|s c Hbol|neg rs ch s c Hcls|r1 r2 s c s1 c1 s2 c2 _ IH1 _ IH2
                 |r1 r2 s c s1 c1 _ IH|r1 r2 s c s1 c1 _ IH|g r s c
                 |g r s c s1 c1 s2 c2 _ IHstep Hlt _ IHrest|n r s c s1 c1 _ IH];
    intros c'.
  - eexists. constructor.
  - eexists. constructor. assumption.
  - eexists. apply mtc_cls. assumption.
  - destruct (IH1 c') as [c1' H1]. destruct (IH2 c1') as [c2' H2].
    eexists. eapply mtc_seq; eassumption.
  - destruct (IH c') as [c1' H1]. eexists. apply mtc_alt_l. eassumption.
  - destruct (IH c') as [c1' H1]. eexists. apply mtc_alt_r. eassumption.
  - eexists. apply mtc_star_done.
  - destruct (IHstep c') as [c1' H1]. destruct (IHrest c1') as [c2' H2].
    eexists. eapply mtc_star_more; eassumption.
  - destruct (IH c') as [c1' H1]. eexists. apply mtc_group. eassumption.
Qed.

Lemma same_matches_seq_r icase total a r r' :
  same_matches icase total r r' ->
  same_matches icase total (Seq a r) (Seq a r').
Proof.
  intros Hsame s c. split; intros (s2 & c2 & H);
    inversion H as [| | |r1 r2 s' c' s1 c1 s3 c3 H1 H2| | | | |]; subst;
    destruct (proj1 (Hsame s1 c1) (ex_intro _ s2 (ex_intro _ c2 H2))) as (s3 & c3 & H3)
    || destruct (proj2 (Hsame s1 c1) (ex_intro _ s2 (ex_intro _ c2 H2))) as (s3 & c3 & H3);
    exists s3, c3; eapply mtc_seq; eassumption.
Qed.

(** An optional tail does not change where a pattern matches. *)
Lemma same_matches_opt_tail icase total r x :
  same_matches icase total (Seq r (opt x)) r.
Proof.
  intros s c. split.
  - intros (s2 & c2 & H).
    inversion H as [| | |r1 r2 s' c' s1 c1 s3 c3 H1 H2| | | | |]; subst. eauto.
  - intros (s1 & c1 & H). exists s1, c1.
    eapply mtc_seq; [exact H | apply mtc_alt_r; constructor].
Qed.

Lemma same_matches_search icase total a b s :
  (forall s0 c, (exists s1 c1, mtc icase total a s0 c s1 c1) ->
                exists s1 c1, mtc icase total b s0 c s1 c1) ->
  search icase total a s <> None -> search icase total b s <> None.
Proof.
  intros Hab Ha.
  destruct (search icase total a s) as [m|] eqn:E; [|congruence].
  apply search_sound in E as (before & -> & Hm).
  destruct (Hab _ _ (ex_intro _ _ (ex_intro _ _ Hm))) as (s1 & c1 & Hb).
  eapply search_complete. exact Hb.
Qed.

Lemma same_matches_test icase r r' s :
  same_matches icase (slen s) r r' ->
  re_test (mkPattern icase r) s = re_test (mkPattern icase r') s.
Proof.
  intros Hsame. unfold re_test, re_match. cbn [p_icase p_re].
  pose proof (same_matches_search icase (slen s) r r' s
                (fun s0 c => proj1 (Hsame s0 c))) as H1.
  pose proof (same_matches_search icase (slen s) r' r s
                (fun s0 c => proj2 (Hsame s0 c))) as H2.
  destruct (search icase (slen s) r s), (search icase (slen s) r' s);
    try reflexivity; exfalso; [apply H1 | apply H2]; congruence.
Qed.

(** The patterns of the page and of the backend accept what the
    patterns of the route accept. *)
Lemma instagram_link_test kind url :
  re_test (instagram_link kind) url
  = re_test (re [Bol; lit "http"; opt (chr "s"); lit "://"; opt (Group 1 (lit "www."));
                 lit ("instagram.com/" +:+ kind +:+ "/"); plus word_or_dash]) url.
Proof.
  unfold instagram_link, re, url_head. cbn [app seqs].
  apply same_matches_test.
  repeat apply same_matches_seq_r. apply same_matches_opt_tail.
Qed.

Lemma same_matches_group icase total n r :
  same_matches icase total (Group n r) r.
Proof.
  intros s c. split.
  - intros (s1 & c1 & H). inversion H; subst. eauto.
  - intros (s1 & c1 & H). eexists s1, _. apply mtc_group. exact H.
Qed.

(** Where a pattern matches, what follows its first part matches. *)
Lemma test_tail icase a r s :
  re_test (mkPattern icase (Seq a r)) s = true ->
  re_test (mkPattern icase r) s = true.
Proof.
  unfold re_test, re_match. cbn [p_icase p_re].
  destruct (search icase (slen s) (Seq a r) s) as [m|] eqn:E; [|discriminate].
  intros _. generalize dependent (slen s). intros total E.
  apply search_sound in E as (before & -> & Hm).
  inversion Hm as [| | |r1 r2 s' c' s1 c1 s2 c2 H1 H2| | | | |]; subst.
  destruct (mtc_prefix _ _ _ _ _ _ _ H1) as [pre Hpre].
  destruct (mtc_any_captures _ _ _ _ _ _ _ H2 []) as [c2' H2'].
  rewrite Hpre, <- append_assoc.
  pose proof (search_complete icase total r (before +:+ pre) _ _ _ H2') as Hs.
  destruct (search icase total r _); [reflexivity | congruence].
Qed.

Lemma first_match_In ps s m :
  first_match ps s = Some m -> exists p, In p ps /\ re_match p s = Some m.
Proof.
  induction ps as [|p ps IH]; cbn [first_match]; [discriminate|].
  destruct (re_match p s) as [m'|] eqn:E.
  - intros [= <-]. exists p. split; [left; reflexivity | exact E].
  - intros H. destruct (IH H) as (p' & Hin & Hp'). exists p'. split; [right|]; assumption.
Qed.

(* ===================================================================== *)
(** ** The validators of the page, of the route and of the backend *)
(* ===================================================================== *)

Lemma valid_pattern_test kind url :
  re_test (re [Bol; lit "http"; opt (chr "s"); lit "://"; opt (Group 1 (lit "www."));
               lit ("instagram.com/" +:+ kind +:+ "/"); plus word_or_dash]) url = true ->
  re_test (re [lit ("instagram.com/" +:+ kind +:+ "/"); cap (plus word_or_dash)]) url = true.
Proof.
  unfold re. cbn [seqs]. intros H.
  do 5 apply test_tail in H.
  erewrite same_matches_test; [exact H|].
  apply same_matches_seq_r. apply same_matches_group.
Qed.

Lemma client_validateInstagramUrl_route url :
  Client.validateInstagramUrl url = existsb (fun p => re_test p url) validPatterns.
Proof.
  unfold Client.validateInstagramUrl, validPatterns.
  cbn [map existsb]. rewrite !instagram_link_test.
  set (p := re_test _ url). set (reel := re_test _ url).
  set (reels := re_test _ url). set (tv := re_test _ url).
  destruct p, reel, reels, tv; reflexivity.
Qed.

Lemma backend_validateInstagramUrl_route url :
  Backend.validateInstagramUrl (str url) = existsb (fun p => re_test p url) validPatterns.
Proof.
  unfold Backend.validateInstagramUrl, validPatterns.
  cbn [map existsb]. rewrite !instagram_link_test.
  set (p := re_test _ url). set (reel := re_test _ url).
  set (reels := re_test _ url). set (tv := re_test _ url).
  destruct url as [|ch url]; [vm_compute; reflexivity|].
  cbn [truthy String.eqb negb].
  destruct p, reel, reels, tv; reflexivity.
Qed.

(** X1. The page, the route and the backend accept the same
    Instagram URLs: the optional trailing slash of the page's and of the
    backend's patterns, and the order of the patterns, make no
    difference. So an Instagram URL the page lets through passes the
    format check of the route, and one that passes the check of the
    route passes the check of the backend. *)
Theorem instagram_validators_agree (url : string) :
  Client.validateInstagramUrl url = existsb (fun p => re_test p url) validPatterns
  /\ Backend.validateInstagramUrl (str url)
     = existsb (fun p => re_test p url) validPatterns.
Proof.
  split; [apply client_validateInstagramUrl_route | apply backend_validateInstagramUrl_route].
Qed.

(** A Facebook URL the page accepts is one the route treats as a Facebook
    URL: the page's patterns are the route's, anchored at the scheme and
    the host. *)
Lemma client_validateFacebookUrl_route (url : string) :
  Client.validateFacebookUrl url = true -> isFacebookURL url = true.
Proof.
  unfold Client.validateFacebookUrl, isFacebookURL, fbPatterns, url_head, re.
  cbn [existsb app seqs]. rewrite !orb_true_iff.
  intros [H|[H|[H|[H|H]]]]; [| | | |discriminate].
  - do 5 apply test_tail in H. rewrite H. auto.
  - do 5 apply test_tail in H. rewrite H. auto.
  - do 5 apply test_tail in H. rewrite H. auto 7.
  - do 4 apply test_tail in H. rewrite H. auto.
Qed.

Lemma includes_mono p q s :
  occurs_in p q -> includes q s = true -> includes p s = true.
Proof.
  rewrite !includes_iff. apply occurs_in_trans.
Qed.

Lemma isFacebookShareURL_includes url :
  isFacebookShareURL url = includes "facebook.com/share/" url.
Proof.
  unfold isFacebookShareURL, sharePatterns. cbn [existsb]. rewrite !lit_test.
  destruct (includes "facebook.com/share/" url) eqn:E;
    [rewrite !orb_true_r; reflexivity|].
  assert (Hno : forall q, occurs_in "facebook.com/share/" q -> includes q url = false).
  { intros q Hq. destruct (includes q url) eqn:Eq; [|reflexivity].
    rewrite (includes_mono _ _ _ Hq Eq) in E. discriminate. }
  rewrite (Hno "facebook.com/share/r/") by (exists "", "r/"; reflexivity).
  rewrite (Hno "facebook.com/share/v/") by (exists "", "v/"; reflexivity).
  rewrite (Hno "facebook.com/share/reel/") by (exists "", "reel/"; reflexivity).
  rewrite (Hno "m.facebook.com/share/r/") by (exists "m.", "r/"; reflexivity).
  reflexivity.
Qed.

Lemma share_is_facebook url : isFacebookShareURL url = true -> isFacebookURL url = true.
Proof.
  rewrite isFacebookShareURL_includes. intros H.
  unfold isFacebookURL, fbPatterns. cbn [existsb]. rewrite !lit_test, H.
  rewrite !orb_true_r. reflexivity.
Qed.

(** X3. A share-style link is exactly a URL that contains
    [facebook.com/share/]: the four other patterns of the list add
    nothing. Every share-style link is also a Facebook URL, so the
    resolver runs on each of them. *)
Theorem share_links_classified (url : string) :
  isFacebookShareURL url = includes "facebook.com/share/" url
  /\ implb (isFacebookShareURL url) (isFacebookURL url) = true.
Proof.
  split; [apply isFacebookShareURL_includes|].
  destruct (isFacebookShareURL url) eqn:E; [|reflexivity].
  cbn [implb]. apply share_is_facebook. exact E.
Qed.

(* ===================================================================== *)
(** ** What the capture groups hold *)
(* ===================================================================== *)

Lemma mtc_cap_plus_cls icase total n neg rs s c s1 c1 :
  mtc icase total (Group n (plus (Cls neg rs))) s c s1 c1 ->
  exists pre, s = pre +:+ s1 /\ pre <> "" /\ all_chars (in_cls icase neg rs) pre
              /\ c1 = (n, pre) :: c.
Proof.
  intros H. inversion H as [| | | | | | | |n' r' s' c' s1' c1' Hp]; subst.
  apply mtc_plus_cls_inv in Hp as (-> & pre & -> & Hne & Hall).
  exists pre. repeat split; try assumption.
  rewrite slen_append, Nat.add_sub, take_str_append. reflexivity.
Qed.

(** A literal followed by a captured run of a class. *)
Lemma lit_cap_match l neg rs url m :
  re_match (re [lit l; cap (plus (Cls neg rs))]) url = Some m ->
  group1 m <> "" /\ all_chars (in_cls false neg rs) (group1 m)
  /\ occurs_in (l +:+ group1 m) url.
Proof.
  unfold re_match, re. cbn [seqs p_icase p_re cap].
  generalize (slen url). intros total E.
  apply search_sound in E as (before & Hs & Hm).
  inversion Hm as [| | |r1 r2 s' c' s1 c1 s2 c2 H1 H2| | | | |]; subst.
  apply mtc_lit_inv in H1 as [Ht ->].
  apply mtc_cap_plus_cls in H2 as (pre & -> & Hne & Hall & Hc).
  unfold group1. rewrite Hc. cbn [get_capture Nat.eqb].
  repeat split; try assumption.
  exists before, (m_rest m). rewrite Ht, !append_assoc. reflexivity.
Qed.

(** A shortcode pattern captures at least one character. *)
Lemma shortcode_pattern_capture p url m :
  In p shortcode_patterns -> re_match p url = Some m -> group1 m <> "".
Proof.
  unfold shortcode_patterns. cbn [In].
  intros [<-|[<-|[<-|[<-|[]]]]] Hm; apply lit_cap_match in Hm as (Hne & _); exact Hne.
Qed.

(** X4. The shortcode read from a URL is never empty, consists
    of letters, digits, underscores and dashes only, and stands in the
    URL right after [instagram.com/], one of the four kinds and a slash. *)
Theorem shortcode_is_well_formed (url code : string) :
  extractShortcode url = str code ->
  code <> "" /\ all_chars shortcode_char code
  /\ exists kind, In kind link_kinds
                  /\ occurs_in ("instagram.com/" +:+ kind +:+ "/" +:+ code) url.
Proof.
  unfold extractShortcode.
  destruct (first_match shortcode_patterns url) as [m|] eqn:E; [|discriminate].
  intros [= <-]. apply first_match_In in E as (p & Hin & Hm).
  unfold shortcode_patterns in Hin. cbn [In] in Hin.
  destruct Hin as [<-|[<-|[<-|[<-|[]]]]];
    apply lit_cap_match in Hm as (Hne & Hall & Hocc);
    (repeat split; [exact Hne | exact Hall |]).
  - exists "p". split; [cbn; auto | exact Hocc].
  - exists "reel". split; [cbn; auto | exact Hocc].
  - exists "reels". split; [cbn; auto | exact Hocc].
  - exists "tv". split; [cbn; auto | exact Hocc].
Qed.

Lemma shortcode_is_well_formed_witness :
  let url := "https://www.instagram.com/reel/Cx_9-aB/?igshid=1" in
  extractShortcode url = str "Cx_9-aB"
  /\ "Cx_9-aB" <> "" /\ all_chars shortcode_char "Cx_9-aB"
  /\ exists kind, In kind link_kinds
                  /\ occurs_in ("instagram.com/" +:+ kind +:+ "/" +:+ "Cx_9-aB") url.
Proof.
  split; [vm_compute; reflexivity|].
  apply (shortcode_is_well_formed "https://www.instagram.com/reel/Cx_9-aB/?igshid=1").
  vm_compute; reflexivity.
Defined.

(* ===================================================================== *)
(** ** Counting the requests of a computation *)
(* ===================================================================== *)

Section Sends.
Context {A B : Type}.
Variable P : Request -> Prop.

Lemma sends_ret n (a : A) : sends P n (ret a).
Proof. intros tr. exists []. rewrite app_nil_r. cbn. auto with arith. Qed.

Lemma sends_throw n e : sends P n (@throw A e).
Proof. intros tr. exists []. rewrite app_nil_r. cbn. auto with arith. Qed.

Lemma sends_lift n (o : outcome A) : sends P n (lift o).
Proof. intros tr. exists []. rewrite app_nil_r. cbn. auto with arith. Qed.

Lemma sends_bind n1 n (m : M A) (f : A -> M B) :
  sends P n1 m -> (n1 <= n)%nat -> (forall a, sends P (n - n1) (f a)) ->
  sends P n (bind m f).
Proof.
  intros Hm Hle Hf tr. unfold bind.
  destruct (Hm tr) as (e1 & Htr1 & Hlen1 & HP1).
  destruct (m tr) as [[a|e] tr1]; cbn [snd] in Htr1; subst tr1.
  - destruct (Hf a (tr ++ e1)) as (e2 & Htr2 & Hlen2 & HP2).
    exists (e1 ++ e2). rewrite Htr2, app_assoc, length_app.
    repeat split; [lia | apply Forall_app; auto].
  - exists e1. cbn [snd]. repeat split; [lia | exact HP1].
Qed.
End Sends.

Lemma sends_fetch P n w req : P req -> (1 <= n)%nat -> sends P n (fetch w req).
Proof.
  intros HP Hle tr. exists [req]. unfold fetch.
  destruct (net w (List.length tr) req); cbn [snd List.length];
    (repeat split; [lia | constructor; [exact HP | constructor]]).
Qed.

Lemma sends_try_catch {A} P n (body : M A) handler :
  sends P n body -> (forall e, sends P 0 (handler e)) ->
  sends P n (try_catch body handler).
Proof.
  intros Hb Hh tr. unfold try_catch.
  destruct (Hb tr) as (e1 & Htr1 & Hlen1 & HP1).
  destruct (body tr) as [[a|e] tr1]; cbn [snd] in Htr1; subst tr1.
  - exists e1. cbn [snd]. auto.
  - destruct (Hh e (tr ++ e1)) as (e2 & Htr2 & Hlen2 & HP2).
    exists (e1 ++ e2). rewrite Htr2, app_assoc, length_app.
    repeat split; [lia | apply Forall_app; auto].
Qed.

Lemma sends_mono {A} (P Q : Request -> Prop) n (m : M A) :
  (forall req, P req -> Q req) -> sends P n m -> sends Q n m.
Proof.
  intros HPQ H tr. destruct (H tr) as (extra & Htr & Hlen & HP).
  exists extra. repeat split; [exact Htr | exact Hlen |].
  eapply Forall_impl; [exact HP | exact HPQ].
Qed.

(** One step of a count: the constructs of the monad, and the tests of
    the code. A request leaves the obligation that it is a permitted one. *)
Ltac sends_step :=
  lazymatch goal with
  | |- sends _ _ (ret _) => apply sends_ret
  | |- sends _ _ (throw _) => apply sends_throw
  | |- sends _ _ (lift _) => apply sends_lift
  | |- sends _ _ (fetch _ _) => apply sends_fetch; [|lia]
  | |- sends _ _ (try_catch _ _) => apply sends_try_catch; [|intros ?]
  | |- sends _ _ (bind (fetch _ _) _) =>
      apply (sends_bind _ 1); [apply sends_fetch; [|lia] | lia | intros ?; cbn [Nat.sub]]
  | |- sends _ _ (bind (lift _) _) =>
      apply (sends_bind _ 0); [apply sends_lift | lia | intros ?; cbn [Nat.sub]]
  | |- sends _ _ (if ?b then _ else _) => destruct b
  | |- sends _ _ (match ?x with _ => _ end) => destruct x
  end.

Ltac count_requests := repeat sends_step.

(** *** The Facebook side *)

Section FacebookBudget.
Variable w : World.

Ltac times_out := eexists; split; [reflexivity | lia].

Lemma share_strategy1_sends url :
  sends (times_out_within 15000) 1 (share_strategy1 w url).
Proof. unfold share_strategy1. count_requests; times_out. Qed.

Lemma share_strategy2_sends shareId :
  sends (times_out_within 15000) 1 (share_strategy2 w shareId).
Proof. unfold share_strategy2. count_requests; times_out. Qed.

Lemma share_strategy3_sends url :
  sends (times_out_within 15000) 2 (share_strategy3 w url).
Proof. unfold share_strategy3. count_requests; times_out. Qed.

Lemma share_strategy4_sends url :
  sends (times_out_within 15000) 1 (share_strategy4 w url).
Proof. unfold share_strategy4. cbv zeta. count_requests; times_out. Qed.

Lemma or_else_next_sends P n1 n strategy next :
  sends P n1 strategy -> (n1 <= n)%nat -> sends P (n - n1) next ->
  sends P n (or_else_next strategy next).
Proof.
  intros Hs Hle Hn. unfold or_else_next.
  apply (sends_bind _ n1); [exact Hs | exact Hle |].
  intros [u|]; [apply sends_ret | exact Hn].
Qed.

Lemma resolveFacebookShareURL_Improved_sends url :
  sends (times_out_within 15000) 5 (resolveFacebookShareURL_Improved w url).
Proof.
  unfold resolveFacebookShareURL_Improved. cbv zeta.
  apply (or_else_next_sends _ 1); [apply share_strategy1_sends | lia |].
  apply (or_else_next_sends _ 1); [apply share_strategy2_sends | lia |].
  apply (or_else_next_sends _ 2); [apply share_strategy3_sends | lia |].
  apply (or_else_next_sends _ 1); [apply share_strategy4_sends | lia |].
  apply sends_ret.
Qed.

Lemma resolve_if_share_sends url : sends any_request 5 (resolve_if_share w url).
Proof.
  unfold resolve_if_share. destruct (isFacebookShareURL url); [|apply sends_ret].
  apply (sends_bind _ 5); [|lia|intros resolved; count_requests].
  apply (sends_mono (times_out_within 15000)); [intros; exact I|].
  apply resolveFacebookShareURL_Improved_sends.
Qed.

Lemma backfill_thumbnail_sends originalUrl result :
  sends any_request 1 (backfill_thumbnail w originalUrl result).
Proof.
  unfold backfill_thumbnail. destruct (negb (truthy (thumbnail result)));
    [|apply sends_ret].
  apply (sends_bind _ 1); [|lia|intros t; count_requests].
  unfold extractFacebookThumbnail. count_requests; exact I.
Qed.

Lemma facebook_methods_send url :
  Forall (sends any_request 1) (facebook_methods w url).
Proof.
  unfold facebook_methods, fetchViaFacebookAPI, fetchViaCobalAPI,
    fetchViaFacebookDirect, fetchViaSnapSave.
  repeat constructor; count_requests; exact I.
Qed.

Lemma fallback_methods_send url :
  Forall (sends any_request 1) (fallback_methods w url).
Proof.
  unfold fallback_methods, fetchViaCobalAPI, fetchViaSnapSave.
  repeat constructor; count_requests; exact I.
Qed.

(** One turn of the loop: a method that loses has cost its own
    requests, the one that wins costs the thumbnail request as well. *)
Lemma attempt_method_requests originalUrl method tr :
  sends any_request 1 method ->
  exists won extra,
    attempt_method w originalUrl method tr = (Ok won, tr ++ extra)
    /\ (List.length extra <= match won with Some _ => 2 | None => 1 end)%nat.
Proof.
  intros Hm. unfold attempt_method, try_catch, bind.
  destruct (Hm tr) as (e1 & Htr1 & Hlen1 & _).
  destruct (method tr) as [[[result|]|e] tr1]; cbn [snd] in Htr1; subst tr1;
    try (exists None, e1; split; [reflexivity | exact Hlen1]).
  destruct (truthy (video_url result));
    [|exists None, e1; split; [reflexivity | exact Hlen1]].
  destruct (backfill_thumbnail_returns w originalUrl result (tr ++ e1))
    as (r' & tr2 & Hfill & _).
  destruct (backfill_thumbnail_sends originalUrl result (tr ++ e1))
    as (e2 & Htr2 & Hlen2 & _).
  rewrite Hfill in Htr2 |- *. cbn [snd] in Htr2. subst tr2.
  exists (Some r'), (e1 ++ e2). rewrite app_assoc, length_app.
  split; [reflexivity | lia].
Qed.

(** The loop sends one request for each method that loses; the method
    that wins sends two. *)
Lemma try_methods_requests originalUrl methods :
  Forall (sends any_request 1) methods ->
  forall tr, exists found extra,
    try_methods w originalUrl methods tr = (Ok found, tr ++ extra)
    /\ (List.length extra
        <= List.length methods + match found with Some _ => 1 | None => 0 end)%nat.
Proof.
  induction 1 as [|method rest Hm _ IH]; intros tr; cbn [try_methods].
  - exists None, []. rewrite app_nil_r. split; [reflexivity | cbn; lia].
  - destruct (attempt_method_requests originalUrl method tr Hm)
      as (won & e1 & Hwon & Hlen1).
    rewrite (bind_ok _ _ _ _ _ Hwon). destruct won as [r|].
    + exists (Some r), e1. split; [reflexivity | cbn [List.length]; lia].
    + destruct (IH (tr ++ e1)) as (found & e2 & Hrest & Hlen2).
      exists found, (e1 ++ e2). rewrite Hrest, app_assoc, length_app.
      split; [reflexivity | cbn [List.length]; lia].
Qed.

Lemma fetchFacebookVideo_sends url : sends any_request 12 (fetchFacebookVideo w url).
Proof.
  intros tr. unfold fetchFacebookVideo.
  destruct (resolve_if_share_never_throws w url tr) as (resolvedUrl & tr0 & Hres).
  destruct (resolve_if_share_sends url tr) as (e0 & Htr0 & Hlen0 & _).
  rewrite Hres in Htr0. cbn [snd] in Htr0. subst tr0.
  rewrite (bind_ok _ _ _ _ _ Hres).
  destruct (try_methods_requests url _ (facebook_methods_send resolvedUrl) (tr ++ e0))
    as (first_pass & e1 & Hfirst & Hlen1).
  rewrite (bind_ok _ _ _ _ _ Hfirst). cbn [facebook_methods List.length] in Hlen1.
  assert (Hany : forall l : list Request, Forall any_request l)
    by (intros l; apply Forall_forall; intros; exact I).
  destruct first_pass as [r|].
  - exists (e0 ++ e1). cbn [ret snd]. rewrite app_assoc, length_app.
    repeat split; [lia | apply Hany].
  - destruct (isFacebookShareURL url && negb (String.eqb url resolvedUrl)).
    + destruct (try_methods_requests url _ (fallback_methods_send url) ((tr ++ e0) ++ e1))
        as (second_pass & e2 & Hsecond & Hlen2).
      rewrite (bind_ok _ _ _ _ _ Hsecond). cbn [fallback_methods List.length] in Hlen2.
      exists (e0 ++ e1 ++ e2). rewrite !app_assoc, !length_app.
      destruct second_pass; cbn [ret throw snd];
        (repeat split; [lia | apply Hany]).
    + exists (e0 ++ e1). cbn [throw snd]. rewrite app_assoc, length_app.
      repeat split; [lia | apply Hany].
Qed.
End FacebookBudget.

(** *** The Instagram side *)

Ltac solve_target :=
  unfold instagram_target; cbn [r_url];
  first [ left; reflexivity
        | right; left; eexists; reflexivity
        | right; right; left; eexists; reflexivity
        | right; right; right; eexists; symmetry; apply append_assoc ].

Section InstagramBudget.
Variable w : World.
Variable url : string.

Lemma fetchViaBackend_sends : sends (instagram_target w url) 1 (fetchViaBackend w url).
Proof. unfold fetchViaBackend. cbv zeta. count_requests. solve_target. Qed.

Lemma fetchViaInstagramAPI_sends shortcode :
  sends (instagram_target w url) 1 (fetchViaInstagramAPI w shortcode).
Proof. unfold fetchViaInstagramAPI. cbv zeta. count_requests. solve_target. Qed.

Lemma fetchViaAlternativeService_sends :
  sends (instagram_target w url) 1 (fetchViaAlternativeService w url).
Proof. unfold fetchViaAlternativeService. cbv zeta. count_requests. solve_target. Qed.

Lemma fetchViaOEmbed_sends : sends (instagram_target w url) 2 (fetchViaOEmbed w url).
Proof.
  unfold fetchViaOEmbed. cbv zeta. apply sends_try_catch; [|intros e; apply sends_ret].
  apply (sends_bind _ 1); [apply sends_fetch; [solve_target | lia] | lia |].
  intros response. cbn [Nat.sub].
  apply (sends_bind _ 0); [|lia|].
  - destruct (resp_ok response); [|apply sends_ret].
    apply (sends_bind _ 0); [apply sends_lift | lia |]. intros data.
    apply (sends_bind _ 0); [|lia|intros from_html; count_requests].
    destruct (truthy (field "html" data)); [|apply sends_ret].
    apply (sends_bind _ 0); [|lia|intros html; count_requests].
    unfold html_of. count_requests.
  - intros found. cbn [Nat.sub]. destruct found; [apply sends_ret|].
    apply fetchViaAlternativeService_sends.
Qed.

Lemma tryFetchWithUserAgent_sends userAgent :
  sends (instagram_target w url) 1 (tryFetchWithUserAgent w url userAgent).
Proof. unfold tryFetchWithUserAgent. count_requests. solve_target. Qed.

Lemma tryEmbedApproach_sends shortcode :
  sends (instagram_target w url) 1 (tryEmbedApproach w shortcode).
Proof. unfold tryEmbedApproach. cbv zeta. count_requests. solve_target. Qed.

Lemma try_user_agents_sends agents :
  sends (instagram_target w url) (List.length agents) (try_user_agents w url agents).
Proof.
  induction agents as [|userAgent rest IH]; cbn [try_user_agents List.length].
  - apply sends_ret.
  - apply (sends_bind _ 1); [|lia|].
    + apply sends_try_catch; [|intros e; apply sends_ret].
      apply (sends_bind _ 1); [apply tryFetchWithUserAgent_sends | lia |].
      intros result. count_requests.
    + intros won. cbn [Nat.sub]. rewrite Nat.sub_0_r.
      destruct won; [apply sends_ret | exact IH].
Qed.

Lemma fetchViaPageScrape_sends : sends (instagram_target w url) 5 (fetchViaPageScrape w url).
Proof.
  unfold fetchViaPageScrape. apply sends_try_catch; [|intros e; apply sends_ret].
  apply (sends_bind _ 4); [apply (try_user_agents_sends userAgents) | lia |].
  intros scraped. cbn [Nat.sub]. destruct scraped; [apply sends_ret|]. cbv zeta.
  destruct (truthy (extractShortcode url)); [|apply sends_ret].
  apply (sends_bind _ 1); [apply tryEmbedApproach_sends | lia |].
  intros embedResult. count_requests.
Qed.

Lemma try_approaches_sends P n k approach rest :
  sends P n approach -> sends P k (try_approaches rest) ->
  sends P (n + k) (try_approaches (approach :: rest)).
Proof.
  intros Ha Hrest. cbn [try_approaches].
  apply (sends_bind _ n); [|lia|].
  - apply sends_try_catch; [|intros e; apply sends_ret].
    apply (sends_bind _ n); [exact Ha | lia |]. intros result. count_requests.
  - intros won. replace (n + k - n)%nat with k by lia.
    destruct won; [apply sends_ret | exact Hrest].
Qed.

Lemma fetchInstagramData_sends : sends (instagram_target w url) 9 (fetchInstagramData w url).
Proof.
  unfold fetchInstagramData.
  apply (sends_bind _ 1); [apply fetchViaBackend_sends | lia |].
  intros from_backend. cbn [Nat.sub]. destruct from_backend; [apply sends_ret|].
  cbv zeta. destruct (negb (truthy (extractShortcode url))); [apply sends_throw|].
  apply (sends_bind _ 8); [|lia|intros found; count_requests].
  unfold instagram_approaches.
  apply (try_approaches_sends _ 1 7); [apply fetchViaInstagramAPI_sends|].
  apply (try_approaches_sends _ 5 2); [apply fetchViaPageScrape_sends|].
  apply (try_approaches_sends _ 2 0); [apply fetchViaOEmbed_sends|].
  cbn [try_approaches]. apply sends_ret.
Qed.
End InstagramBudget.

(* ===================================================================== *)
(** ** What the Instagram extraction and the handler answer *)
(* ===================================================================== *)

Section Answers.
Variable w : World.

Lemma try_approaches_never_throws approaches : never_throws (try_approaches approaches).
Proof.
  induction approaches as [|approach rest IH]; intros tr; cbn [try_approaches].
  - unfold ret. eauto.
  - destruct (try_catch_never_throws
                (result <- approach;; if has_video result then ret result else ret None)
                None tr) as (won & tr1 & Hwon).
    rewrite (bind_ok _ _ _ _ _ Hwon).
    destruct won as [result|]; [unfold ret; eauto | apply IH].
Qed.

Lemma try_approaches_has_video approaches :
  forall tr r tr',
    try_approaches approaches tr = (Ok (Some r), tr') -> truthy (video_url r) = true.
Proof.
  induction approaches as [|approach rest IH]; intros tr r tr' H;
    cbn [try_approaches] in H.
  - discriminate H.
  - apply bind_inv in H as (won & tr1 & Hwon & H).
    destruct won as [result|]; [|exact (IH _ _ _ H)].
    injection H as -> ->.
    unfold try_catch, bind, ret in Hwon.
    destruct (approach tr) as [[result|e] tr2]; [|discriminate Hwon].
    destruct (has_video result) eqn:Hv; [|discriminate Hwon].
    injection Hwon as -> ->. exact Hv.
Qed.

Lemma fetchViaBackend_has_video url tr r tr' :
  fetchViaBackend w url tr = (Ok (Some r), tr') -> truthy (video_url r) = true.
Proof.
  unfold fetchViaBackend. cbv zeta. intros H. run_cases H; simplify_eq.
  cbn [video_url].
  match goal with
  | Hc : _ && _ = true |- _ => apply andb_true_iff in Hc as [_ Hc]; exact Hc
  end.
Qed.

Lemma fetchViaBackend_never_throws url : never_throws (fetchViaBackend w url).
Proof. apply try_catch_never_throws. Qed.

(** [fetchInstagramData] returns a result with a video URL, or throws
    one of its two errors. *)
Lemma fetchInstagramData_outcomes url tr :
  (exists r tr', fetchInstagramData w url tr = (Ok r, tr')
                 /\ truthy (video_url r) = true)
  \/ (exists tr', fetchInstagramData w url tr = (Throw NOT_FOUND_IG, tr'))
  \/ (truthy (extractShortcode url) = false
      /\ exists tr', fetchInstagramData w url tr = (Throw "Invalid Instagram URL", tr')).
Proof.
  unfold fetchInstagramData.
  destruct (fetchViaBackend_never_throws url tr) as (from_backend & tr0 & Hb).
  rewrite (bind_ok _ _ _ _ _ Hb). destruct from_backend as [r|].
  - left. exists r, tr0. split; [reflexivity|].
    exact (fetchViaBackend_has_video _ _ _ _ Hb).
  - cbv zeta. destruct (truthy (extractShortcode url)) eqn:Hcode; cbn [negb].
    + destruct (try_approaches_never_throws
                  (instagram_approaches w (to_string (extractShortcode url)) url) tr0)
        as (found & tr1 & Hfound).
      rewrite (bind_ok _ _ _ _ _ Hfound). destruct found as [r|].
      * left. exists r, tr1. split; [reflexivity|].
        exact (try_approaches_has_video _ _ _ _ Hfound).
      * right. left. unfold throw. eauto.
    + right. right. split; [reflexivity|]. unfold throw. eauto.
Qed.

Lemma valid_url_has_shortcode url :
  existsb (fun p => re_test p url) validPatterns = true ->
  truthy (extractShortcode url) = true.
Proof.
  intros Hvalid.
  assert (Hsome : first_match shortcode_patterns url <> None).
  { apply first_match_some. unfold validPatterns in Hvalid.
    cbn [map existsb] in Hvalid. rewrite !orb_true_iff in Hvalid.
    unfold shortcode_patterns, matches_some.
    assert (Htest : forall p, re_test p url = true -> re_match p url <> None).
    { intros p. unfold re_test. destruct (re_match p url); [discriminate|congruence]. }
    destruct Hvalid as [H|[H|[H|[H|H]]]]; [| | | |discriminate];
      apply valid_pattern_test, Htest in H;
      eexists; (split; [|exact H]); cbn [In]; auto 6. }
  unfold extractShortcode.
  destruct (first_match shortcode_patterns url) as [m|] eqn:E; [|congruence].
  apply first_match_In in E as (p & Hin & Hm).
  pose proof (shortcode_pattern_capture p url m Hin Hm) as Hne.
  cbn [truthy]. destruct (String.eqb_spec (group1 m) ""); [contradiction | reflexivity].
Qed.

(** The Instagram branch of the handler. *)
Lemma handle_instagram request body url tr :
  request_json request = Ok body ->
  field "url" body = str url ->
  truthy (str url) = true ->
  isFacebookURL url = false ->
  existsb (fun p => re_test p url) validPatterns = true ->
  handle w request tr
  = (videoData <- fetchInstagramData w url;;
     if negb (truthy (video_url videoData))
     then ret (failure 404 NOT_FOUND_IG)
     else ret (mkHttp 200 true undefined (Some videoData))) tr.
Proof.
  intros Hbody Hurl Htruthy Hfb Hvalid. unfold handle.
  rewrite Hbody. unfold lift, bind at 1. rewrite Hurl, Htruthy. cbn [negb to_string].
  rewrite Hfb, Hvalid. reflexivity.
Qed.

(** The answer of the handler, whatever the request. *)
Lemma handle_answers request tr response tr' :
  try_catch (handle w request) (fun message => ret (failure 500 message)) tr
  = (Ok response, tr') ->
  answers_video response \/ answers_error response.
Proof.
  assert (Herr : forall code message,
             In code [400; 429; 500] -> answers_error (failure code message)).
  { intros code message Hin. repeat split. exact Hin. }
  unfold try_catch at 1. unfold handle, lift, bind at 1.
  destruct (request_json request) as [body|e].
  2:{ intros [= <- <-]. right. apply Herr. cbn; auto. }
  destruct (negb (truthy (field "url" body))).
  { intros [= <- <-]. right. apply Herr. cbn; auto. }
  destruct (isFacebookURL (to_string (field "url" body))).
  - unfold try_catch, bind.
    destruct (fetchFacebookVideo_outcomes w (to_string (field "url" body)) tr)
      as [(r & tr1 & -> & Hv)|(tr1 & ->)].
    + rewrite Hv. cbn [negb ret]. intros [= <- <-]. left.
      repeat split. exists r. auto.
    + cbn [ret]. intros [= <- <-]. right. apply Herr. cbn; auto.
  - destruct (negb (existsb _ validPatterns)).
    { intros [= <- <-]. right. apply Herr. cbn; auto. }
    unfold bind.
    destruct (fetchInstagramData_outcomes (to_string (field "url" body)) tr)
      as [(r & tr1 & -> & Hv)|[(tr1 & ->)|(_ & tr1 & ->)]].
    + rewrite Hv. cbn [negb ret]. intros [= <- <-]. left.
      repeat split. exists r. auto.
    + cbn [ret]. intros [= <- <-]. right. apply Herr. cbn; auto.
    + cbn [ret]. intros [= <- <-]. right. apply Herr. cbn; auto.
Qed.
End Answers.

(** X5. The route answers with a video (200, with a video URL
    that is not empty) or with an error (400, 429 or 500, without a
    payload). It has two branches that would answer 404; neither can be
    reached, for a Facebook URL and for an Instagram URL alike. *)
Theorem post_answers (w : World) (now : Z) (request : NextRequest)
    (rateLimitMap : gmap string RateRecord) (tr : trace) :
  let response := (POST w now request rateLimitMap tr).1.1 in
  answers_video response \/ answers_error response.
Proof.
  cbv zeta. unfold POST.
  destruct (checkRateLimit now (client_ip request) rateLimitMap) as [allowed m'].
  destruct allowed; cbn [negb].
  - destruct (try_catch (handle w request) _ tr) as [[response|e] tr'] eqn:H; cbn [fst].
    + exact (handle_answers w _ _ _ _ H).
    + right. repeat split. cbn; auto.
  - cbn [fst]. right. repeat split. cbn; auto.
Qed.

(** X6. For an Instagram URL of a valid format, the route
    answers with a video or with status 500 and the message of the
    exhaustion error. The error [Invalid Instagram URL] of
    [fetchInstagramData] cannot occur: a URL that passes the format check
    has a shortcode. *)
Theorem instagram_request_outcome (w : World) (now : Z) (request : NextRequest)
    (rateLimitMap : gmap string RateRecord) (body : jobject) (url : string) (tr : trace) :
  fst (checkRateLimit now (client_ip request) rateLimitMap) = true ->
  request_json request = Ok body ->
  field "url" body = str url ->
  isFacebookURL url = false ->
  existsb (fun p => re_test p url) validPatterns = true ->
  let response := (POST w now request rateLimitMap tr).1.1 in
  answers_video response \/ response = failure 500 NOT_FOUND_IG.
Proof.
  intros Hallowed Hbody Hurl Hfb Hvalid. cbv zeta. unfold POST.
  destruct (checkRateLimit now (client_ip request) rateLimitMap) as [allowed m'].
  cbn [fst] in Hallowed. subst allowed. cbn [negb].
  assert (Htruthy : truthy (str url) = true).
  { destruct url; [vm_compute in Hvalid; discriminate Hvalid | reflexivity]. }
  pose proof (handle_instagram w request body url tr Hbody Hurl Htruthy Hfb Hvalid)
    as Hhandle.
  unfold try_catch. rewrite !Hhandle. unfold bind.
  destruct (fetchInstagramData_outcomes w url tr)
    as [(r & tr1 & -> & Hv)|[(tr1 & ->)|(Hcode & _)]].
  - rewrite Hv. cbn [negb ret fst]. left. repeat split. exists r. auto.
  - cbn [ret fst]. right. reflexivity.
  - rewrite (valid_url_has_shortcode url Hvalid) in Hcode. discriminate Hcode.
Qed.

Lemma instagram_request_outcome_witness :
  let response := (POST dead_world 0 reel_request ∅ []).1.1 in
  answers_video response \/ response = failure 500 NOT_FOUND_IG.
Proof.
  apply (instagram_request_outcome dead_world 0 reel_request ∅
           [("url", str "https://www.instagram.com/reel/ABC123/")]
           "https://www.instagram.com/reel/ABC123/" []);
    first [reflexivity | vm_compute; reflexivity].
Defined.

Section HandlerRequests.
Variable w : World.

Lemma handle_requests request tr o tr' :
  handle w request tr = (o, tr') ->
  exists extra,
    tr' = tr ++ extra
    /\ (List.length extra <= 12)%nat
    /\ (forall response, o = Ok response -> In (status response) [400; 429] -> extra = [])
    /\ (forall body, request_json request = Ok body ->
                     isFacebookURL (to_string (field "url" body)) = false ->
                     (List.length extra <= 9)%nat
                     /\ Forall (instagram_target w (to_string (field "url" body))) extra).
Proof.
  assert (Hnone : tr' = tr ->
             exists extra : list Request,
               tr' = tr ++ extra /\ (List.length extra <= 12)%nat
               /\ (forall response, o = Ok response ->
                                    In (status response) [400; 429] -> extra = [])
               /\ (forall body : jobject, request_json request = Ok body ->
                     isFacebookURL (to_string (field "url" body)) = false ->
                     (List.length extra <= 9)%nat
                     /\ Forall (instagram_target w (to_string (field "url" body))) extra)).
  { intros ->. exists []. rewrite app_nil_r. cbn [List.length].
    repeat split; auto with arith. }
  unfold handle, lift, bind at 1.
  destruct (request_json request) as [body|e]; [|(intros Heq; injection Heq as Ho Htr; apply Hnone; symmetry; exact Htr)].
  destruct (negb (truthy (field "url" body))); [(intros Heq; injection Heq as Ho Htr; apply Hnone; symmetry; exact Htr)|].
  destruct (isFacebookURL (to_string (field "url" body))) eqn:Hfb.
  - unfold try_catch, bind.
    destruct (fetchFacebookVideo_sends w (to_string (field "url" body)) tr)
      as (extra & Htr & Hlen & _).
    destruct (fetchFacebookVideo w (to_string (field "url" body)) tr) as [[r|e] tr1];
      cbn [snd] in Htr; subst tr1.
    + destruct (negb (truthy (video_url r))); cbn [ret]; intros Heq; injection Heq as <- <-;
        exists extra;
        (repeat split; [exact Hlen | intros ? [= <-] [?|[?|[]]]; discriminate
                        | congruence | congruence]).
    + cbn [ret]. intros Heq; injection Heq as <- <-. exists extra.
      repeat split; [exact Hlen | intros ? [= <-] [?|[?|[]]]; discriminate
                     | congruence | congruence].
  - destruct (negb (existsb _ validPatterns)); [(intros Heq; injection Heq as Ho Htr; apply Hnone; symmetry; exact Htr)|].
    unfold bind.
    destruct (fetchInstagramData_sends w (to_string (field "url" body)) tr)
      as (extra & Htr & Hlen & Htarget).
    destruct (fetchInstagramData w (to_string (field "url" body)) tr) as [[r|e] tr1];
      cbn [snd] in Htr; subst tr1.
    + destruct (negb (truthy (video_url r))); cbn [ret]; intros Heq; injection Heq as <- <-;
        exists extra;
        (repeat split; [lia | intros ? [= <-] [?|[?|[]]]; discriminate
                        | exact Hlen | congruence]).
    + intros Heq; injection Heq as <- <-. exists extra.
      repeat split; [lia | intros ?; discriminate
                     | exact Hlen | congruence].
Qed.
End HandlerRequests.

(** X7. One call of the route sends at most twelve requests,
    and it only appends to the log; an answer with status 400 or 429 is
    given without any request. *)
Theorem post_request_budget (w : World) (now : Z) (request : NextRequest)
    (rateLimitMap : gmap string RateRecord) (tr : trace) :
  exists extra,
    (POST w now request rateLimitMap tr).2 = tr ++ extra
    /\ (List.length extra <= 12)%nat
    /\ (In (status (POST w now request rateLimitMap tr).1.1) [400; 429] -> extra = []).
Proof.
  unfold POST.
  destruct (checkRateLimit now (client_ip request) rateLimitMap) as [allowed m'].
  destruct allowed; cbn [negb].
  - unfold try_catch.
    destruct (handle w request tr) as [o tr1] eqn:Hh.
    destruct (handle_requests w request tr o tr1 Hh) as (extra & -> & Hlen & H400 & _).
    exists extra. destruct o as [response|e]; cbn [snd fst ret].
    + repeat split; [exact Hlen|]. exact (H400 response eq_refl).
    + repeat split; [exact Hlen|]. cbn. intros [H|[H|[]]]; discriminate H.
  - exists []. rewrite app_nil_r. cbn [snd]. auto with arith.
Qed.

(** X8. For a URL that is not a Facebook URL, one call of the
    route sends at most nine requests, each of them to the URL itself,
    to a post page on [www.instagram.com], to the oEmbed endpoint of
    Instagram, or to the reel endpoint of the backend. *)
Theorem instagram_requests_stay_on_instagram (w : World) (now : Z)
    (request : NextRequest) (rateLimitMap : gmap string RateRecord)
    (body : jobject) (tr : trace) :
  request_json request = Ok body ->
  isFacebookURL (to_string (field "url" body)) = false ->
  exists extra,
    (POST w now request rateLimitMap tr).2 = tr ++ extra
    /\ (List.length extra <= 9)%nat
    /\ Forall (instagram_target w (to_string (field "url" body))) extra.
Proof.
  intros Hbody Hfb. unfold POST.
  destruct (checkRateLimit now (client_ip request) rateLimitMap) as [allowed m'].
  destruct allowed; cbn [negb].
  - unfold try_catch.
    destruct (handle w request tr) as [o tr1] eqn:Hh.
    destruct (handle_requests w request tr o tr1 Hh) as (extra & -> & _ & _ & Hig).
    destruct (Hig body Hbody Hfb) as [Hlen Htarget].
    exists extra. destruct o; cbn [snd ret]; auto.
  - exists []. rewrite app_nil_r. cbn [snd List.length]. auto with arith.
Qed.

Lemma instagram_requests_stay_on_instagram_witness :
  exists extra,
    (POST dead_world 0 reel_request ∅ []).2 = [] ++ extra
    /\ (List.length extra <= 9)%nat
    /\ Forall (instagram_target dead_world "https://www.instagram.com/reel/ABC123/") extra.
Proof.
  apply (instagram_requests_stay_on_instagram dead_world 0 reel_request ∅
           [("url", str "https://www.instagram.com/reel/ABC123/")] []);
    first [reflexivity | vm_compute; reflexivity].
Defined.

(* ===================================================================== *)
(** ** The share-link resolver *)
(* ===================================================================== *)

Lemma string_of_uint_digits (d : Decimal.uint) :
  all_chars digit_char (NilZero.string_of_uint d).
Proof.
  assert (Hraw : forall d, all_chars digit_char (NilEmpty.string_of_uint d)).
  { clear d. unfold all_chars.
    induction d; cbn [NilEmpty.string_of_uint list_ascii_of_string];
      constructor; try assumption; reflexivity. }
  destruct d; try apply Hraw. repeat constructor.
Qed.

Lemma string_of_N_digits (n : N) : all_chars digit_char (string_of_N n).
Proof. apply string_of_uint_digits. Qed.

Lemma digit_not_f ch : digit_char ch -> Ascii.eqb "f" ch = false.
Proof.
  destruct ch as [[] [] [] [] [] [] [] []]; vm_compute; congruence.
Qed.

Lemma includes_share_digits d :
  all_chars digit_char d -> includes "facebook.com/share/" d = false.
Proof.
  unfold all_chars. induction d as [|ch d IH]; cbn [list_ascii_of_string]; intros H.
  - reflexivity.
  - inversion H as [|? ? Hch Hd]; subst.
    cbn [includes strip_prefix]. rewrite (digit_not_f ch Hch). exact (IH Hd).
Qed.

(** The URL the resolver builds from an identifier is a canonical one. *)
Lemma reel_url_canonical d :
  all_chars digit_char d -> canonical_fb ("https://www.facebook.com/reel/" +:+ d) = true.
Proof.
  intros Hd. unfold canonical_fb. rewrite isFacebookShareURL_includes.
  change (includes "facebook.com/share/" ("https://www.facebook.com/reel/" +:+ d))
    with (includes "facebook.com/share/" d).
  rewrite (includes_share_digits d Hd). cbn [negb andb].
  unfold isFacebookURL, fbPatterns. cbn [existsb]. rewrite lit_test.
  replace (includes "facebook.com/reel/" ("https://www.facebook.com/reel/" +:+ d))
    with true; [reflexivity|].
  symmetry. apply includes_iff. exists "https://www.", d. reflexivity.
Qed.

Lemma alnum_in_alphabet ch :
  in_cls true false [("A"%char, "Z"%char); ("a"%char, "z"%char); ("0"%char, "9"%char)] ch ->
  in_alphabet ch.
Proof.
  unfold in_cls, in_alphabet.
  destruct ch as [[] [] [] [] [] [] [] []]; vm_compute; congruence.
Qed.

Lemma shareId_of_shape url id :
  shareId_of url = str id -> id <> "" /\ all_chars in_alphabet id.
Proof.
  unfold shareId_of, shareIdPattern, re_match, re_i. cbn [seqs p_icase p_re cap].
  generalize (slen url). intros total.
  destruct (search true total _ url) as [m|] eqn:E; [|discriminate].
  intros [= <-]. apply search_sound in E as (before & _ & Hm).
  inversion Hm as [| | |r1 r2 s' c' s1 c1 s2 c2 H1 H2| | | | |]; subst.
  inversion H2 as [| | |r1 r2 s' c' s3 c3 s4 c4 H3 H4| | | | |]; subst.
  inversion H4 as [| | |r1 r2 s' c' s5 c5 s6 c6 H5 H6| | | | |]; subst.
  apply mtc_no_group in H1; [|reflexivity].
  apply mtc_no_group in H3; [|reflexivity].
  apply mtc_no_group in H5; [|reflexivity]. subst.
  apply mtc_cap_plus_cls in H6 as (pre & _ & Hne & Hall & Hc).
  unfold group1. rewrite Hc. cbn [get_capture Nat.eqb].
  split; [exact Hne|]. unfold all_chars in *.
  eapply Forall_impl; [exact Hall | exact alnum_in_alphabet].
Qed.

(** X9. The identifier read from a share link is never empty
    and consists of base-62 digits only, so decoding it cannot fail; the
    reel URL built from the decoded number is a canonical Facebook URL. *)
Theorem share_id_decodes (url id : string) :
  shareId_of url = str id ->
  id <> ""
  /\ base62ToDecimal id = Ok (string_of_N (base62_value id))
  /\ canonical_fb ("https://www.facebook.com/reel/" +:+ string_of_N (base62_value id))
     = true.
Proof.
  intros H. apply shareId_of_shape in H as [Hne Hall].
  split; [exact Hne|]. split.
  - unfold base62ToDecimal. rewrite (base62_loop_valid id 0%N Hall). reflexivity.
  - apply reel_url_canonical, string_of_N_digits.
Qed.

Lemma share_id_decodes_witness :
  shareId_of share_link = str "XyZ9"
  /\ base62ToDecimal "XyZ9" = Ok "14195839".
Proof.
  split; [vm_compute; reflexivity|].
  destruct (share_id_decodes share_link "XyZ9") as (_ & Hdecode & _);
    [vm_compute; reflexivity|].
  rewrite Hdecode. vm_compute. reflexivity.
Defined.

(** A literal, a captured run of a class, and a rest without groups. *)
Lemma lit_cap_then_match l neg rs r url m :
  no_group r = true ->
  re_match (re [lit l; cap (plus (Cls neg rs)); r]) url = Some m ->
  group1 m <> "" /\ all_chars (in_cls false neg rs) (group1 m).
Proof.
  intros Hr. unfold re_match, re. cbn [seqs p_icase p_re cap].
  generalize (slen url). intros total E.
  apply search_sound in E as (before & _ & Hm).
  inversion Hm as [| | |r1 r2 s' c' s1 c1 s2 c2 H1 H2| | | | |]; subst.
  inversion H2 as [| | |r1 r2 s' c' s3 c3 s4 c4 H3 H4| | | | |]; subst.
  apply mtc_lit_inv in H1 as [_ ->].
  apply mtc_cap_plus_cls in H3 as (pre & _ & Hne & Hall & ->).
  apply mtc_no_group in H4; [|exact Hr].
  unfold group1. rewrite H4. cbn [get_capture Nat.eqb]. split; assumption.
Qed.

Lemma reel_id_capture p html m :
  In p reelIdPatterns -> re_match p html = Some m -> all_chars digit_char (group1 m).
Proof.
  unfold reelIdPatterns, json_digits, digit. cbn [In].
  intros [<-|[<-|[<-|[<-|[]]]]] Hm.
  - apply lit_cap_then_match in Hm as [_ H]; [exact H | reflexivity].
  - apply lit_cap_then_match in Hm as [_ H]; [exact H | reflexivity].
  - apply lit_cap_match in Hm as (_ & H & _). exact H.
  - apply lit_cap_then_match in Hm as [_ H]; [exact H | reflexivity].
Qed.

Lemma reel_id_loop_canonical ps html u :
  (forall p, In p ps -> In p reelIdPatterns) ->
  reel_id_loop ps html = Some u -> canonical_fb u = true.
Proof.
  induction ps as [|p ps IH]; cbn [reel_id_loop]; intros Hin H; [discriminate|].
  assert (Hrest : forall p', In p' ps -> In p' reelIdPatterns)
    by (intros p' Hp'; apply Hin; right; exact Hp').
  destruct (re_match p html) as [m|] eqn:Hm; [|exact (IH Hrest H)].
  destruct (truthy (str (group1 m))); [|exact (IH Hrest H)].
  injection H as <-. apply reel_url_canonical.
  apply (reel_id_capture p html m); [apply Hin; left; reflexivity | exact Hm].
Qed.

Lemma og_url_loop_canonical ps html u :
  og_url_loop ps html = Some u -> canonical_fb u = true.
Proof.
  induction ps as [|p ps IH]; cbn [og_url_loop]; intros H; [discriminate|].
  destruct (re_match p html) as [m|]; [|exact (IH H)].
  destruct (truthy (str (group1 m)) && canonical_fb (amp (group1 m))) eqn:Hc;
    [|exact (IH H)].
  injection H as <-. apply andb_true_iff in Hc as [_ Hc]. exact Hc.
Qed.

Lemma url_from_markup_canonical html u :
  url_from_markup html = Some u -> canonical_fb u = true.
Proof.
  unfold url_from_markup.
  destruct (re_match metaRefreshPattern html) as [m|].
  - destruct (truthy (str (group1 m)) && canonical_fb (amp (group1 m))) eqn:Hc.
    + intros [= <-]. apply andb_true_iff in Hc as [_ Hc]. exact Hc.
    + destruct (og_url_loop ogUrlPatterns html) as [u'|] eqn:Hog.
      * intros [= <-]. exact (og_url_loop_canonical _ _ _ Hog).
      * apply reel_id_loop_canonical. auto.
  - destruct (og_url_loop ogUrlPatterns html) as [u'|] eqn:Hog.
    + intros [= <-]. exact (og_url_loop_canonical _ _ _ Hog).
    + apply reel_id_loop_canonical. auto.
Qed.

Lemma base62ToDecimal_digits s d :
  base62ToDecimal s = Ok d -> all_chars digit_char d.
Proof.
  unfold base62ToDecimal. destruct (base62_loop 0 s); [|discriminate].
  intros [= <-]. apply string_of_N_digits.
Qed.

Section ResolverOutput.
Variable w : World.

Lemma share_strategy1_output url tr u tr' :
  share_strategy1 w url tr = (Ok (Some u), tr') -> u = url.
Proof. unfold share_strategy1. intros H. run_cases H; simplify_eq; reflexivity. Qed.

Lemma share_strategy2_output shareId tr u tr' :
  share_strategy2 w shareId tr = (Ok (Some u), tr') -> canonical_fb u = true.
Proof.
  unfold share_strategy2. intros H. run_cases H; simplify_eq.
  apply reel_url_canonical. eapply base62ToDecimal_digits. eassumption.
Qed.

Lemma share_strategy3_output url tr u tr' :
  share_strategy3 w url tr = (Ok (Some u), tr') -> canonical_fb u = true.
Proof.
  unfold share_strategy3. intros H. run_cases H; simplify_eq;
    try match goal with
        | Hc : _ && canonical_fb ?u = true |- canonical_fb ?u = true =>
            apply andb_true_iff in Hc as [_ Hc]; exact Hc
        end.
  eapply url_from_markup_canonical. eassumption.
Qed.

Lemma share_strategy4_output url tr u tr' :
  share_strategy4 w url tr = (Ok (Some u), tr') -> canonical_fb u = true.
Proof.
  unfold share_strategy4. cbv zeta. intros H. run_cases H; simplify_eq.
  match goal with
  | Hc : _ && canonical_fb ?u = true |- canonical_fb ?u = true =>
      apply andb_true_iff in Hc as [_ Hc]; exact Hc
  end.
Qed.

Lemma resolver_output url tr u tr' :
  resolveFacebookShareURL_Improved w url tr = (Ok u, tr') ->
  u = url \/ canonical_fb u = true.
Proof.
  unfold resolveFacebookShareURL_Improved, or_else_next. cbv zeta. intros H.
  apply bind_inv in H as ([u1|] & tr1 & H1 & H).
  { injection H as -> ->. left. exact (share_strategy1_output _ _ _ _ H1). }
  apply bind_inv in H as ([u2|] & tr2 & H2 & H).
  { injection H as -> ->. right. exact (share_strategy2_output _ _ _ _ H2). }
  apply bind_inv in H as ([u3|] & tr3 & H3 & H).
  { injection H as -> ->. right. exact (share_strategy3_output _ _ _ _ H3). }
  apply bind_inv in H as ([u4|] & tr4 & H4 & H).
  { injection H as -> ->. right. exact (share_strategy4_output _ _ _ _ H4). }
  injection H as -> ->. left. reflexivity.
Qed.
End ResolverOutput.

(** X10. The share-link resolver returns the URL it was given
    or a URL that passes its own test of a canonical Facebook URL: one
    that is a Facebook URL and not a share-style link. This holds for the
    reel URLs it builds from a decoded identifier and from an identifier
    found in the markup as well, which the code returns without a test. *)
Theorem resolver_returns_canonical (w : World) (url : string) (tr : trace) :
  exists u tr',
    resolveFacebookShareURL_Improved w url tr = (Ok u, tr')
    /\ (u = url \/ canonical_fb u = true).
Proof.
  destruct (resolveFacebookShareURL_Improved_never_throws w url tr) as (u & tr' & H).
  exists u, tr'. split; [exact H|]. exact (resolver_output w url tr u tr' H).
Qed.

(** X11. The share-link resolver always returns, after at most
    five requests, which it appends to the log; each of them is aborted
    after fifteen seconds at the latest. *)
Theorem resolver_is_bounded (w : World) (url : string) (tr : trace) :
  exists u extra,
    resolveFacebookShareURL_Improved w url tr = (Ok u, tr ++ extra)
    /\ (List.length extra <= 5)%nat
    /\ Forall (times_out_within 15000) extra.
Proof.
  destruct (resolveFacebookShareURL_Improved_never_throws w url tr) as (u & tr' & Hret).
  destruct (resolveFacebookShareURL_Improved_sends w url tr) as (extra & Htr & Hlen & Hall).
  rewrite Hret in Htr. cbn [snd] in Htr. subst tr'.
  exists u, extra. auto.
Qed.

(* ===================================================================== *)
(** ** The rate limiter keeps the clients apart *)
(* ===================================================================== *)

(** A call reads and writes the record of its own key only. *)
Lemma checkRateLimit_own_record now ip (m m' : gmap string RateRecord) :
  m !! ip = m' !! ip ->
  fst (checkRateLimit now ip m) = fst (checkRateLimit now ip m')
  /\ snd (checkRateLimit now ip m) !! ip = snd (checkRateLimit now ip m') !! ip.
Proof.
  intros H. unfold checkRateLimit. rewrite <- H.
  destruct (m !! ip) as [record|] eqn:Hrec.
  - destruct (_ <? _)%Z; [cbn [fst snd]; rewrite !lookup_insert_eq; auto|].
    destruct (_ <=? _)%Z; cbn [fst snd]; [split; [reflexivity | congruence]|].
    rewrite !lookup_insert_eq. auto.
  - cbn [fst snd]. rewrite !lookup_insert_eq. auto.
Qed.

Lemma run_checks_per_client ip calls :
  forall m m' : gmap string RateRecord,
    m !! ip = m' !! ip ->
    answers_to ip calls (fst (run_checks calls m))
    = fst (run_checks (calls_with ip calls) m')
    /\ snd (run_checks calls m) !! ip = snd (run_checks (calls_with ip calls) m') !! ip.
Proof.
  induction calls as [|[now ip'] calls IH]; intros m m' Hm.
  - cbn. auto.
  - cbn [run_checks calls_with List.filter snd].
    destruct (checkRateLimit now ip' m) as [b m1] eqn:Hcall.
    destruct (run_checks calls m1) as [bs m2] eqn:Hrun.
    unfold answers_to. cbn [fst snd combine List.filter].
    destruct (String.eqb_spec ip' ip) as [->|Hne].
    + cbn [run_checks map snd].
      destruct (checkRateLimit now ip m') as [b' m1'] eqn:Hcall'.
      destruct (checkRateLimit_own_record now ip m m' Hm) as [Hb Hm1].
      rewrite Hcall, Hcall' in Hb, Hm1. cbn [fst snd] in Hb, Hm1. subst b'.
      destruct (IH m1 m1' Hm1) as [Hans Hfin].
      rewrite Hrun in Hans, Hfin. cbn [fst snd] in Hans, Hfin.
      fold (calls_with ip calls).
      destruct (run_checks (calls_with ip calls) m1') as [bs' m2'].
      cbn [fst snd] in *. split; [f_equal; exact Hans | exact Hfin].
    + pose proof (checkRateLimit_other m ip ip' now Hne) as Hother.
      rewrite Hcall in Hother. cbn [snd] in Hother.
      destruct (IH m1 m') as [Hans Hfin]; [congruence|].
      rewrite Hrun in Hans, Hfin. cbn [fst snd] in Hans, Hfin.
      split; [exact Hans | exact Hfin].
Qed.

(** X12. The rate limiter treats every client on its own: in
    any run of calls, the answers given to one client and the record
    kept for it are those of the run in which the calls of all other
    clients are left out. *)
Theorem rate_limit_is_per_client (ip : string) (calls : list (Z * string))
    (m : gmap string RateRecord) :
  answers_to ip calls (fst (run_checks calls m))
  = fst (run_checks (calls_with ip calls) m)
  /\ snd (run_checks calls m) !! ip = snd (run_checks (calls_with ip calls) m) !! ip.
Proof. apply run_checks_per_client. reflexivity. Qed.

(* ===================================================================== *)
(** ** What the markup parsers return *)
(* ===================================================================== *)

Lemma all_chars_app P a b : all_chars P (a +:+ b) <-> all_chars P a /\ all_chars P b.
Proof.
  unfold all_chars. induction a as [|ch a IH].
  - rewrite append_nil_l. cbn. split; [auto | tauto].
  - rewrite append_cons. cbn [list_ascii_of_string]. rewrite !Forall_cons, IH. tauto.
Qed.

Lemma all_chars_occurs P t s : occurs_in t s -> all_chars P s -> all_chars P t.
Proof.
  intros (a & b & ->) H. apply all_chars_app in H as [_ H].
  apply all_chars_app in H as [H _]. exact H.
Qed.

(** Replacing keeps a property of the characters that the replacement
    has as well. *)
Lemma replace_all_fuel_chars P p by_ : forall fuel s,
  all_chars P by_ -> all_chars P s -> all_chars P (replace_all_fuel fuel p by_ s).
Proof.
  induction fuel as [|fuel IH]; intros s Hby Hs; cbn [replace_all_fuel]; [exact Hs|].
  destruct p as [|c p]; [exact Hs|].
  destruct (strip_prefix (String c p) s) as [rest|] eqn:E.
  - apply strip_prefix_iff in E. subst s. apply all_chars_app in Hs as [_ Hrest].
    apply all_chars_app. split; [exact Hby | apply IH; assumption].
  - destruct s as [|ch s]; [exact Hs|].
    unfold all_chars in *. cbn [list_ascii_of_string] in *.
    inversion Hs; subst. constructor; [assumption | apply IH; assumption].
Qed.

Lemma replace_all_chars P p by_ s :
  all_chars P by_ -> all_chars P s -> all_chars P (replace_all p by_ s).
Proof. apply replace_all_fuel_chars. Qed.

(** Removing a character removes every occurrence of it. *)
Lemma remove_char_fuel c : forall fuel s,
  (slen s < fuel)%nat ->
  all_chars (fun ch => ch <> c) (replace_all_fuel fuel (String c "") "" s).
Proof.
  induction fuel as [|fuel IH]; intros s Hlen; [lia|].
  cbn [replace_all_fuel]. destruct s as [|ch s]; [constructor|].
  cbn [strip_prefix]. unfold slen in *. cbn [String.length] in Hlen.
  destruct (Ascii.eqb_spec c ch) as [->|Hne].
  - rewrite append_nil_l. apply IH. lia.
  - unfold all_chars. cbn [list_ascii_of_string].
    constructor; [congruence | apply IH; lia].
Qed.

Lemma strip_bsl_no_backslash s : no_backslash (strip_bsl s).
Proof. apply remove_char_fuel. lia. Qed.

Lemma amp_no_backslash s : no_backslash s -> no_backslash (amp s).
Proof.
  intros H. apply replace_all_chars; [|exact H].
  repeat constructor. vm_compute. discriminate.
Qed.

Lemma find_video_some ps text u :
  find_video ps text = Some u ->
  u <> "" /\ looks_like_video u = true /\ occurs_in u text.
Proof.
  induction ps as [|p ps IH]; cbn [find_video]; [discriminate|].
  destruct (re_match p text) as [m|] eqn:Hm; [|exact IH].
  destruct (truthy (str (group1 m)) && looks_like_video (group1 m)) eqn:Hc; [|exact IH].
  intros [= <-]. apply andb_true_iff in Hc as [Hne Hv]. cbn [truthy] in Hne.
  split; [|split; [exact Hv | exact (group1_occurs _ _ _ Hm)]].
  intros Heq. rewrite Heq in Hne. discriminate Hne.
Qed.

Lemma find_thumbnail_some ps text :
  find_thumbnail ps text = null
  \/ exists t, find_thumbnail ps text = str t /\ t <> "" /\ occurs_in t text.
Proof.
  induction ps as [|p ps IH]; cbn [find_thumbnail]; [left; reflexivity|].
  destruct (re_match p text) as [m|] eqn:Hm; [|exact IH].
  destruct (truthy (str (group1 m))) eqn:Hne; [|exact IH].
  right. exists (group1 m). split; [reflexivity|].
  split; [|exact (group1_occurs _ _ _ Hm)].
  intros Heq. rewrite Heq in Hne. discriminate Hne.
Qed.

Lemma match_all_fuel_occurs p total x : forall fuel s,
  In x (match_all_fuel fuel p total s) -> occurs_in x s.
Proof.
  induction fuel as [|fuel IH]; intros s; cbn [match_all_fuel]; [intros []|].
  destruct (search (p_icase p) total (p_re p) s) as [m|] eqn:E; [|intros []].
  apply search_sound in E as (before & Hs & _).
  assert (Hrest : occurs_in (m_rest m) s).
  { exists (before +:+ m_text m), "". rewrite Hs at 1.
    rewrite append_nil_r, append_assoc. reflexivity. }
  intros [<-|Hin].
  - exists before, (m_rest m). exact Hs.
  - destruct (slen (m_rest m) <? slen s)%nat.
    + exact (occurs_in_trans _ _ _ (IH _ Hin) Hrest).
    + destruct (m_rest m) as [|ch rest] eqn:Hr; [destruct Hin|].
      apply (occurs_in_trans _ rest); [exact (IH _ Hin)|].
      apply (occurs_in_trans _ (String ch rest)); [|exact Hrest].
      exists (String ch ""), "". rewrite append_nil_r. reflexivity.
Qed.

Lemma match_all_occurs p s l x : match_all p s = Some l -> In x l -> occurs_in x s.
Proof.
  unfold match_all.
  destruct (match_all_fuel (S (slen s)) p (slen s) s) as [|y l'] eqn:E; [discriminate|].
  intros [= <-] Hin. apply (match_all_fuel_occurs p (slen s) x (S (slen s))).
  rewrite E. exact Hin.
Qed.

Lemma find_video_in_scripts_some scripts u :
  find_video_in_scripts scripts = Some u ->
  exists script, In script scripts /\ find_video videoPatterns script = Some u.
Proof.
  induction scripts as [|script rest IH]; cbn [find_video_in_scripts]; [discriminate|].
  destruct (find_video videoPatterns script) as [u'|] eqn:E.
  - intros [= <-]. exists script. split; [left; reflexivity | exact E].
  - intros H. destruct (IH H) as (script' & Hin & Hf).
    exists script'. split; [right; exact Hin | exact Hf].
Qed.

Lemma unescape_ig_no_backslash s : no_backslash (unescape_ig s).
Proof. apply strip_bsl_no_backslash. Qed.

(** X13. When the page scraper finds a video, the URL it
    returns is not empty, looks like a video URL, stands literally in
    the unescaped markup, and holds no backslash; the thumbnail is null
    or a text of the unescaped markup that is not empty. *)
Theorem extracted_video_url (html : string) (r : Result) :
  extractVideoFromHTML html = Some r ->
  (exists u, video_url r = str u /\ u <> "" /\ looks_like_video u = true
             /\ occurs_in u (unescape_ig html) /\ no_backslash u)
  /\ (thumbnail r = null
      \/ exists t, thumbnail r = str t /\ t <> "" /\ occurs_in t (unescape_ig html)).
Proof.
  unfold extractVideoFromHTML. cbv zeta.
  set (cleanHtml := unescape_ig html).
  pose proof (find_thumbnail_some thumbnailPatterns cleanHtml) as Hthumbnail.
  set (found_thumbnail := find_thumbnail thumbnailPatterns cleanHtml) in *.
  assert (Hvideo : forall u, match find_video videoPatterns cleanHtml with
                             | Some url => Some url
                             | None => match match_all scriptPattern cleanHtml with
                                       | Some scriptMatches =>
                                           find_video_in_scripts scriptMatches
                                       | None => None
                                       end
                             end = Some u ->
                             u <> "" /\ looks_like_video u = true
                             /\ occurs_in u cleanHtml).
  { intros u. destruct (find_video videoPatterns cleanHtml) as [u'|] eqn:E.
    - intros [= <-]. exact (find_video_some _ _ _ E).
    - destruct (match_all scriptPattern cleanHtml) as [scripts|] eqn:Hs; [|discriminate].
      intros H. apply find_video_in_scripts_some in H as (script & Hin & Hf).
      apply find_video_some in Hf as (Hne & Hv & Hocc).
      repeat split; [exact Hne | exact Hv |].
      exact (occurs_in_trans _ _ _ Hocc (match_all_occurs _ _ _ _ Hs Hin)). }
  destruct (match find_video videoPatterns cleanHtml with
            | Some url => Some url
            | None => _
            end) as [u|]; [|discriminate].
  intros [= <-]. cbn [video_url thumbnail]. split.
  - destruct (Hvideo u eq_refl) as (Hne & Hv & Hocc).
    exists u. repeat split; try assumption.
    exact (all_chars_occurs _ _ _ Hocc (unescape_ig_no_backslash html)).
  - exact Hthumbnail.
Qed.

Lemma extracted_video_url_witness :
  exists u, video_url (mkResult (str "https://x.cdn/video.mp4") null HD undefined undefined)
            = str u /\ u <> "" /\ looks_like_video u = true
            /\ occurs_in u (unescape_ig embed_markup) /\ no_backslash u.
Proof.
  apply (extracted_video_url embed_markup). vm_compute. reflexivity.
Defined.

(** X14. The video URL the embed-player strategy and the
    mobile-page strategy of Facebook read from the markup holds no
    backslash: the JSON escapes of the capture are removed altogether. *)
Theorem facebook_urls_are_unescaped (html : string) (r : Result) :
  parse_FacebookAPI html = Some r \/ parse_FacebookDirect html = Some r ->
  exists u, video_url r = str u /\ no_backslash u.
Proof.
  unfold parse_FacebookAPI, parse_FacebookDirect. cbv zeta. intros [H|H].
  - destruct (first_match api_hdPatterns html) as [m|].
    + injection H as <-. eexists. split; [reflexivity | apply strip_bsl_no_backslash].
    + destruct (first_match api_sdPatterns html) as [m|]; [|discriminate].
      injection H as <-. eexists. split; [reflexivity | apply strip_bsl_no_backslash].
  - destruct (first_match direct_hdPatterns html) as [m|].
    + injection H as <-. eexists. split; [reflexivity|].
      apply amp_no_backslash, strip_bsl_no_backslash.
    + destruct (first_match direct_fallbackPatterns html) as [m|]; [|discriminate].
      injection H as <-. eexists. split; [reflexivity|].
      apply amp_no_backslash, strip_bsl_no_backslash.
Qed.

Lemma facebook_urls_are_unescaped_witness :
  exists u, video_url (mkResult (str "https://v.fb/hd.mp4") undefined HD undefined undefined)
            = str u /\ no_backslash u.
Proof.
  apply (facebook_urls_are_unescaped sample_fb_markup). left. vm_compute. reflexivity.
Defined.

(* ===================================================================== *)
(** ** From the page to the route *)
(* ===================================================================== *)

(** The answers of the route to a URL the page accepts. *)
Lemma page_url_answer (w : World) (now : Z) (request : NextRequest)
    (rateLimitMap : gmap string RateRecord) (body : jobject) (url : string) (tr : trace) :
  request_json request = Ok body ->
  field "url" body = str url ->
  Client.validateUrl url = true ->
  let response := (POST w now request rateLimitMap tr).1.1 in
  answers_video response
  \/ response = failure 429 "Too many requests. Please wait a moment and try again."
  \/ response = failure 500 NOT_FOUND_FB
  \/ response = failure 500 NOT_FOUND_IG.
Proof.
  intros Hbody Hurl Hpage. cbv zeta. unfold POST.
  destruct (checkRateLimit now (client_ip request) rateLimitMap) as [allowed m'].
  destruct allowed; cbn [negb]; [|right; left; reflexivity].
  assert (Htruthy : truthy (str url) = true).
  { destruct url; [vm_compute in Hpage; discriminate Hpage | reflexivity]. }
  destruct (isFacebookURL url) eqn:Hfb.
  - pose proof (handle_facebook w request body url tr Hbody Hurl Htruthy Hfb) as Hhandle.
    unfold try_catch. rewrite !Hhandle. unfold try_catch, bind.
    destruct (fetchFacebookVideo_outcomes w url tr) as [(r & tr1 & -> & Hv)|(tr1 & ->)].
    + rewrite Hv. cbn [negb ret fst]. left. repeat split. exists r. auto.
    + cbn [ret fst]. right. right. left. reflexivity.
  - assert (Hvalid : existsb (fun p => re_test p url) validPatterns = true).
    { rewrite <- client_validateInstagramUrl_route.
      unfold Client.validateUrl in Hpage. apply orb_true_iff in Hpage as [H|H]; [exact H|].
      apply client_validateFacebookUrl_route in H. congruence. }
    pose proof (handle_instagram w request body url tr Hbody Hurl Htruthy Hfb Hvalid)
      as Hhandle.
    unfold try_catch. rewrite !Hhandle. unfold bind.
    destruct (fetchInstagramData_outcomes w url tr)
      as [(r & tr1 & -> & Hv)|[(tr1 & ->)|(Hcode & _)]].
    + rewrite Hv. cbn [negb ret fst]. left. repeat split. exists r. auto.
    + cbn [ret fst]. right. right. right. reflexivity.
    + rewrite (valid_url_has_shortcode url Hvalid) in Hcode. discriminate Hcode.
Qed.

(** X2. A URL the page accepts is never rejected by the route
    as malformed: the route does not answer 400 to a request that
    carries it. A Facebook URL of the page is a Facebook URL of the
    route, and an Instagram URL of the page passes the format check of
    the route. *)
Theorem page_urls_are_routed (w : World) (now : Z) (request : NextRequest)
    (rateLimitMap : gmap string RateRecord) (body : jobject) (url : string) (tr : trace) :
  request_json request = Ok body ->
  field "url" body = str url ->
  Client.validateUrl url = true ->
  status (POST w now request rateLimitMap tr).1.1 <> 400.
Proof.
  intros Hbody Hurl Hpage.
  destruct (page_url_answer w now request rateLimitMap body url tr Hbody Hurl Hpage)
    as [(Hstatus & _)|[H|[H|H]]].
  - rewrite Hstatus. discriminate.
  - rewrite H. cbn. discriminate.
  - rewrite H. cbn. discriminate.
  - rewrite H. cbn. discriminate.
Qed.

Lemma page_urls_are_routed_witness :
  status (POST dead_world 0 reel_request ∅ []).1.1 <> 400.
Proof.
  apply (page_urls_are_routed dead_world 0 reel_request ∅
           [("url", str "https://www.instagram.com/reel/ABC123/")]
           "https://www.instagram.com/reel/ABC123/" []);
    first [reflexivity | vm_compute; reflexivity].
Defined.

(** X16. What a submission shows when the route answers it:
    the video, with a video URL that is not empty, or one of five
    messages. The messages of the page for an answer without success flag
    and for an answer without video URL are never shown, and neither are
    the two messages of the route for a missing or malformed URL: the
    checks of the page and the answers of the route leave no way to
    them. *)
Theorem page_shows_video_or_message (w : World) (now : Z) (forwarded real_ip : val)
    (rateLimitMap : gmap string RateRecord) (tr : trace) (url : string) :
  let api_download body :=
    Page.Answered (POST w now (mkNextRequest forwarded real_ip (Ok body))
                     rateLimitMap tr).1.1 in
  match Page.handleSubmit api_download url with
  | Page.VideoView data => answers_video data
  | Page.ErrorView message => In message page_messages
  end.
Proof.
  cbv zeta. unfold Page.handleSubmit.
  destruct (Page.blank url); [cbn; auto|].
  destruct (Client.validateUrl url) eqn:Hpage; cbn [negb]; [|cbn; auto].
  pose proof (page_url_answer w now (mkNextRequest forwarded real_ip (Ok [("url", str url)]))
                rateLimitMap [("url", str url)] url tr eq_refl eq_refl Hpage) as Hanswer.
  cbv zeta in Hanswer. cbv beta iota.
  match goal with
  | |- context [POST ?a ?b ?c ?d ?e] => set (response := (POST a b c d e).1.1)
  end.
  assert (Hshape : answers_video response
                   \/ response = failure 429 "Too many requests. Please wait a moment and try again."
                   \/ response = failure 500 NOT_FOUND_FB
                   \/ response = failure 500 NOT_FOUND_IG) by exact Hanswer.
  clearbody response. clear Hanswer.
  destruct Hshape as [Hvideo|[ -> |[ -> | -> ]]]; [|cbn; auto 8..].
  pose proof Hvideo as (Hstatus & Hsuccess & r & Hpayload & Hv).
  unfold Page.response_ok, Page.data_video_url.
  rewrite Hstatus, Hsuccess, Hpayload, Hv. cbn. exact Hvideo.
Qed.

(* ===================================================================== *)
(** ** The URLs the format check accepts *)
(* ===================================================================== *)

Lemma mtc_seq_inv icase total r1 r2 s c s2 c2 :
  mtc icase total (Seq r1 r2) s c s2 c2 ->
  exists s1 c1, mtc icase total r1 s c s1 c1 /\ mtc icase total r2 s1 c1 s2 c2.
Proof. intros H. inversion H; subst. eauto. Qed.

Lemma mtc_opt_inv icase total r s c s1 c1 :
  mtc icase total (opt r) s c s1 c1 -> mtc icase total r s c s1 c1 \/ s1 = s.
Proof.
  unfold opt. intros H. inversion H as [| | | |? ? ? ? ? ? Hl|? ? ? ? ? ? Hr| | |]; subst.
  - left. exact Hl.
  - right. inversion Hr; subst. reflexivity.
Qed.

Lemma mtc_bol_inv icase total s c s1 c1 :
  mtc icase total Bol s c s1 c1 -> s1 = s /\ slen s = total.
Proof. intros H. inversion H; subst. auto. Qed.

Lemma mtc_group_inv icase total n r s c s1 c1 :
  mtc icase total (Group n r) s c s1 c1 -> exists c1', mtc icase total r s c s1 c1'.
Proof. intros H. inversion H; subst. eauto. Qed.

Lemma slen_nil s : slen s = 0%nat -> s = "".
Proof. destruct s; [reflexivity | discriminate]. Qed.

Lemma valid_pattern_shape kind url :
  re_test (re [Bol; lit "http"; opt (chr "s"); lit "://"; opt (Group 1 (lit "www."));
               lit ("instagram.com/" +:+ kind +:+ "/"); plus word_or_dash]) url = true ->
  exists scheme www code rest,
    url = scheme +:+ "://" +:+ www +:+ "instagram.com/" +:+ kind +:+ "/" +:+ code +:+ rest
    /\ (scheme = "http" \/ scheme = "https")
    /\ (www = "" \/ www = "www.")
    /\ code <> "" /\ all_chars shortcode_char code.
Proof.
  unfold re_test, re_match, re. cbn [seqs p_icase p_re].
  destruct (search false (slen url) _ url) as [m|] eqn:E; [|discriminate]. intros _.
  apply search_sound in E as (before & Hs & Hm).
  apply mtc_seq_inv in Hm as (s1 & c1 & Hbol & Hm).
  apply mtc_bol_inv in Hbol as [-> Hlen].
  assert (Hbefore : before = "").
  { apply slen_nil. rewrite Hs in Hlen. rewrite (slen_append before) in Hlen. lia. }
  subst before. rewrite append_nil_l in Hs.
  apply mtc_seq_inv in Hm as (s2 & c2 & Hhttp & Hm).
  apply mtc_lit_inv in Hhttp as [Hhttp _].
  apply mtc_seq_inv in Hm as (s3 & c3 & Hsecure & Hm).
  apply mtc_seq_inv in Hm as (s4 & c4 & Hsep & Hm).
  apply mtc_lit_inv in Hsep as [Hsep _].
  apply mtc_seq_inv in Hm as (s5 & c5 & Hwww & Hm).
  apply mtc_seq_inv in Hm as (s6 & c6 & Hhost & Hm).
  apply mtc_lit_inv in Hhost as [Hhost _].
  apply mtc_plus_cls_inv in Hm as (_ & code & Hcode & Hne & Hall).
  assert (Hscheme : exists scheme, (scheme = "http" \/ scheme = "https")
                                   /\ "http" +:+ s2 = scheme +:+ s3).
  { apply mtc_opt_inv in Hsecure as [H| ->].
    - inversion H as [| |neg rs ch s' c' Hch| | | | | |]; subst.
      apply chr_matches in Hch. subst ch. exists "https". split; [auto | reflexivity].
    - exists "http". split; [auto | reflexivity]. }
  assert (Hhostname : exists www, (www = "" \/ www = "www.") /\ s4 = www +:+ s5).
  { apply mtc_opt_inv in Hwww as [H| ->].
    - apply mtc_group_inv in H as [c' H]. apply mtc_lit_inv in H as [H _].
      exists "www.". split; [auto | exact H].
    - exists "". split; [auto | reflexivity]. }
  destruct Hscheme as (scheme & Hscheme & Hs2).
  destruct Hhostname as (www & Hhostname & Hs4).
  exists scheme, www, code, (m_rest m).
  repeat split; try assumption.
  rewrite Hs, Hhttp, Hs2, Hsep, Hs4, Hhost, Hcode, !append_assoc. reflexivity.
Qed.

Lemma valid_pattern_accepts kind scheme www code rest :
  (scheme = "http" \/ scheme = "https") -> (www = "" \/ www = "www.") ->
  code <> "" -> all_chars shortcode_char code ->
  re_test (re [Bol; lit "http"; opt (chr "s"); lit "://"; opt (Group 1 (lit "www."));
               lit ("instagram.com/" +:+ kind +:+ "/"); plus word_or_dash])
    (scheme +:+ "://" +:+ www +:+ "instagram.com/" +:+ kind +:+ "/" +:+ code +:+ rest)
  = true.
Proof.
  intros Hscheme Hwww Hne Hall.
  set (url := scheme +:+ "://" +:+ www +:+ "instagram.com/" +:+ kind +:+ "/" +:+ code +:+ rest).
  unfold re_test, re_match, re. cbn [seqs p_icase p_re].
  assert (Hm : exists c1,
             mtc false (slen url)
               (Seq Bol (Seq (lit "http") (Seq (opt (chr "s")) (Seq (lit "://")
                  (Seq (opt (Group 1 (lit "www.")))
                     (Seq (lit ("instagram.com/" +:+ kind +:+ "/")) (plus word_or_dash)))))))
               url [] rest c1).
  { assert (Htail : forall c, mtc false (slen url)
                       (Seq (lit ("instagram.com/" +:+ kind +:+ "/")) (plus word_or_dash))
                       ("instagram.com/" +:+ kind +:+ "/" +:+ code +:+ rest) c rest c).
    { intros c. apply (mtc_seq _ _ _ _ _ _ (code +:+ rest) c).
      - replace ("instagram.com/" +:+ kind +:+ "/" +:+ code +:+ rest)
          with (("instagram.com/" +:+ kind +:+ "/") +:+ code +:+ rest)
          by (rewrite !append_assoc; reflexivity).
        apply mtc_lit_intro.
      - apply mtc_plus_cls_intro; assumption. }
    assert (Hhost : forall c, exists c1, mtc false (slen url)
                      (Seq (opt (Group 1 (lit "www.")))
                         (Seq (lit ("instagram.com/" +:+ kind +:+ "/")) (plus word_or_dash)))
                      (www +:+ "instagram.com/" +:+ kind +:+ "/" +:+ code +:+ rest) c rest c1).
    { intros c. destruct Hwww as [-> | ->].
      - exists c. rewrite append_nil_l. eapply mtc_seq; [|apply Htail].
        apply mtc_alt_r. constructor.
      - eexists. eapply mtc_seq; [|apply Htail].
        apply mtc_alt_l. apply mtc_group. apply mtc_lit_intro. }
    destruct (Hhost []) as [c1 Hrest]. exists c1.
    eapply mtc_seq; [apply mtc_bol; reflexivity|].
    unfold url. destruct Hscheme as [-> | ->].
    - apply (mtc_seq _ _ _ _ _ _ ("://" +:+ www +:+ "instagram.com/" +:+ kind +:+ "/"
                                    +:+ code +:+ rest) []); [apply (mtc_lit_intro _ "http")|].
      eapply mtc_seq; [apply mtc_alt_r; constructor|].
      eapply mtc_seq; [apply (mtc_lit_intro _ "://") | exact Hrest].
    - apply (mtc_seq _ _ _ _ _ _ ("s://" +:+ www +:+ "instagram.com/" +:+ kind +:+ "/"
                                    +:+ code +:+ rest) []); [apply (mtc_lit_intro _ "http")|].
      eapply mtc_seq; [apply mtc_alt_l; apply mtc_cls; reflexivity|].
      eapply mtc_seq; [apply (mtc_lit_intro _ "://") | exact Hrest]. }
  destruct Hm as [c1 Hm].
  pose proof (search_complete false (slen url) _ "" _ _ _ Hm) as Hsearch.
  rewrite append_nil_l in Hsearch.
  destruct (search false (slen url) _ url); [reflexivity | congruence].
Qed.

(** X15. The format check of the route accepts exactly the
    URLs that start with [http://] or [https://], an optional [www.],
    [instagram.com/], one of [p], [reel], [reels] and [tv], a slash, and
    a shortcode of at least one letter, digit, underscore or dash; what
    follows the shortcode is not looked at. *)
Theorem valid_instagram_url_iff (url : string) :
  existsb (fun p => re_test p url) validPatterns = true <-> instagram_url_shape url.
Proof.
  unfold validPatterns, instagram_url_shape. rewrite existsb_exists. split.
  - intros (p & Hin & Htest). apply in_map_iff in Hin as (kind & <- & Hkind).
    apply valid_pattern_shape in Htest
      as (scheme & www & code & rest & Hurl & Hscheme & Hwww & Hne & Hall).
    exists scheme, www, kind, code, rest. auto 10.
  - intros (scheme & www & kind & code & rest & -> & Hscheme & Hwww & Hkind & Hne & Hall).
    eexists. split; [apply in_map_iff; exists kind; split; [reflexivity | exact Hkind]|].
    apply valid_pattern_accepts; assumption.
Qed.
